(** * Public-key primitives of the cryptography visualisation system

    A shallow embedding of the self-contained RSA / ElGamal / ECC engines
    (RSAEncryption.ts, ElGamalEncryption.ts, ECCEncryption.ts) together with
    the properties their specification states about them.

    Conventions.
    - A JavaScript [bigint] is a [Z]; [/] is [Z.quot], [%] is [Z.rem]
      (both truncate towards zero and throw a RangeError on a zero divisor),
      [>>] is [Z.shiftr], [<<] is [Z.shiftl], [|] is [Z.lor], [&] is [Z.land].
    - A [Uint8Array] is a [list Z] whose elements are bytes (see [is_bytes]).
    - A string is the list of its UTF-16 code units; [TextEncoder] and
      [TextDecoder] are [stringToBytes] and [bytesToString].
    - A call either returns, throws, or does not come back: see [res]. *)

From Stdlib Require Import ZArith List Lia Bool Znumtheory.
From Stdlib Require Import Zmod.ZmodInv.
From Bignums Require Import BigZ.
Import ListNotations.
Local Open Scope Z_scope.

(** ** Outcomes of a call *)

Inductive error : Type :=
| RangeError                         (* BigInt division by zero, bad array offset *)
| NoModInverse (a m g : Z)           (* modInverse: gcd differs from 1 *)
| MessageTooLong (maxLen : Z)        (* RSA encrypt guard *)
| OaepMessageTooLong                 (* oaep_encode guard *)
| DecodeTooShort                     (* oaep_decode: k < 2*hLen + 2 *)
| DecodeBadFormat                    (* oaep_decode: em[0] <> 0 *)
| DecodeLabelMismatch                (* oaep_decode: lHash differs *)
| DecodeNoSeparator                  (* oaep_decode: no 0x01 found *)
| NotQuadraticResidue (n p : Z)      (* modSqrt: Euler criterion fails *)
| SqrtNotFound                       (* modSqrt: inner search exceeded m *)
| InvalidKeyFormat                   (* key could not be parsed *)
| MissingField                       (* envelope lacks ephemeralKey / iv *)
| RSAKeyGenFailed
| RSAEncryptFailed                   (* what RSA encrypt rethrows *)
| RSADecryptFailed                   (* what RSA decrypt rethrows *)
| TypeError                          (* a value of the wrong shape *)
| ElGamalKeyGenFailed
| ElGamalEncryptFailed
| ElGamalDecryptFailed
| ECCKeyGenFailed
| ECCEncryptFailed
| ECCDecryptFailed.

Inductive res (A : Type) : Type :=
| Ok (a : A)          (* the call returned [a] *)
| Err (e : error)     (* the call threw [e] *)
| Timeout.            (* the loop was still running when the fuel ran out *)

Arguments Ok {A} a.
Arguments Err {A} e.
Arguments Timeout {A}.

Definition bind {A B : Type} (r : res A) (k : A -> res B) : res B :=
  match r with
  | Ok a => k a
  | Err e => Err e
  | Timeout => Timeout
  end.

Notation "x <- c ;; k" := (bind c (fun x => k))
  (at level 61, c at next level, right associativity).

(** [try { body } catch { throw new Error(msg) }]: every exception of the
    body is replaced by the one fixed error. *)
Definition catch_rethrow {A : Type} (body : res A) (e : error) : res A :=
  match body with
  | Ok a => Ok a
  | Err _ => Err e
  | Timeout => Timeout
  end.

Definition returns {A : Type} (r : res A) : bool :=
  match r with Ok _ => true | _ => false end.

Definition throws {A : Type} (r : res A) : bool :=
  match r with Err _ => true | _ => false end.

(** ** BigInt operators that can throw *)

Definition big_rem (a b : Z) : res Z :=
  if b =? 0 then Err RangeError else Ok (Z.rem a b).

Definition big_div (a b : Z) : res Z :=
  if b =? 0 then Err RangeError else Ok (Z.quot a b).

(** [n.toString(2).length]: the sign takes one character. *)
Definition getBitLength (n : Z) : Z :=
  match n with
  | 0 => 1
  | Zpos _ => Z.log2 n + 1
  | Zneg _ => Z.log2 (- n) + 2
  end.

(** ** Modular exponentiation

    RSAEncryption.modExp halves the exponent with [exponent / 2n];
    ElGamalEncryption.modPow and ECCEncryption.modPow use [exponent >> 1n].
    The loop is otherwise the same, so it is written once over the halving
    step. *)

Fixpoint modPow_loop (halve : Z -> Z) (fuel : nat)
         (result base exponent modulus : Z) : res Z :=
  match fuel with
  | O => Timeout
  | S fuel' =>
      if exponent >? 0 then
        let result' :=
          if Z.rem exponent 2 =? 1
          then Z.rem (result * base) modulus
          else result in
        let exponent' := halve exponent in
        let base' := Z.rem (base * base) modulus in
        modPow_loop halve fuel' result' base' exponent' modulus
      else Ok result
  end.

(** The loop runs once per binary digit of a positive exponent. *)
Definition modPow_fuel (exponent : Z) : nat :=
  S (Z.to_nat (Z.log2 exponent + 1)).

Definition modPow_with (halve : Z -> Z) (base exponent modulus : Z) : res Z :=
  if modulus =? 1 then Ok 0
  else
    base0 <- big_rem base modulus ;;
    modPow_loop halve (modPow_fuel exponent) 1 base0 exponent modulus.

Definition modPow : Z -> Z -> Z -> res Z :=
  modPow_with (fun e => Z.shiftr e 1).

Definition modExp : Z -> Z -> Z -> res Z :=
  modPow_with (fun e => Z.quot e 2).

(** ** Modular inverse (extended Euclid), identical in the three engines *)

Fixpoint modInverse_loop (fuel : nat) (old_r r old_s s : Z) : res (Z * Z) :=
  match fuel with
  | O => Timeout
  | S fuel' =>
      if r =? 0 then Ok (old_r, old_s)
      else
        let quotient := Z.quot old_r r in
        modInverse_loop fuel' r (old_r - quotient * r) s (old_s - quotient * s)
  end.

(** Each pass at least halves [|old_r * r|] once [|old_r| >= |r|]. *)
Definition modInverse_fuel (m : Z) : nat :=
  Z.to_nat (2 * (Z.log2 (Z.abs m) + 1) + 3).

Definition modInverse (a m : Z) : res Z :=
  if m =? 1 then Ok 0
  else
    a1 <- big_rem a m ;;
    a2 <- big_rem (a1 + m) m ;;
    p <- modInverse_loop (modInverse_fuel m) a2 m 1 0 ;;
    let '(old_r, old_s) := p in
    if negb (old_r =? 1) then Err (NoModInverse a2 m old_r)
    else
      t <- big_rem old_s m ;;
      big_rem (t + m) m.

(** ** Bytes, byte arrays and the random source *)

Definition is_byte (b : Z) : Prop := 0 <= b < 256.

Definition is_bytes (l : list Z) : Prop := Forall is_byte l.

(** What a [Uint8Array] keeps of a number stored into it. *)
Definition to_u8 (v : Z) : Z := Z.land v 255.

(** The random source: [rng i] is the [i]-th byte it hands out.  A call of
    [getRandomBytes] consumes [length] bytes from position [pos]. *)
Definition rng : Type := nat -> Z.

Definition getRandomBytes (r : rng) (pos length : nat) : list Z * nat :=
  (map (fun i => to_u8 (r i)) (seq pos length), (pos + length)%nat).

(** [Math.ceil(bits / 8)] *)
Definition ceil_div8 (bits : Z) : Z := (bits + 7) / 8.

Definition bytesToBigInt (bytes : list Z) : Z :=
  fold_left (fun result b => Z.lor (Z.shiftl result 8) b) bytes 0.

(** The loop shared by ElGamal/ECC [bigIntToText] and [bigIntToBytes]:
    [while (temp > 0n) { bytes.unshift(temp & 0xFF); temp >>= 8n }]. *)
Fixpoint unshift_loop (fuel : nat) (temp : Z) (bytes : list Z) : res (list Z) :=
  match fuel with
  | O => Timeout
  | S fuel' =>
      if temp >? 0
      then unshift_loop fuel' (Z.shiftr temp 8) (Z.land temp 255 :: bytes)
      else Ok bytes
  end.

Definition unshift_fuel (value : Z) : nat :=
  S (Z.to_nat (Z.log2 value / 8 + 1)).

(** [while (bytes.length < length) bytes.unshift(0)] *)
Definition pad_left (bytes : list Z) (length : nat) : list Z :=
  repeat 0 (length - List.length bytes) ++ bytes.

(** ElGamal/ECC [bigIntToBytes(value, length?)]. *)
Definition bigIntToBytes_var (value : Z) (length : option nat) : res (list Z) :=
  bytes <- unshift_loop (unshift_fuel value) value [] ;;
  match length with
  | Some n => Ok (pad_left bytes n)
  | None => Ok bytes
  end.

(** ** Strings and the platform's UTF-8 codec

    A string is the list of its UTF-16 code units.  [stringToBytes] and
    [bytesToString] call [new TextEncoder().encode] and
    [new TextDecoder().decode], which every environment of the pages
    provides (the ASCII fallback branches are not reached). *)
Definition text : Type := list Z.

Definition is_high_surrogate (c : Z) : bool := (0xD800 <=? c) && (c <=? 0xDBFF).
Definition is_low_surrogate (c : Z) : bool := (0xDC00 <=? c) && (c <=? 0xDFFF).

(** The scalar values that the encoder sees: a surrogate pair is one code
    point, a lone surrogate is replaced by U+FFFD. *)
Fixpoint scalar_values (s : text) : list Z :=
  match s with
  | [] => []
  | c :: rest =>
      if is_high_surrogate c then
        match rest with
        | d :: rest' =>
            if is_low_surrogate d
            then (0x10000 + (c - 0xD800) * 0x400 + (d - 0xDC00)) :: scalar_values rest'
            else 0xFFFD :: scalar_values rest
        | [] => [0xFFFD]
        end
      else if is_low_surrogate c then 0xFFFD :: scalar_values rest
      else c :: scalar_values rest
  end.

Definition utf8_encode_code_point (cp : Z) : list Z :=
  if cp <? 0x80 then [cp]
  else if cp <? 0x800 then
    [Z.lor 0xC0 (Z.shiftr cp 6); Z.lor 0x80 (Z.land cp 0x3F)]
  else if cp <? 0x10000 then
    [Z.lor 0xE0 (Z.shiftr cp 12); Z.lor 0x80 (Z.land (Z.shiftr cp 6) 0x3F);
     Z.lor 0x80 (Z.land cp 0x3F)]
  else
    [Z.lor 0xF0 (Z.shiftr cp 18); Z.lor 0x80 (Z.land (Z.shiftr cp 12) 0x3F);
     Z.lor 0x80 (Z.land (Z.shiftr cp 6) 0x3F); Z.lor 0x80 (Z.land cp 0x3F)].

(** [new TextEncoder().encode(str)] *)
Definition stringToBytes (s : text) : list Z :=
  flat_map utf8_encode_code_point (scalar_values s).

(** What a byte starts when no sequence is open. *)
Inductive utf8_lead : Type :=
| LeadEmit (cp : Z)
| LeadNeed (needed : nat) (cp lower upper : Z)
| LeadError.

Definition utf8_classify (b : Z) : utf8_lead :=
  if b <=? 0x7F then LeadEmit b
  else if (0xC2 <=? b) && (b <=? 0xDF) then LeadNeed 1 (Z.land b 0x1F) 0x80 0xBF
  else if (0xE0 <=? b) && (b <=? 0xEF) then
    LeadNeed 2 (Z.land b 0xF)
             (if b =? 0xE0 then 0xA0 else 0x80) (if b =? 0xED then 0x9F else 0xBF)
  else if (0xF0 <=? b) && (b <=? 0xF4) then
    LeadNeed 3 (Z.land b 0x7)
             (if b =? 0xF0 then 0x90 else 0x80) (if b =? 0xF4 then 0x8F else 0xBF)
  else LeadError.

(** The UTF-8 decoder of the Encoding Standard with replacement of errors:
    [needed] continuation bytes are awaited, the next one within
    [[lower, upper]]; a byte that does not continue the open sequence ends it
    with U+FFFD and is read again as a first byte; input that ends inside a
    sequence gives one U+FFFD. *)
Fixpoint utf8_decode_loop (bytes : list Z) (cp : Z) (needed : nat) (lower upper : Z)
  : list Z :=
  match bytes with
  | [] => match needed with O => [] | S _ => [0xFFFD] end
  | b :: rest =>
      let start :=
        match utf8_classify b with
        | LeadEmit c => c :: utf8_decode_loop rest 0 0 0x80 0xBF
        | LeadNeed n c lo hi => utf8_decode_loop rest c n lo hi
        | LeadError => 0xFFFD :: utf8_decode_loop rest 0 0 0x80 0xBF
        end in
      match needed with
      | O => start
      | S needed' =>
          if (lower <=? b) && (b <=? upper) then
            let cp' := Z.lor (Z.shiftl cp 6) (Z.land b 0x3F) in
            match needed' with
            | O => cp' :: utf8_decode_loop rest 0 0 0x80 0xBF
            | S _ => utf8_decode_loop rest cp' needed' 0x80 0xBF
            end
          else 0xFFFD :: start
      end
  end.

Definition utf8_decode (bytes : list Z) : list Z :=
  utf8_decode_loop bytes 0 0 0x80 0xBF.

(** The decoder of [TextDecoder] drops one leading byte order mark. *)
Definition strip_bom (cps : list Z) : list Z :=
  match cps with
  | c :: rest => if c =? 0xFEFF then rest else cps
  | [] => []
  end.

Definition code_units (cp : Z) : list Z :=
  if cp <? 0x10000 then [cp]
  else [0xD800 + Z.shiftr (cp - 0x10000) 10; 0xDC00 + Z.land (cp - 0x10000) 0x3FF].

(** [new TextDecoder().decode(bytes)] *)
Definition bytesToString (bytes : list Z) : text :=
  flat_map code_units (strip_bom (utf8_decode bytes)).

Definition textToBigInt (t : text) : Z := bytesToBigInt (stringToBytes t).

Definition bigIntToText (value : Z) : res text :=
  bytes <- unshift_loop (unshift_fuel value) value [] ;;
  Ok (bytesToString bytes).

(** [value.toString().length]: decimal digits, one more for a sign. *)
Fixpoint decimal_digits (fuel : nat) (n : Z) : Z :=
  match fuel with
  | O => 1
  | S fuel' => if n <? 10 then 1 else 1 + decimal_digits fuel' (n / 10)
  end.

Definition decimal_length (n : Z) : Z :=
  if n <? 0
  then 1 + decimal_digits (Z.to_nat (Z.log2 (- n) + 1)) (- n)
  else decimal_digits (Z.to_nat (Z.log2 n + 1)) n.

(** The loop [while (q % 2n === 0n) { q /= 2n; s++ }] that splits off the
    powers of two, in [millerRabinTest] and in [modSqrt]. *)
Fixpoint factor_twos (fuel : nat) (q : Z) (s : nat) : res (Z * nat) :=
  match fuel with
  | O => Timeout
  | S fuel' =>
      if Z.rem q 2 =? 0 then factor_twos fuel' (Z.quot q 2) (S s)
      else Ok (q, s)
  end.

Definition factor_twos_fuel (q : Z) : nat :=
  S (Z.to_nat (Z.log2 (Z.abs q) + 1)).

(** ** ElGamal *)

Module ElGamal.

Definition BIG_PRIME : Z :=
  0xFFFFFFFFFFFFFFFFC90FDAA22168C234C4C6628B80DC1CD129024E088A67CC74020BBEA63B139B22514A08798E3404DDEF9519B3CD3A431B302B0A6DF25F14374FE1356D6D51C245E485B576625E7EC6F44C42E9A637ED6B0BFF5CB6F406B7EDEE386BFB5A899FA5AE9F24117C4B1FE649286651ECE45B3DC2007CB8A163BF0598DA48361C55D39A69163FA8FD24CF5F83655D23DCA3AD961C62F356208552BB9ED529077096966D670C354E4ABC9804F1746C08CA18217C32905E462E36CE3BE39E772C180E86039B2783A2EC07A28FB5C55DF06F4C52C9DE2BCBF6955817183995497CEA956AE515D2261898FA051015728E5A8AACAA68FFFFFFFFFFFFFFFF.

Definition GENERATOR : Z := 2.

Record PublicKey : Type := { pk_y : Z; pk_g : Z; pk_p : Z }.
Record PrivateKey : Type := { sk_x : Z; sk_p : Z }.

(** The JSON carried in [ciphertext]: one [{c1, c2}] object, or the array
    of them that block mode writes. *)
Inductive Ciphertext : Type :=
| CtPair (c1 c2 : Z)
| CtBlocks (blocks : list (Z * Z)).

Record EncryptionResult : Type := {
  ciphertext : Ciphertext;
  ephemeralKey : option Z;
  isBlocked : bool;
  blockCount : option nat
}.

(** [generateRandomBigInt(max)]: draw [ceil(bitLength/8)] bytes, reduce
    modulo [max], again while the result is [<= 0]. *)
Fixpoint generateRandomBigInt_loop (fuel : nat) (r : rng) (pos : nat)
         (byteLength : nat) (max : Z) : res (Z * nat) :=
  match fuel with
  | O => Timeout
  | S fuel' =>
      let '(randomBytes, pos') := getRandomBytes r pos byteLength in
      result <- big_rem (bytesToBigInt randomBytes) max ;;
      if result <=? 0
      then generateRandomBigInt_loop fuel' r pos' byteLength max
      else Ok (result, pos')
  end.

Definition generateRandomBigInt (fuel : nat) (r : rng) (pos : nat) (max : Z)
  : res (Z * nat) :=
  let bitLength := getBitLength max in
  generateRandomBigInt_loop fuel r pos (Z.to_nat (ceil_div8 bitLength)) max.

Definition generateKeys (fuel : nat) (r : rng) (pos : nat)
  : res (PublicKey * PrivateKey * nat) :=
  catch_rethrow
    (kp <- generateRandomBigInt fuel r pos (BIG_PRIME - 1) ;;
     let '(privateKey, pos') := kp in
     publicKey <- modPow GENERATOR privateKey BIG_PRIME ;;
     Ok ({| pk_y := publicKey; pk_g := GENERATOR; pk_p := BIG_PRIME |},
         {| sk_x := privateKey; sk_p := BIG_PRIME |}, pos'))
    ElGamalKeyGenFailed.

(** The single-block branch of [encrypt], below the [M >= P] test. *)
Definition encrypt_single (fuel : nat) (r : rng) (pos : nat)
           (M : Z) (pk : PublicKey) : res (EncryptionResult * nat) :=
  kp <- generateRandomBigInt fuel r pos (pk_p pk - 1) ;;
  let '(k, pos') := kp in
  c1 <- modPow (pk_g pk) k (pk_p pk) ;;
  s <- modPow (pk_y pk) k (pk_p pk) ;;
  c2 <- big_rem (M * s) (pk_p pk) ;;
  Ok ({| ciphertext := CtPair c1 c2; ephemeralKey := Some k;
         isBlocked := false; blockCount := None |}, pos').

(** [for (i = 0; i < length; i += blockSize) blocks.push(slice(i, i+blockSize))] *)
Fixpoint split_blocks (fuel : nat) (bytes : list Z) (blockSize : nat)
  : res (list (list Z)) :=
  match bytes with
  | [] => Ok []
  | _ :: _ =>
      match fuel with
      | O => Timeout
      | S fuel' =>
          rest <- split_blocks fuel' (skipn blockSize bytes) blockSize ;;
          Ok (firstn blockSize bytes :: rest)
      end
  end.

(** The loop of [blockEncrypt] over the blocks; [enc] is the recursive call
    of [encrypt]. *)
Fixpoint encrypt_blocks (enc : text -> nat -> res (EncryptionResult * nat))
         (blocks : list (list Z)) (pos : nat) : res (list (Z * Z) * nat) :=
  match blocks with
  | [] => Ok ([], pos)
  | block :: rest =>
      br <- enc (bytesToString block) pos ;;
      let '(blockResult, pos') := br in
      match ciphertext blockResult with
      | CtPair c1 c2 =>
          rr <- encrypt_blocks enc rest pos' ;;
          let '(encryptedBlocks, pos'') := rr in
          Ok ((c1, c2) :: encryptedBlocks, pos'')
      | CtBlocks _ => Err TypeError
      end
  end.

Definition blockSize_of (P : Z) : nat :=
  Z.to_nat ((decimal_length P - 1) / 4).

Definition blockEncrypt (enc : text -> nat -> res (EncryptionResult * nat))
           (message : text) (pk : PublicKey) (pos : nat)
  : res (EncryptionResult * nat) :=
  let messageBytes := stringToBytes message in
  blocks <- split_blocks (List.length messageBytes) messageBytes
                         (blockSize_of (pk_p pk)) ;;
  eb <- encrypt_blocks enc blocks pos ;;
  let '(encryptedBlocks, pos') := eb in
  Ok ({| ciphertext := CtBlocks encryptedBlocks; ephemeralKey := None;
         isBlocked := true; blockCount := Some (List.length blocks) |}, pos').

(** [encrypt]: [depth] bounds the nesting of [encrypt] inside
    [blockEncrypt]; [fuel] bounds the redraws of the ephemeral key. *)
Fixpoint encrypt (depth fuel : nat) (r : rng) (message : text)
         (pk : PublicKey) (pos : nat) : res (EncryptionResult * nat) :=
  match depth with
  | O => Timeout
  | S depth' =>
      let M := textToBigInt message in
      if M >=? pk_p pk
      then blockEncrypt (fun blockMessage p => encrypt depth' fuel r blockMessage pk p)
                        message pk pos
      else catch_rethrow (encrypt_single fuel r pos M pk) ElGamalEncryptFailed
  end.

Definition decrypt_single (c1 c2 : Z) (sk : PrivateKey) : res text :=
  catch_rethrow
    (s <- modPow c1 (sk_x sk) (sk_p sk) ;;
     sInverse <- modInverse s (sk_p sk) ;;
     M <- big_rem (c2 * sInverse) (sk_p sk) ;;
     bigIntToText M)
    ElGamalDecryptFailed.

Fixpoint blockDecrypt (blocks : list (Z * Z)) (sk : PrivateKey) : res text :=
  match blocks with
  | [] => Ok []
  | (c1, c2) :: rest =>
      t <- decrypt_single c1 c2 sk ;;
      ts <- blockDecrypt rest sk ;;
      Ok (t ++ ts)
  end.

Definition decrypt (er : EncryptionResult) (sk : PrivateKey) : res text :=
  if isBlocked er then
    match ciphertext er with
    | CtBlocks blocks => blockDecrypt blocks sk
    | CtPair _ _ => Err TypeError
    end
  else
    match ciphertext er with
    | CtPair c1 c2 => decrypt_single c1 c2 sk
    | CtBlocks _ => Err ElGamalDecryptFailed
    end.

(** One session: [generateKeys()], then [encrypt(message, publicKey)],
    then [decrypt(result, privateKey)]. *)
Definition roundtrip (depth fuel : nat) (r : rng) (message : text) : res text :=
  kp <- generateKeys fuel r 0 ;;
  let '(pk, sk, pos) := kp in
  er <- encrypt depth fuel r message pk pos ;;
  let '(result, _) := er in
  decrypt result sk.

End ElGamal.

(** A random source whose 256-byte draws are all the number 3. *)
Definition low_rng : rng := fun i => if (i mod 256 =? 255)%nat then 3 else 0.

(** ** Typed-array helpers *)

(** [arr[i]] used as an operand of [^]: a missing element reads as 0. *)
Definition u8_get (arr : list Z) (i : nat) : Z := nth i arr 0.

(** [arr[i] = v]: the value is truncated to a byte; an index outside the
    array is ignored. *)
Fixpoint u8_store (arr : list Z) (i : nat) (v : Z) : list Z :=
  match arr, i with
  | [], _ => []
  | _ :: rest, O => to_u8 v :: rest
  | x :: rest, S i' => x :: u8_store rest i' v
  end.

(** [dst.set(src, offset)]: throws a RangeError when [src] does not fit. *)
Definition u8_set (dst src : list Z) (offset : nat) : res (list Z) :=
  if (offset + length src <=? length dst)%nat
  then Ok (firstn offset dst ++ src ++ skipn (offset + length src) dst)
  else Err RangeError.

(** [new Uint8Array(n)] *)
Definition u8_new (n : Z) : res (list Z) :=
  if n <? 0 then Err RangeError else Ok (repeat 0 (Z.to_nat n)).

(** [arr.slice(from, to)] and [arr.slice(from)] for non-negative bounds. *)
Definition u8_slice (arr : list Z) (from to : nat) : list Z :=
  firstn (to - from) (skipn from arr).

Definition u8_slice_from (arr : list Z) (from : nat) : list Z :=
  skipn from arr.

(** [for (i = 0; i < n; i++) out[i] = a[i] ^ b[i]] into a fresh array of
    [n] bytes. *)
Definition xor_bytes (a b : list Z) (n : nat) : list Z :=
  map (fun i => to_u8 (Z.lxor (u8_get a i) (u8_get b i))) (seq 0 n).

(** ** The stand-in hash ([simpleHashBytes] / [simpleHash]) *)

Definition toInt32 (z : Z) : Z := (z + 2 ^ 31) mod 2 ^ 32 - 2 ^ 31.
Definition toUint32 (z : Z) : Z := z mod 2 ^ 32.

(** [x << n] on Numbers *)
Definition shl32 (x n : Z) : Z := toInt32 (Z.shiftl (toInt32 x) n).
(** [x >>> n] on Numbers *)
Definition shru32 (x n : Z) : Z := Z.shiftr (toUint32 x) n.

Definition HASH_INIT : list Z :=
  [0x6a09e667; 0xbb67ae85; 0x3c6ef372; 0xa54ff53a;
   0x510e527f; 0x9b05688c; 0x1f83d9ab; 0x5be0cd19].

(** [h = ((h << 5) - h) + byte; h |= 0] *)
Definition hash_mix (byte h : Z) : Z := toInt32 ((shl32 h 5 - h) + byte).

Definition hash_word_bytes (h : Z) : list Z :=
  map (fun j => Z.land (shru32 h ((3 - j) * 8)) 255) [0; 1; 2; 3].

Definition simpleHashBytes (data : list Z) : list Z :=
  let h := fold_left (fun h byte => map (hash_mix byte) h) data HASH_INIT in
  concat (map hash_word_bytes h).

(** ** RSA with OAEP *)

Module RSA.

Definition e_fixed : Z := 65537.
Definition HASH_LENGTH : Z := 32.

(** [hexToBytes(LABEL_HASH)] *)
Definition LABEL_HASH : list Z :=
  [0xdd; 0x70; 0xc5; 0x95; 0xb5; 0xd5; 0xed; 0x70;
   0xd7; 0x89; 0x2d; 0x71; 0x3e; 0x54; 0x72; 0xbf;
   0x86; 0x63; 0x12; 0xda; 0xca; 0xd9; 0x61; 0x2c;
   0x5a; 0xea; 0xbd; 0xcc; 0xfc; 0x40; 0xbe; 0xf8].

(** The contents of the two PEM containers. *)
Record PublicKey : Type := { pk_n : Z; pk_e : Z }.
Record PrivateKey : Type := { sk_n : Z; sk_d : Z }.

(** [ciphertext] is kept as the bytes that [bytesToBase64] encodes. *)
Record EncryptionResult : Type := { ciphertext : list Z }.

(** [(counter >>> 24) & 0xff], ..., [counter & 0xff] *)
Definition counter_bytes (counter : Z) : list Z :=
  [Z.land (shru32 counter 24) 255; Z.land (shru32 counter 16) 255;
   Z.land (shru32 counter 8) 255; Z.land counter 255].

Fixpoint mgf1_loop (fuel : nat) (seed : list Z) (counter : Z) (pos maskLen : nat)
         (mask : list Z) : res (list Z) :=
  match fuel with
  | O => Timeout
  | S fuel' =>
      if (pos <? maskLen)%nat then
        let T := seed ++ counter_bytes counter in
        let hash := simpleHashBytes T in
        let len := Nat.min (length hash) (maskLen - pos) in
        mask' <- u8_set mask (u8_slice hash 0 len) pos ;;
        mgf1_loop fuel' seed (counter + 1) (pos + len) maskLen mask'
      else Ok mask
  end.

Definition mgf1 (seed : list Z) (maskLen : Z) : res (list Z) :=
  mask <- u8_new maskLen ;;
  mgf1_loop (S (Z.to_nat maskLen)) seed 0 0 (Z.to_nat maskLen) mask.

Definition oaep_encode (r : rng) (pos : nat) (message : list Z) (k : Z)
  : res (list Z * nat) :=
  let mLen := Z.of_nat (length message) in
  let hLen := HASH_LENGTH in
  if mLen >? k - 2 * hLen - 2 then Err OaepMessageTooLong
  else
    let lHash := LABEL_HASH in
    em <- u8_new k ;;
    db <- u8_new (k - hLen - 1) ;;
    db <- u8_set db lHash 0 ;;
    let db := u8_store db (Z.to_nat (k - mLen - hLen - 2)) 0x01 in
    db <- u8_set db message (Z.to_nat (k - mLen - hLen - 1)) ;;
    let '(seed, pos') := getRandomBytes r pos (Z.to_nat hLen) in
    dbMask <- mgf1 seed (k - hLen - 1) ;;
    let maskedDB := xor_bytes db dbMask (Z.to_nat (k - hLen - 1)) in
    seedMask <- mgf1 maskedDB hLen ;;
    let maskedSeed := xor_bytes seed seedMask (Z.to_nat hLen) in
    let em := u8_store em 0 0x00 in
    em <- u8_set em maskedSeed 1 ;;
    em <- u8_set em maskedDB (Z.to_nat (hLen + 1)) ;;
    Ok (em, pos').

(** [while (i < db.length && db[i] === 0) i++] *)
Fixpoint skip_zeros (fuel : nat) (db : list Z) (i : nat) : nat :=
  match fuel with
  | O => i
  | S fuel' =>
      if (i <? length db)%nat && (nth i db 0 =? 0)
      then skip_zeros fuel' db (S i)
      else i
  end.

(** [for (i = 0; i < hLen; i++) if (db[i] !== lHash[i]) throw] *)
Definition label_matches (db lHash : list Z) (hLen : nat) : bool :=
  forallb (fun i => nth i db 0 =? nth i lHash 0) (seq 0 hLen).

Definition oaep_decode (em : list Z) (k : Z) : res (list Z) :=
  let hLen := HASH_LENGTH in
  if k <? 2 * hLen + 2 then Err DecodeTooShort
  else
    match nth_error em 0 with
    | Some 0 =>
        let maskedSeed := u8_slice em 1 (Z.to_nat (hLen + 1)) in
        let maskedDB := u8_slice_from em (Z.to_nat (hLen + 1)) in
        seedMask <- mgf1 maskedDB hLen ;;
        let seed := xor_bytes maskedSeed seedMask (Z.to_nat hLen) in
        dbMask <- mgf1 seed (k - hLen - 1) ;;
        let db := xor_bytes maskedDB dbMask (Z.to_nat (k - hLen - 1)) in
        let lHash := LABEL_HASH in
        if negb (label_matches db lHash (Z.to_nat hLen))
        then Err DecodeLabelMismatch
        else
          let i := skip_zeros (length db) db (Z.to_nat hLen) in
          if (i =? length db)%nat || negb (nth i db 0 =? 0x01)
          then Err DecodeNoSeparator
          else Ok (u8_slice_from db (i + 1))
    | _ => Err DecodeBadFormat
    end.

(** RSA's fixed-length [bigIntToBytes]: fills from the last index down. *)
Fixpoint bigIntToBytes (value : Z) (length : nat) : list Z :=
  match length with
  | O => []
  | S length' => bigIntToBytes (Z.shiftr value 8) length' ++ [Z.land value 255]
  end.

Definition keyLenBytes_of (n : Z) : Z := ceil_div8 (getBitLength n).

(** The body of [encrypt]'s [try] block. *)
Definition encrypt_body (r : rng) (pos : nat) (message : text) (pk : PublicKey)
  : res (EncryptionResult * nat) :=
  let messageBytes := stringToBytes message in
  let keyLenBytes := keyLenBytes_of (pk_n pk) in
  let maxMessageLen := keyLenBytes - 2 * HASH_LENGTH - 2 in
  if Z.of_nat (length messageBytes) >? maxMessageLen
  then Err (MessageTooLong maxMessageLen)
  else
    pm <- oaep_encode r pos messageBytes keyLenBytes ;;
    let '(paddedMessage, pos') := pm in
    let paddedMessageInt := bytesToBigInt paddedMessage in
    cipherInt <- modExp paddedMessageInt (pk_e pk) (pk_n pk) ;;
    let cipherBytes := bigIntToBytes cipherInt (Z.to_nat keyLenBytes) in
    Ok ({| ciphertext := cipherBytes |}, pos').

Definition encrypt (r : rng) (pos : nat) (message : text) (pk : PublicKey)
  : res (EncryptionResult * nat) :=
  catch_rethrow (encrypt_body r pos message pk) RSAEncryptFailed.

Definition decrypt_body (er : EncryptionResult) (sk : PrivateKey) : res text :=
  let ciphertextBytes := ciphertext er in
  let cipherInt := bytesToBigInt ciphertextBytes in
  let keyLenBytes := keyLenBytes_of (sk_n sk) in
  paddedMessageInt <- modExp cipherInt (sk_d sk) (sk_n sk) ;;
  let paddedMessage := bigIntToBytes paddedMessageInt (Z.to_nat keyLenBytes) in
  messageBytes <- oaep_decode paddedMessage keyLenBytes ;;
  Ok (bytesToString messageBytes).

Definition decrypt (er : EncryptionResult) (sk : PrivateKey) : res text :=
  catch_rethrow (decrypt_body er sk) RSADecryptFailed.

(** *** Prime generation *)

(** [arr[i] |= v] *)
Definition u8_or_at (arr : list Z) (i : nat) (v : Z) : list Z :=
  u8_store arr i (Z.lor (u8_get arr i) v).

(** [generateRandomBigInt(bits)]: the last byte is made odd, the first
    byte gets its top bit set. *)
Definition generateRandomBigInt (r : rng) (pos : nat) (bits : Z) : Z * nat :=
  let bytes := Z.to_nat (ceil_div8 bits) in
  let '(randomBytes, pos') := getRandomBytes r pos bytes in
  let randomBytes := u8_or_at randomBytes (bytes - 1) 1 in
  let randomBytes := u8_or_at randomBytes 0 0x80 in
  (bytesToBigInt randomBytes, pos').

(** [randomBigIntInRange(min, max)]: redraw until [value < range]. *)
Fixpoint randomBigIntInRange_loop (fuel : nat) (r : rng) (pos : nat)
         (min range bits : Z) : res (Z * nat) :=
  match fuel with
  | O => Timeout
  | S fuel' =>
      let '(value, pos') := generateRandomBigInt r pos bits in
      if value <? range then Ok (min + value, pos')
      else randomBigIntInRange_loop fuel' r pos' min range bits
  end.

Definition randomBigIntInRange (fuel : nat) (r : rng) (pos : nat) (min max : Z)
  : res (Z * nat) :=
  let range := max - min + 1 in
  let bits := getBitLength range in
  randomBigIntInRange_loop fuel r pos min range bits.

(** [for (j = 0; j < r - 1; j++) { x = modExp(x, 2n, n); if (x === n - 1n) ... }]:
    [true] when some square reached [n - 1]. *)
Fixpoint squaring_loop (count : nat) (x n : Z) : res bool :=
  match count with
  | O => Ok false
  | S count' =>
      x' <- modExp x 2 n ;;
      if x' =? n - 1 then Ok true else squaring_loop count' x' n
  end.

(** The [k] rounds of [millerRabinTest]. *)
Fixpoint millerRabin_rounds (k fuel : nat) (r : rng) (pos : nat) (n d : Z) (s : nat)
  : res (bool * nat) :=
  match k with
  | O => Ok (true, pos)
  | S k' =>
      ap <- randomBigIntInRange fuel r pos 2 (n - 2) ;;
      let '(a, pos') := ap in
      x <- modExp a d n ;;
      if (x =? 1) || (x =? n - 1) then millerRabin_rounds k' fuel r pos' n d s
      else
        continueNextWitness <- squaring_loop (s - 1) x n ;;
        if continueNextWitness then millerRabin_rounds k' fuel r pos' n d s
        else Ok (false, pos')
  end.

(** [millerRabinTest(n, k)]; [fuel] bounds the redraws of one witness. *)
Definition millerRabinTest (fuel : nat) (r : rng) (pos : nat) (n : Z) (k : nat)
  : res (bool * nat) :=
  if n <=? 1 then Ok (false, pos)
  else if (n =? 2) || (n =? 3) then Ok (true, pos)
  else if Z.rem n 2 =? 0 then Ok (false, pos)
  else
    ds <- factor_twos (factor_twos_fuel (n - 1)) (n - 1) 0 ;;
    let '(d, s) := ds in
    millerRabin_rounds k fuel r pos n d s.

(** [generateLargePrime(bits)]: [tries] bounds the candidates drawn. *)
Fixpoint generateLargePrime (tries fuel : nat) (r : rng) (pos : nat) (bits : Z)
  : res (Z * nat) :=
  match tries with
  | O => Timeout
  | S tries' =>
      let '(candidate, pos') := generateRandomBigInt r pos bits in
      t <- millerRabinTest fuel r pos' candidate 20 ;;
      let '(isPrime, pos'') := t in
      if isPrime then Ok (candidate, pos'')
      else generateLargePrime tries' fuel r pos'' bits
  end.

(** [generateKeys()]; the CRT parameters of the private PEM include
    [modInverse(q, p)], which is computed (and can throw) inside the
    [try] block. *)
Definition generateKeys (tries fuel : nat) (r : rng) (pos : nat)
  : res (PublicKey * PrivateKey * nat) :=
  catch_rethrow
    (pp <- generateLargePrime tries fuel r pos 1024 ;;
     let '(p, pos1) := pp in
     qp <- generateLargePrime tries fuel r pos1 1024 ;;
     let '(q, pos2) := qp in
     let n := p * q in
     let phi := (p - 1) * (q - 1) in
     d <- modInverse e_fixed phi ;;
     _ <- big_rem d (p - 1) ;;
     _ <- big_rem d (q - 1) ;;
     _ <- modInverse q p ;;
     Ok ({| pk_n := n; pk_e := e_fixed |}, {| sk_n := n; sk_d := d |}, pos2))
    RSAKeyGenFailed.

End RSA.

(** ** Elliptic-curve engine (secp256k1) *)

Module ECC.

Definition curve_p : Z :=
  0xFFFFFFFFFFFFFFFFFFFFFFFFFFFFFFFFFFFFFFFFFFFFFFFFFFFFFFFEFFFFFC2F.
Definition curve_a : Z := 0.
Definition curve_b : Z := 7.
Definition curve_Gx : Z :=
  0x79BE667EF9DCBBAC55A06295CE870B07029BFCDB2DCE28D959F2815B16F81798.
Definition curve_Gy : Z :=
  0x483ADA7726A3C4655DA4FBFC0E1108A8FD17B448A68554199C47D08FFB10D4B8.
Definition curve_n : Z :=
  0xFFFFFFFFFFFFFFFFFFFFFFFFFFFFFFFEBAAEDCE6AF48A03BBFD25E8CD0364141.

Record point : Type := { x : Z; y : Z }.

Definition G : point := {| x := curve_Gx; y := curve_Gy |}.

(** The point at infinity is the sentinel [(0, 0)]. *)
Definition infinity : point := {| x := 0; y := 0 |}.

Definition is_infinity (P : point) : bool := (x P =? 0) && (y P =? 0).

(** [curve_p] is a non-zero constant, so [% p] below cannot throw. *)
Definition pointAdd (p1 p2 : point) : res point :=
  if is_infinity p1 then Ok p2
  else if is_infinity p2 then Ok p1
  else
    let p := curve_p in
    let a := curve_a in
    if (x p1 =? x p2) && (y p1 =? Z.rem (p - y p2) p) then Ok infinity
    else
      lambda <-
        (if (x p1 =? x p2) && (y p1 =? y p2) then
           inv <- modInverse (Z.rem (2 * y p1) p) p ;;
           Ok (Z.rem ((3 * x p1 * x p1 + a) * inv) p)
         else
           inv <- modInverse (Z.rem (x p2 - x p1 + p) p) p ;;
           Ok (Z.rem ((y p2 - y p1 + p) * inv) p)) ;;
      let x3 := Z.rem (lambda * lambda - x p1 - x p2) p in
      let y3 := Z.rem (lambda * (x p1 - x3) - y p1) p in
      Ok {| x := Z.rem (x3 + p) p; y := Z.rem (y3 + p) p |}.

(** The characters of [scalar.toString(2)], most significant first, as
    "is this character a '1'": a leading '-' counts as not '1'. *)
Fixpoint pos_bits (p : positive) : list bool :=
  match p with
  | xH => [true]
  | xO q => pos_bits q ++ [false]
  | xI q => pos_bits q ++ [true]
  end.

Definition binary_chars (scalar : Z) : list bool :=
  match scalar with
  | 0 => [false]
  | Zpos p => pos_bits p
  | Zneg p => false :: pos_bits p
  end.

Fixpoint pointMultiply_loop (chars : list bool) (point0 result : point) : res point :=
  match chars with
  | [] => Ok result
  | c :: rest =>
      result <- pointAdd result result ;;
      result <- (if c then pointAdd result point0 else Ok result) ;;
      pointMultiply_loop rest point0 result
  end.

Definition pointMultiply (point0 : point) (scalar : Z) : res point :=
  pointMultiply_loop (binary_chars scalar) point0 infinity.

(** [z = 2n; while (modPow(z, (p - 1n) / 2n, p) === 1n) z++] *)
Fixpoint find_non_residue (fuel : nat) (z p : Z) : res Z :=
  match fuel with
  | O => Timeout
  | S fuel' =>
      l <- modPow z (Z.quot (p - 1) 2) p ;;
      if l =? 1 then find_non_residue fuel' (z + 1) p else Ok z
  end.

(** [while (t2i !== 1n) { t2i = t2i * t2i % p; i++; if (i >= m) throw }] *)
Fixpoint order_search (fuel : nat) (t2i : Z) (i m : nat) (p : Z) : res nat :=
  match fuel with
  | O => Timeout
  | S fuel' =>
      if t2i =? 1 then Ok i
      else
        let t2i' := Z.rem (t2i * t2i) p in
        let i' := S i in
        if (m <=? i')%nat then Err SqrtNotFound
        else order_search fuel' t2i' i' m p
  end.

(** [for (j = 0; j < count; j++) b = b * b % p] *)
Fixpoint square_times (count : nat) (b p : Z) : Z :=
  match count with
  | O => b
  | S count' => square_times count' (Z.rem (b * b) p) p
  end.

(** The main loop [while (t !== 1n)]; [m] drops on every pass. *)
Fixpoint tonelli_loop (fuel : nat) (r c t : Z) (m : nat) (p : Z) : res Z :=
  match fuel with
  | O => Timeout
  | S fuel' =>
      if t =? 1 then Ok r
      else
        i <- order_search (S m) t 0 m p ;;
        let b := square_times (m - i - 1) c p in
        let r' := Z.rem (r * b) p in
        let c' := Z.rem (b * b) p in
        let t' := Z.rem (t * c') p in
        tonelli_loop fuel' r' c' t' i p
  end.

(** [modSqrt(n, p)]; [fuel] bounds the search for a non-residue. *)
Definition modSqrt (fuel : nat) (n p : Z) : res Z :=
  if n =? 0 then Ok 0
  else if p =? 2 then Ok n
  else
    legendreSymbol <- modPow n (Z.quot (p - 1) 2) p ;;
    if negb (legendreSymbol =? 1) then Err (NotQuadraticResidue n p)
    else
      qs <- factor_twos (factor_twos_fuel (p - 1)) (p - 1) 0 ;;
      let '(q, s) := qs in
      if (s =? 1)%nat then modPow n (Z.quot (p + 1) 4) p
      else
        z <- find_non_residue fuel 2 p ;;
        c <- modPow z q p ;;
        r <- modPow n (Z.quot (q + 1) 2) p ;;
        t <- modPow n q p ;;
        tonelli_loop (S s) r c t s p.


(** *** ECIES-style encryption *)

(** A key in hexadecimal: ['02'/'03' + x] (compressed, the prefix tells
    whether [y] is odd) or ['04' + x + y]; digits and padding are not
    modelled. *)
Inductive HexPoint : Type :=
| Compressed (y_odd : bool) (hx : Z)
| Uncompressed (hx hy : Z)
| BadPrefix.

Definition pointToHex (P : point) : HexPoint :=
  Compressed (negb (Z.rem (y P) 2 =? 0)) (x P).

Definition hexToPoint (fuel : nat) (hex : HexPoint) : res point :=
  match hex with
  | Compressed isYOdd hx =>
      let p := curve_p in
      let ySquared := Z.rem (hx * hx * hx + curve_a * hx + curve_b) p in
      y0 <- modSqrt fuel ySquared p ;;
      let y1 :=
        if negb (Bool.eqb (Z.rem y0 2 =? 0) (negb isYOdd))
        then Z.rem (p - y0) p else y0 in
      Ok {| x := hx; y := y1 |}
  | Uncompressed hx hy => Ok {| x := hx; y := hy |}
  | BadPrefix => Err InvalidKeyFormat
  end.

(** [pointToBytes]: [0x04 || x (32 bytes) || y (32 bytes)]. *)
Definition pointToBytes (P : point) : res (list Z) :=
  xBytes <- bigIntToBytes_var (x P) (Some 32%nat) ;;
  yBytes <- bigIntToBytes_var (y P) (Some 32%nat) ;;
  let result := u8_store (repeat 0 65) 0 0x04 in
  result <- u8_set result xBytes 1 ;;
  u8_set result yBytes 33.

(** [for (i = 0; i < counter.length; i++) { counter[i]++; if (counter[i] !== 0) break }] *)
Fixpoint counter_increment (counter : list Z) : list Z :=
  match counter with
  | [] => []
  | c :: rest =>
      let c' := to_u8 (c + 1) in
      if c' =? 0 then c' :: counter_increment rest else c' :: rest
  end.

Fixpoint generateKeyStream_loop (fuel : nat) (key counter : list Z)
         (pos length : nat) (keyStream : list Z) : res (list Z) :=
  match fuel with
  | O => Timeout
  | S fuel' =>
      if (pos <? length)%nat then
        let hash := simpleHashBytes (counter ++ key) in
        let blockSize := Nat.min (List.length hash) (length - pos) in
        keyStream' <- u8_set keyStream (u8_slice hash 0 blockSize) pos ;;
        generateKeyStream_loop fuel' key (counter_increment counter)
                               (pos + blockSize) length keyStream'
      else Ok keyStream
  end.

Definition generateKeyStream (key iv : list Z) (length : nat) : res (list Z) :=
  let counter := firstn 16 iv ++ repeat 0 (16 - List.length iv) in
  generateKeyStream_loop (S length) key counter 0 length (repeat 0 length).

Definition xorEncrypt (data key iv : list Z) : res (list Z) :=
  keyStream <- generateKeyStream key iv (List.length data) ;;
  Ok (xor_bytes data keyStream (List.length data)).

Definition xorDecrypt (data key iv : list Z) : res (list Z) :=
  xorEncrypt data key iv.

(** [ciphertext] and [iv] are kept as the bytes that the Base64 and
    hexadecimal strings encode; a field that is absent is [None], and the
    empty [iv] string, which the test [!iv] rejects as well, is [Some []]. *)
Record EncryptionResult : Type := {
  ciphertext : list Z;
  ephemeralKey : option HexPoint;
  iv : option (list Z)
}.

Definition generateKeys (fuel : nat) (r : rng) (pos : nat)
  : res (HexPoint * Z * nat) :=
  catch_rethrow
    (kp <- ElGamal.generateRandomBigInt fuel r pos (curve_n - 1) ;;
     let '(privateKey, pos') := kp in
     publicKeyPoint <- pointMultiply G privateKey ;;
     Ok (pointToHex publicKeyPoint, privateKey, pos'))
    ECCKeyGenFailed.

Definition encrypt (fuel : nat) (r : rng) (pos : nat) (message : text)
           (publicKey : HexPoint) : res (EncryptionResult * nat) :=
  catch_rethrow
    (recipientPubPoint <- hexToPoint fuel publicKey ;;
     kp <- ElGamal.generateRandomBigInt fuel r pos (curve_n - 1) ;;
     let '(ephemeralPrivateKey, pos1) := kp in
     ephemeralPublicPoint <- pointMultiply G ephemeralPrivateKey ;;
     sharedSecret <- pointMultiply recipientPubPoint ephemeralPrivateKey ;;
     sharedSecretBytes <- pointToBytes sharedSecret ;;
     let keyMaterial := simpleHashBytes sharedSecretBytes in
     let '(iv0, pos2) := getRandomBytes r pos1 16 in
     let messageBytes := stringToBytes message in
     ct <- xorEncrypt messageBytes keyMaterial iv0 ;;
     Ok ({| ciphertext := ct;
            ephemeralKey := Some (pointToHex ephemeralPublicPoint);
            iv := Some iv0 |}, pos2))
    ECCEncryptFailed.

Definition decrypt (fuel : nat) (er : EncryptionResult) (privateKey : Z) : res text :=
  catch_rethrow
    (match ephemeralKey er with
     | None => Err MissingField
     | Some ek =>
         ephemeralPublicPoint <- hexToPoint fuel ek ;;
         sharedSecret <- pointMultiply ephemeralPublicPoint privateKey ;;
         sharedSecretBytes <- pointToBytes sharedSecret ;;
         let keyMaterial := simpleHashBytes sharedSecretBytes in
         match iv er with
         | None => Err MissingField
         | Some [] => Err MissingField
         | Some iv0 =>
             decryptedBytes <- xorDecrypt (ciphertext er) keyMaterial iv0 ;;
             Ok (bytesToString decryptedBytes)
         end
     end)
    ECCDecryptFailed.

(** A point of the curve: coordinates in the field and
    [y^2 = x^3 + a x + b (mod p)]. *)
Definition on_curve (P : point) : Prop :=
  0 <= x P < curve_p /\ 0 <= y P < curve_p /\
  (y P * y P) mod curve_p
  = (x P * x P * x P + curve_a * x P + curve_b) mod curve_p.

(** [negate(P) = (P.x, (p - P.y) mod p)] *)
Definition negate (P : point) : point :=
  {| x := x P; y := (curve_p - y P) mod curve_p |}.

End ECC.

(** ** The point arithmetic on machine-word integers

    [modInverseB], [pointAddB] and [pointMultiplyB] are [modInverse],
    [ECC.pointAdd] and [ECC.pointMultiply_loop] written over [bigZ], whose
    operations evaluate quickly; [None] stands for any outcome other than
    a returned value.  They serve to evaluate one long scalar
    multiplication. *)

Module ECCFast.
Import ECC.

Definition pointB : Type := (bigZ * bigZ)%type.

Definition to_point (P : pointB) : point :=
  {| x := BigZ.to_Z (fst P); y := BigZ.to_Z (snd P) |}.

Definition curve_pB : bigZ := BigZ.of_Z curve_p.
Definition curve_aB : bigZ := BigZ.of_Z curve_a.

Fixpoint modInverseB_loop (fuel : nat) (old_r r old_s s : bigZ) : option (bigZ * bigZ) :=
  match fuel with
  | O => None
  | S fuel' =>
      if BigZ.eqb r BigZ.zero then Some (old_r, old_s)
      else
        let quotient := BigZ.quot old_r r in
        modInverseB_loop fuel' r (BigZ.sub old_r (BigZ.mul quotient r))
                         s (BigZ.sub old_s (BigZ.mul quotient s))
  end.

Definition modInverseB (a m : bigZ) : option bigZ :=
  if BigZ.eqb m BigZ.one then Some BigZ.zero
  else if BigZ.eqb m BigZ.zero then None
  else
    let a2 := BigZ.rem (BigZ.add (BigZ.rem a m) m) m in
    match modInverseB_loop (modInverse_fuel (BigZ.to_Z m)) a2 m BigZ.one BigZ.zero with
    | None => None
    | Some (old_r, old_s) =>
        if negb (BigZ.eqb old_r BigZ.one) then None
        else Some (BigZ.rem (BigZ.add (BigZ.rem old_s m) m) m)
    end.

Definition is_infinityB (P : pointB) : bool :=
  BigZ.eqb (fst P) BigZ.zero && BigZ.eqb (snd P) BigZ.zero.

Definition pointAddB (p1 p2 : pointB) : option pointB :=
  if is_infinityB p1 then Some p2
  else if is_infinityB p2 then Some p1
  else
    let p := curve_pB in
    let a := curve_aB in
    if BigZ.eqb (fst p1) (fst p2)
       && BigZ.eqb (snd p1) (BigZ.rem (BigZ.sub p (snd p2)) p)
    then Some (BigZ.zero, BigZ.zero)
    else
      match
        (if BigZ.eqb (fst p1) (fst p2) && BigZ.eqb (snd p1) (snd p2) then
           match modInverseB (BigZ.rem (BigZ.mul (BigZ.of_Z 2) (snd p1)) p) p with
           | None => None
           | Some inv =>
               Some (BigZ.rem (BigZ.mul (BigZ.add (BigZ.mul (BigZ.mul (BigZ.of_Z 3) (fst p1)) (fst p1)) a) inv) p)
           end
         else
           match modInverseB (BigZ.rem (BigZ.add (BigZ.sub (fst p2) (fst p1)) p) p) p with
           | None => None
           | Some inv =>
               Some (BigZ.rem (BigZ.mul (BigZ.add (BigZ.sub (snd p2) (snd p1)) p) inv) p)
           end)
      with
      | None => None
      | Some lambda =>
          let x3 := BigZ.rem (BigZ.sub (BigZ.sub (BigZ.mul lambda lambda) (fst p1)) (fst p2)) p in
          let y3 := BigZ.rem (BigZ.sub (BigZ.mul lambda (BigZ.sub (fst p1) x3)) (snd p1)) p in
          Some (BigZ.rem (BigZ.add x3 p) p, BigZ.rem (BigZ.add y3 p) p)
      end.

Fixpoint pointMultiplyB_loop (chars : list bool) (point0 result : pointB)
  : option pointB :=
  match chars with
  | [] => Some result
  | c :: rest =>
      match pointAddB result result with
      | None => None
      | Some doubled =>
          match (if c then pointAddB doubled point0 else Some doubled) with
          | None => None
          | Some result' => pointMultiplyB_loop rest point0 result'
          end
      end
  end.

End ECCFast.

(** ** Notions used in the statements *)

(** Dropping the leading zero bytes of an array. *)
Fixpoint strip_leading_zeros (B : list Z) : list Z :=
  match B with
  | [] => []
  | b :: B' => if b =? 0 then strip_leading_zeros B' else B
  end.

(** The only exception the helpers below [encrypt] can raise is a
    RangeError, apart from [oaep_encode]'s own length check. *)
Definition only_range_error {A : Type} (r : res A) : Prop :=
  forall e, r = Err e -> e = RangeError.


(** The ElGamal key pair with private exponent [x] over the field [p] with
    generator [g]: what [generateKeys] returns for [p = BIG_PRIME],
    [g = GENERATOR]. *)
Definition elgamal_public (p g x : Z) : ElGamal.PublicKey :=
  {| ElGamal.pk_y := g ^ x mod p; ElGamal.pk_g := g; ElGamal.pk_p := p |}.

Definition elgamal_private (p x : Z) : ElGamal.PrivateKey :=
  {| ElGamal.sk_x := x; ElGamal.sk_p := p |}.

(** ** Further notions used in the statements *)

(** Text made of ASCII characters only: its code units are its UTF-8
    bytes (no byte order mark, no multi-byte sequence that a block boundary
    could split). *)
Definition is_ascii (t : text) : Prop := Forall (fun b => 0 <= b < 128) t.

(** A valid operand of the curve arithmetic: a point of the curve or the
    sentinel for the point at infinity. *)
Definition on_curve_or_infinity (P : ECC.point) : Prop :=
  ECC.on_curve P \/ P = ECC.infinity.

(** ** Hexadecimal transport of byte arrays (RSA and ECC engines) *)

(** The character of a hexadecimal digit, in lower case as [toString(16)]
    writes it. *)
Definition hex_digit (d : Z) : Z := if d <? 10 then 48 + d else 87 + d.

(** [Array.from(bytes).map(b => b.toString(16).padStart(2, '0')).join('')]:
    two digits for each element, the elements of a [Uint8Array] being bytes. *)
Definition bytesToHex (bytes : list Z) : text :=
  flat_map (fun b => [hex_digit (b / 16); hex_digit (b mod 16)]) bytes.

(** White space and line terminators, which [parseInt] skips. *)
Definition is_white_space (c : Z) : bool :=
  (c =? 9) || (c =? 10) || (c =? 11) || (c =? 12) || (c =? 13) || (c =? 32)
  || (c =? 0xA0) || (c =? 0x1680) || ((0x2000 <=? c) && (c <=? 0x200A))
  || (c =? 0x2028) || (c =? 0x2029) || (c =? 0x202F) || (c =? 0x205F)
  || (c =? 0x3000) || (c =? 0xFEFF).

Fixpoint skip_white_space (s : text) : text :=
  match s with
  | c :: rest => if is_white_space c then skip_white_space rest else s
  | [] => []
  end.

Definition hex_value (c : Z) : option Z :=
  if (48 <=? c) && (c <=? 57) then Some (c - 48)
  else if (97 <=? c) && (c <=? 102) then Some (c - 87)
  else if (65 <=? c) && (c <=? 70) then Some (c - 55)
  else None.

(** The longest prefix of hexadecimal digits; [None] when there is none. *)
Fixpoint parse_hex_digits (s : text) (acc : Z) (seen : bool) : option Z :=
  match s with
  | c :: rest =>
      match hex_value c with
      | Some v => parse_hex_digits rest (acc * 16 + v) true
      | None => if seen then Some acc else None
      end
  | [] => if seen then Some acc else None
  end.

(** [parseInt(s, 16)]: leading white space, a sign, a [0x] prefix, then
    digits; [None] stands for NaN. *)
Definition parseInt16 (s : text) : option Z :=
  let s1 := skip_white_space s in
  let '(sign, s2) :=
    match s1 with
    | c :: rest =>
        if c =? 45 then (-1, rest) else if c =? 43 then (1, rest) else (1, s1)
    | [] => (1, s1)
    end in
  let s3 :=
    match s2 with
    | c0 :: c1 :: rest =>
        if (c0 =? 48) && ((c1 =? 120) || (c1 =? 88)) then rest else s2
    | _ => s2
    end in
  match parse_hex_digits s3 0 false with
  | Some v => Some (sign * v)
  | None => None
  end.

(** [hexToBytes(hex)]: an odd-length string gets a leading '0'; a pair of
    characters that [parseInt] cannot read is stored as 0. *)
Definition hexToBytes (hex : text) : list Z :=
  let hex := if Nat.odd (length hex) then 48 :: hex else hex in
  map (fun i =>
         to_u8 (match parseInt16 (firstn 2 (skipn (2 * i) hex)) with
                | Some v => v
                | None => 0
                end))
      (seq 0 (length hex / 2)).

(** * Properties *)

(** ** Modular exponentiation *)

Section ModPowLoop.
Variable halve : Z -> Z.
Hypothesis halve_pos : forall e, 0 < e -> halve e = e / 2.

Lemma modPow_loop_S (fuel : nat) (r b e m : Z) :
  modPow_loop halve (S fuel) r b e m =
  if e >? 0 then
    modPow_loop halve fuel
      (if Z.rem e 2 =? 1 then Z.rem (r * b) m else r)
      (Z.rem (b * b) m) (halve e) m
  else Ok r.
Proof. reflexivity. Qed.

Lemma modPow_loop_spec (fuel : nat) :
  forall r b e m,
    0 < m -> 0 <= r < m -> 0 <= b -> 0 <= e < 2 ^ Z.of_nat fuel ->
    modPow_loop halve (S fuel) r b e m = Ok ((r * b ^ e) mod m).
Proof.
  induction fuel as [|f IH]; intros r b e m Hm Hr Hb He.
  - assert (e = 0) by (change (2 ^ Z.of_nat 0) with 1 in He; lia).
    subst e. simpl. rewrite Z.mul_1_r, Z.mod_small; auto.
  - rewrite modPow_loop_S.
    destruct (e >? 0) eqn:E.
    + apply Z.gtb_lt in E.
      rewrite (halve_pos e E).
      assert (He2 : 0 <= e / 2 < 2 ^ Z.of_nat f).
      { rewrite Nat2Z.inj_succ, Z.pow_succ_r in He by lia.
        split; [apply Z.div_pos; lia | apply Z.div_lt_upper_bound; lia]. }
      assert (Hb2 : 0 <= Z.rem (b * b) m).
      { rewrite Z.rem_mod_nonneg by nia. apply Z.mod_pos_bound; lia. }
      rewrite (Z.rem_mod_nonneg e 2) by lia.
      pose proof (Z.div_mod e 2 ltac:(lia)) as Hdm.
      pose proof (Z.mod_pos_bound e 2 ltac:(lia)) as Hbit.
      assert (Hpow : b ^ e = b ^ (e mod 2) * (b * b) ^ (e / 2)).
      { rewrite Hdm at 1. rewrite Z.add_comm, Z.pow_add_r, Z.pow_mul_r by lia.
        f_equal. f_equal. lia. }
      destruct (e mod 2 =? 1) eqn:B.
      * apply Z.eqb_eq in B.
        rewrite IH; auto.
        2:{ rewrite Z.rem_mod_nonneg by nia. apply Z.mod_pos_bound; lia. }
        f_equal. rewrite Hpow, B, Z.pow_1_r.
        rewrite !Z.rem_mod_nonneg by nia.
        rewrite Z.mul_mod, Z.mod_mod, Z.mod_pow_l by lia.
        rewrite <- Z.mul_mod by lia. f_equal. ring.
      * apply Z.eqb_neq in B.
        assert (B0 : e mod 2 = 0) by lia.
        rewrite IH; auto.
        f_equal. rewrite Hpow, B0, Z.pow_0_r.
        rewrite !Z.rem_mod_nonneg by nia.
        rewrite Z.mul_mod, Z.mod_pow_l by lia.
        rewrite <- Z.mul_mod by lia. f_equal. ring.
    + rewrite Z.gtb_ltb in E. apply Z.ltb_ge in E.
      assert (e = 0) by lia. subst e.
      rewrite Z.mul_1_r, Z.mod_small; auto.
Qed.

Lemma modPow_fuel_enough (e : Z) :
  0 <= e -> e < 2 ^ Z.of_nat (Z.to_nat (Z.log2 e + 1)).
Proof.
  intros He. rewrite Z2Nat.id by (pose proof (Z.log2_nonneg e); lia).
  destruct (Z.eq_dec e 0) as [->|Hne]; [reflexivity|].
  apply Z.log2_spec. lia.
Qed.

(** For non-negative base and exponent and a modulus above one the loop
    computes the mathematical power. *)
Lemma modPow_with_spec (b e m : Z) :
  0 <= b -> 0 <= e -> 1 < m ->
  modPow_with halve b e m = Ok (b ^ e mod m).
Proof.
  intros Hb He Hm. unfold modPow_with, big_rem, modPow_fuel.
  destruct (m =? 1) eqn:E1; [apply Z.eqb_eq in E1; lia|].
  destruct (m =? 0) eqn:E0; [apply Z.eqb_eq in E0; lia|].
  cbn [bind].
  rewrite modPow_loop_spec; try lia.
  - f_equal. rewrite Z.mul_1_l, Z.rem_mod_nonneg, Z.mod_pow_l by lia. reflexivity.
  - rewrite Z.rem_mod_nonneg by lia. apply Z.mod_pos_bound; lia.
  - split; [lia | apply modPow_fuel_enough; lia].
Qed.

Lemma modPow_with_one (b e : Z) : modPow_with halve b e 1 = Ok 0.
Proof. reflexivity. Qed.

Lemma modPow_with_exp0 (b m : Z) :
  1 < m -> modPow_with halve b 0 m = Ok 1.
Proof.
  intros Hm. unfold modPow_with, big_rem.
  destruct (m =? 1) eqn:E1; [apply Z.eqb_eq in E1; lia|].
  destruct (m =? 0) eqn:E0; [apply Z.eqb_eq in E0; lia|].
  reflexivity.
Qed.

Lemma modPow_with_exp1 (b m : Z) :
  1 < m -> modPow_with halve b 1 m = Ok (Z.rem b m).
Proof.
  intros Hm. unfold modPow_with, big_rem.
  destruct (m =? 1) eqn:E1; [apply Z.eqb_eq in E1; lia|].
  destruct (m =? 0) eqn:E0; [apply Z.eqb_eq in E0; lia|].
  cbn [bind]. unfold modPow_fuel.
  change (Z.to_nat (Z.log2 1 + 1)) with 1%nat.
  rewrite !modPow_loop_S, (halve_pos 1) by lia.
  change (1 / 2) with 0. change (1 >? 0) with true.
  change (0 >? 0) with false. change (Z.rem 1 2 =? 1) with true.
  cbv iota. rewrite Z.mul_1_l, Z.rem_rem by lia. reflexivity.
Qed.
End ModPowLoop.

Lemma shiftr1_pos (e : Z) : 0 < e -> Z.shiftr e 1 = e / 2.
Proof. intros _. rewrite Z.shiftr_div_pow2 by lia. reflexivity. Qed.

Lemma quot2_pos (e : Z) : 0 < e -> Z.quot e 2 = e / 2.
Proof. intros He. apply Z.quot_div_nonneg; lia. Qed.

Lemma modPow_spec (b e m : Z) :
  0 <= b -> 0 <= e -> 1 < m -> modPow b e m = Ok (b ^ e mod m).
Proof. apply modPow_with_spec, shiftr1_pos. Qed.

Lemma modExp_spec (b e m : Z) :
  0 <= b -> 0 <= e -> 1 < m -> modExp b e m = Ok (b ^ e mod m).
Proof. apply modPow_with_spec, quot2_pos. Qed.

(** C6 (amended). modPow contract (ElGamal/ECC [modPow] and RSA [modExp]): the result
    is 0 for modulus 1; for a modulus above 1, exponent 0 gives 1 and
    exponent 1 gives [a % m], the remainder whose sign follows [a] (it is
    [a mod m] for a non-negative base);
    for non-negative inputs the call returns a value in [0, m). *)
Theorem modPow_contract (a e m : Z) :
  (modPow a e 1 = Ok 0 /\ modExp a e 1 = Ok 0) /\
  (1 < m ->
     modPow a 0 m = Ok 1 /\ modExp a 0 m = Ok 1 /\
     modPow a 1 m = Ok (Z.rem a m) /\ modExp a 1 m = Ok (Z.rem a m) /\
     (0 <= a -> modPow a 1 m = Ok (a mod m) /\ modExp a 1 m = Ok (a mod m))) /\
  (0 <= a -> 0 <= e -> 0 < m ->
     exists r, modPow a e m = Ok r /\ modExp a e m = Ok r /\ 0 <= r < m).
Proof.
  split; [split; reflexivity|]. split.
  - intros Hm.
    repeat split.
    + apply modPow_with_exp0; auto.
    + apply modPow_with_exp0; auto.
    + apply modPow_with_exp1; auto using shiftr1_pos.
    + apply modPow_with_exp1; auto using quot2_pos.
    + rewrite <- Z.rem_mod_nonneg by lia.
      apply modPow_with_exp1; auto using shiftr1_pos.
    + rewrite <- Z.rem_mod_nonneg by lia.
      apply modPow_with_exp1; auto using quot2_pos.
  - intros Ha He Hm.
    destruct (Z.eq_dec m 1) as [->|Hne].
    + exists 0. repeat split; lia.
    + exists (a ^ e mod m).
      rewrite modPow_spec, modExp_spec by lia.
      repeat split; apply Z.mod_pos_bound; lia.
Qed.

Lemma modPow_contract_witness :
  (modPow 7 5 1 = Ok 0 /\ modExp 7 5 1 = Ok 0) /\
  (modPow (-7) 0 13 = Ok 1 /\ modPow (-7) 1 13 = Ok (-7)) /\
  (modPow 20 1 13 = Ok 7 /\ modExp 20 1 13 = Ok 7) /\
  (exists r, modPow 20 5 13 = Ok r /\ modExp 20 5 13 = Ok r /\ 0 <= r < 13).
Proof.
  pose proof (modPow_contract 7 5 1) as (H1 & _ & _).
  pose proof (modPow_contract (-7) 0 13) as (_ & H2 & _).
  pose proof (modPow_contract 20 5 13) as (_ & H3 & H4).
  assert (L : 1 < 13) by reflexivity.
  specialize (H2 L). specialize (H3 L).
  destruct H2 as (H20 & _ & H21 & _).
  destruct H3 as (_ & _ & _ & _ & H3).
  split; [exact H1|]. split; [split; [exact H20 | exact H21]|].
  split; [apply H3; discriminate|].
  apply H4; [discriminate | discriminate | reflexivity].
Defined.

(** C6 as stated fails for a negative base: [modPow(-7, 1, 13)] returns
    [-7], because the sign of [%] follows the dividend, while
    [-7 mod 13 = 6]. *)
Lemma modPow_negative_base_counterexample :
  ~ (forall a m, 1 < m -> modPow a 1 m = Ok (a mod m)).
Proof.
  intros H. specialize (H (-7) 13 eq_refl). vm_compute in H. discriminate.
Qed.

(** ** Modular inverse *)

Lemma modInverse_loop_S (fuel : nat) (old_r r old_s s : Z) :
  modInverse_loop (S fuel) old_r r old_s s =
  if r =? 0 then Ok (old_r, old_s)
  else modInverse_loop fuel r (old_r - Z.quot old_r r * r)
                       s (old_s - Z.quot old_r r * s).
Proof. reflexivity. Qed.

Lemma euclid_step_rem (old_r r : Z) :
  r <> 0 -> old_r - Z.quot old_r r * r = Z.rem old_r r.
Proof. intros Hr. rewrite (Z.rem_eq old_r r Hr). ring. Qed.

(** One pass more than halves the product of the two remainders. *)
Lemma euclid_step_measure (old_r r : Z) :
  r <> 0 -> Z.abs r <= Z.abs old_r ->
  2 * (Z.abs r * Z.abs (Z.rem old_r r)) <= Z.abs old_r * Z.abs r.
Proof.
  intros Hr Hle.
  pose proof (Z.rem_bound_abs old_r r Hr) as Hlt.
  rewrite <- (Z.rem_abs old_r r Hr) in *.
  assert (Ha : 0 < Z.abs r) by lia.
  pose proof (Z.quot_rem' (Z.abs old_r) (Z.abs r)) as Hq.
  assert (Hq1 : 1 <= Z.quot (Z.abs old_r) (Z.abs r)).
  { rewrite Z.quot_div_nonneg by lia.
    apply Z.div_le_lower_bound; lia. }
  assert (0 <= Z.rem (Z.abs old_r) (Z.abs r)).
  { apply Z.rem_nonneg; lia. }
  nia.
Qed.

Lemma modInverse_loop_spec (fuel : nat) :
  forall old_r r old_s s,
    Z.abs r < Z.abs old_r ->
    Z.abs old_r * Z.abs r < 2 ^ Z.of_nat fuel ->
    exists g t,
      modInverse_loop (S fuel) old_r r old_s s = Ok (g, t) /\
      Z.abs g = Z.gcd old_r r /\
      (0 <= old_r -> 0 <= r -> 0 <= g) /\
      (forall a m, (m | old_r - old_s * a) -> (m | r - s * a) ->
                   (m | g - t * a)).
Proof.
  induction fuel as [|f IH]; intros old_r r old_s s Hlt Hm.
  - assert (r = 0) by (change (2 ^ Z.of_nat 0) with 1 in Hm; nia).
    subst r. exists old_r, old_s. rewrite modInverse_loop_S. cbn.
    rewrite Z.gcd_0_r. repeat split; auto.
  - rewrite modInverse_loop_S.
    destruct (r =? 0) eqn:E.
    + apply Z.eqb_eq in E. subst r. exists old_r, old_s.
      rewrite Z.gcd_0_r. repeat split; auto.
    + apply Z.eqb_neq in E.
      rewrite (euclid_step_rem old_r r E).
      pose proof (Z.rem_bound_abs old_r r E) as Hb.
      pose proof (euclid_step_measure old_r r E ltac:(lia)) as Hh.
      destruct (IH r (Z.rem old_r r) s (old_s - Z.quot old_r r * s)) as
        (g & t & Hrun & Hg & Hpos & Hbez); auto.
      { rewrite Nat2Z.inj_succ, Z.pow_succ_r in Hm by lia. lia. }
      exists g, t. split; [exact Hrun|].
      split; [|split].
      * rewrite Hg, Z.gcd_comm, Z.gcd_rem by auto. apply Z.gcd_comm.
      * intros H1 H2. apply Hpos; auto. apply Z.rem_nonneg; lia.
      * intros a m D1 D2. apply Hbez; auto.
        rewrite <- (euclid_step_rem old_r r E).
        replace (old_r - Z.quot old_r r * r - (old_s - Z.quot old_r r * s) * a)
          with ((old_r - old_s * a) - Z.quot old_r r * (r - s * a)) by ring.
        apply Z.divide_sub_r; auto. apply Z.divide_mul_r; auto.
Qed.

Lemma modInverse_fuel_enough (a2 m : Z) :
  m <> 0 -> Z.abs a2 < Z.abs m ->
  exists f, modInverse_fuel m = S (S f) /\
            Z.abs m * Z.abs a2 < 2 ^ Z.of_nat f.
Proof.
  intros Hm Ha. unfold modInverse_fuel.
  pose proof (Z.log2_nonneg (Z.abs m)) as Hl.
  exists (Z.to_nat (2 * (Z.log2 (Z.abs m) + 1) + 1)). split.
  - lia.
  - rewrite Z2Nat.id by lia.
    assert (Hs : Z.abs m < 2 ^ (Z.log2 (Z.abs m) + 1)).
    { apply Z.log2_spec. lia. }
    set (L := Z.log2 (Z.abs m) + 1) in *.
    replace (2 * L + 1) with (L + L + 1) by lia.
    rewrite (Z.pow_add_r 2 (L + L) 1), (Z.pow_add_r 2 L L) by lia.
    change (2 ^ 1) with 2. nia.
Qed.

(** The Euclid loop started by [modInverse] always comes back, with
    [+-gcd] and a Bezout coefficient. *)
Lemma modInverse_loop_run (a2 m : Z) :
  m <> 0 -> Z.abs a2 < Z.abs m ->
  exists g t,
    modInverse_loop (modInverse_fuel m) a2 m 1 0 = Ok (g, t) /\
    Z.abs g = Z.gcd a2 m /\
    (0 <= a2 -> 0 <= m -> 0 <= g) /\
    (m | g - t * a2).
Proof.
  intros Hm Ha.
  destruct (modInverse_fuel_enough a2 m Hm Ha) as (f & Hf & Hprod).
  rewrite Hf, modInverse_loop_S.
  destruct (m =? 0) eqn:E; [apply Z.eqb_eq in E; contradiction|].
  assert (Hq : Z.quot a2 m = 0) by (apply Z.quot_small_iff; auto).
  rewrite Hq.
  replace (a2 - 0 * m) with a2 by ring.
  replace (1 - 0 * 0) with 1 by ring.
  destruct (modInverse_loop_spec f m a2 0 1 Ha Hprod) as
    (g & t & Hrun & Hg & Hpos & Hbez).
  exists g, t. split; [exact Hrun|]. split; [|split].
  - rewrite Hg. apply Z.gcd_comm.
  - intros; apply Hpos; auto.
  - apply Hbez.
    + exists 1. ring.
    + exists 0. ring.
Qed.

(** [((a % m) + m) % m] is the mathematical residue for a positive modulus. *)
Lemma normalize_mod (a m : Z) :
  0 < m -> Z.rem (Z.rem a m + m) m = a mod m.
Proof.
  intros Hm.
  pose proof (Z.rem_bound_abs a m ltac:(lia)) as Hb.
  rewrite Z.rem_mod_nonneg by lia.
  rewrite <- (Z.mod_unique_pos (Z.rem a m + m) m
              (1 + - (Z.quot a m) + a / m) (a mod m)).
  - reflexivity.
  - apply Z.mod_pos_bound; lia.
  - pose proof (Z.quot_rem' a m). pose proof (Z.div_mod a m ltac:(lia)). nia.
Qed.

Lemma normalize_gcd (a m : Z) :
  m <> 0 -> Z.gcd (Z.rem (Z.rem a m + m) m) m = Z.gcd a m.
Proof.
  intros Hm.
  rewrite Z.gcd_rem by auto.
  rewrite <- (Z.mul_1_l m) at 3.
  rewrite Z.gcd_add_mult_diag_r, Z.gcd_comm, Z.gcd_rem by auto.
  apply Z.gcd_comm.
Qed.

Lemma modInverse_unfold (a m : Z) :
  m <> 1 -> m <> 0 ->
  modInverse a m =
  (p <- modInverse_loop (modInverse_fuel m) (Z.rem (Z.rem a m + m) m) m 1 0 ;;
   let '(old_r, old_s) := p in
   if negb (old_r =? 1)
   then Err (NoModInverse (Z.rem (Z.rem a m + m) m) m old_r)
   else Ok (Z.rem (Z.rem old_s m + m) m)).
Proof.
  intros H1 H0. unfold modInverse, big_rem.
  destruct (m =? 1) eqn:E1; [apply Z.eqb_eq in E1; contradiction|].
  destruct (m =? 0) eqn:E0; [apply Z.eqb_eq in E0; contradiction|].
  cbn [bind].
  destruct (modInverse_loop _ _ _ _ _) as [[g t]| |]; cbn [bind]; auto.
Qed.

(** The inverse exists and is the normalised one whenever the argument is
    coprime to a modulus above one. *)
Lemma modInverse_coprime (a m : Z) :
  1 < m -> Z.gcd a m = 1 ->
  exists r, modInverse a m = Ok r /\ (a * r) mod m = 1 /\ 0 <= r < m.
Proof.
  intros Hm Hg.
  rewrite modInverse_unfold by lia.
  rewrite normalize_mod by lia.
  pose proof (Z.mod_pos_bound a m ltac:(lia)) as Ha2.
  destruct (modInverse_loop_run (a mod m) m) as (g & t & Hrun & Habs & Hpos & Hbez);
    try lia.
  rewrite Hrun. cbn [bind].
  rewrite Z.gcd_mod_l, Hg in Habs.
  assert (g = 1) by (specialize (Hpos ltac:(lia) ltac:(lia)); lia).
  subst g. cbn [Z.eqb Pos.eqb negb].
  rewrite normalize_mod by lia.
  exists (t mod m). split; [reflexivity|].
  split; [|apply Z.mod_pos_bound; lia].
  rewrite Z.mul_mod_idemp_r by lia.
  destruct Hbez as [k Hk].
  rewrite <- Z.mul_mod_idemp_l by lia.
  replace (a mod m * t) with (1 + (- k) * m) by lia.
  rewrite Z.mod_add by lia. apply Z.mod_small; lia.
Qed.

(** The call throws whenever the argument is not coprime to the modulus. *)
Lemma modInverse_not_coprime (a m : Z) :
  Z.gcd a m <> 1 -> exists e, modInverse a m = Err e.
Proof.
  intros Hg.
  destruct (Z.eq_dec m 1) as [->|H1].
  { exfalso. apply Hg. apply Z.gcd_1_r. }
  destruct (Z.eq_dec m 0) as [->|H0].
  { exists RangeError. reflexivity. }
  rewrite modInverse_unfold by auto.
  set (a2 := Z.rem (Z.rem a m + m) m).
  destruct (modInverse_loop_run a2 m) as (g & t & Hrun & Habs & _ & _); auto.
  { apply Z.rem_bound_abs; auto. }
  rewrite Hrun. cbn [bind].
  unfold a2 in Habs. rewrite normalize_gcd in Habs by auto.
  destruct (g =? 1) eqn:E.
  - apply Z.eqb_eq in E. subst g. cbn in Habs. congruence.
  - cbn [negb]. eexists. reflexivity.
Qed.

(** C5 (amended). modInverse contract: for a modulus above one and an
    argument coprime to it the call returns [r] with [(a * r) mod m = 1]
    and [0 <= r < m]; whenever [gcd a m <> 1] the call throws. *)
Theorem modInverse_contract (a m : Z) :
  (1 < m -> Z.gcd a m = 1 ->
     exists r, modInverse a m = Ok r /\ (a * r) mod m = 1 /\ 0 <= r < m) /\
  (Z.gcd a m <> 1 -> exists e, modInverse a m = Err e).
Proof.
  split; [apply modInverse_coprime | apply modInverse_not_coprime].
Qed.

Lemma modInverse_contract_witness :
  (exists r, modInverse 3 7 = Ok r /\ (3 * r) mod 7 = 1 /\ 0 <= r < 7) /\
  (exists e, modInverse 4 8 = Err e).
Proof.
  split.
  - apply (modInverse_contract 3 7); reflexivity.
  - apply (modInverse_contract 4 8). discriminate.
Defined.

(** C5 as stated fails at modulus 1: every [a] is coprime to 1, the guard
    [if (m === 1n) return 0n] answers 0, and [(a * 0) mod 1] is 0, not 1. *)
Lemma modInverse_modulus_one_counterexample :
  ~ (forall a m, Z.gcd a m = 1 ->
       exists r, modInverse a m = Ok r /\ (a * r) mod m = 1 /\ 0 <= r < m).
Proof.
  intros H. destruct (H 5 1 eq_refl) as (r & Hr & Hmod & _).
  rewrite Z.mod_1_r in Hmod. discriminate.
Qed.

(** ** The UTF-8 codec *)

(** A property of bytes that holds on the 256 values holds on every byte. *)
Lemma byte_cases (P : Z -> bool) :
  forallb P (map Z.of_nat (seq 0 256)) = true ->
  forall b, is_byte b -> P b = true.
Proof.
  intros Hall b [Hb0 Hb1]. rewrite forallb_forall in Hall. apply Hall.
  apply in_map_iff. exists (Z.to_nat b). split; [lia|]. apply in_seq. lia.
Qed.






(** *** ASCII text is encoded and decoded as it is *)

Lemma scalar_values_ascii (s : text) : is_ascii s -> scalar_values s = s.
Proof.
  induction 1 as [|c rest Hc _ IH]; [reflexivity|].
  cbn [scalar_values]. unfold is_high_surrogate, is_low_surrogate.
  replace (0xD800 <=? c) with false by (symmetry; apply Z.leb_gt; lia).
  replace (0xDC00 <=? c) with false by (symmetry; apply Z.leb_gt; lia).
  cbn [andb]. rewrite IH. reflexivity.
Qed.

Lemma stringToBytes_ascii (s : text) : is_ascii s -> stringToBytes s = s.
Proof.
  intros H. unfold stringToBytes. rewrite scalar_values_ascii by exact H.
  induction H as [|c rest Hc _ IH]; [reflexivity|].
  cbn [flat_map]. unfold utf8_encode_code_point at 1.
  replace (c <? 0x80) with true by (symmetry; apply Z.ltb_lt; lia).
  rewrite IH. reflexivity.
Qed.

Lemma utf8_decode_ascii (B : list Z) : is_ascii B -> utf8_decode B = B.
Proof.
  unfold utf8_decode. induction 1 as [|b rest Hb _ IH]; [reflexivity|].
  cbn [utf8_decode_loop]. unfold utf8_classify.
  replace (b <=? 0x7F) with true by (symmetry; apply Z.leb_le; lia).
  rewrite IH. reflexivity.
Qed.

Lemma bytesToString_ascii (B : list Z) : is_ascii B -> bytesToString B = B.
Proof.
  intros H. unfold bytesToString. rewrite utf8_decode_ascii by exact H.
  assert (Hs : strip_bom B = B).
  { destruct H as [|b rest Hb _]; [reflexivity|]. unfold strip_bom.
    replace (b =? 0xFEFF) with false by (symmetry; apply Z.eqb_neq; lia).
    reflexivity. }
  rewrite Hs. clear Hs.
  induction H as [|b rest Hb _ IH]; [reflexivity|].
  cbn [flat_map]. unfold code_units at 1.
  replace (b <? 0x10000) with true by (symmetry; apply Z.ltb_lt; lia).
  rewrite IH. reflexivity.
Qed.

Lemma is_ascii_bytes (B : list Z) : is_ascii B -> is_bytes B.
Proof.
  unfold is_ascii, is_bytes, is_byte. intros H.
  eapply Forall_impl; [|exact H]. cbn. intros; lia.
Qed.

Lemma is_ascii_app (a b : list Z) : is_ascii a -> is_ascii b -> is_ascii (a ++ b).
Proof. unfold is_ascii. intros. apply Forall_app. split; assumption. Qed.

Lemma is_ascii_firstn (n : nat) (l : list Z) : is_ascii l -> is_ascii (firstn n l).
Proof.
  intros H. unfold is_ascii in *. rewrite <- (firstn_skipn n l) in H.
  apply Forall_app in H. tauto.
Qed.

Lemma is_ascii_skipn (n : nat) (l : list Z) : is_ascii l -> is_ascii (skipn n l).
Proof.
  intros H. unfold is_ascii in *. rewrite <- (firstn_skipn n l) in H.
  apply Forall_app in H. tauto.
Qed.

Lemma is_ascii_strip (B : list Z) : is_ascii B -> is_ascii (strip_leading_zeros B).
Proof.
  induction 1 as [|b rest Hb Hrest IH]; [constructor|].
  cbn [strip_leading_zeros]. destruct (b =? 0); [exact IH | constructor; assumption].
Qed.

(** *** The first character of a decoded text *)









(** ** Byte arrays and big integers *)

Lemma byte_high_bits (b n : Z) : is_byte b -> 8 <= n -> Z.testbit b n = false.
Proof.
  intros [Hb0 Hb1] Hn.
  destruct (Z.eq_dec b 0) as [->|Hne]; [apply Z.bits_0|].
  apply Z.bits_above_log2; [lia|].
  assert (Z.log2 b < 8) by (apply Z.log2_lt_pow2; lia). lia.
Qed.

Lemma lor_shiftl8 (x b : Z) :
  is_byte b -> Z.lor (Z.shiftl x 8) b = x * 256 + b.
Proof.
  intros Hb.
  pose proof (Z.add_lor_land (Z.shiftl x 8) b) as H.
  assert (Hl : Z.land (Z.shiftl x 8) b = 0).
  { apply Z.bits_inj'. intros n Hn.
    rewrite Z.land_spec, Z.bits_0.
    destruct (Z_lt_le_dec n 8).
    - rewrite Z.shiftl_spec_low by lia. reflexivity.
    - rewrite (byte_high_bits b n) by auto. apply andb_false_r. }
  rewrite Hl in H. rewrite (Z.shiftl_mul_pow2 x 8) in H at 2 by lia.
  change (2 ^ 8) with 256 in H. lia.
Qed.

Lemma bytesToBigInt_snoc (B : list Z) (b : Z) :
  is_byte b -> bytesToBigInt (B ++ [b]) = bytesToBigInt B * 256 + b.
Proof.
  intros Hb. unfold bytesToBigInt. rewrite fold_left_app. cbn [fold_left].
  apply lor_shiftl8; auto.
Qed.

Lemma bytesToBigInt_nonneg (B : list Z) : is_bytes B -> 0 <= bytesToBigInt B.
Proof.
  induction B as [|b B IH] using rev_ind; intros HB; [reflexivity|].
  apply Forall_app in HB. destruct HB as [HB Hb].
  inversion Hb; subst. rewrite bytesToBigInt_snoc by auto.
  specialize (IH HB). unfold is_byte in *. lia.
Qed.

(** The value of a byte array is below [256 ^ length]. *)
Lemma bytesToBigInt_bound (B : list Z) :
  is_bytes B -> bytesToBigInt B < 2 ^ (8 * Z.of_nat (length B)).
Proof.
  induction B as [|b B IH] using rev_ind; intros HB; [reflexivity|].
  apply Forall_app in HB. destruct HB as [HB Hb].
  inversion Hb; subst. rewrite bytesToBigInt_snoc by auto.
  specialize (IH HB). rewrite length_app. cbn [length].
  replace (8 * Z.of_nat (length B + 1)) with (8 * Z.of_nat (length B) + 8) by lia.
  rewrite Z.pow_add_r by lia. change (2 ^ 8) with 256.
  unfold is_byte in *. lia.
Qed.

Lemma strip_snoc (B : list Z) (b : Z) :
  is_bytes B ->
  strip_leading_zeros (B ++ [b]) =
  if bytesToBigInt B =? 0
  then (if b =? 0 then [] else [b])
  else strip_leading_zeros B ++ [b].
Proof.
  induction B as [|c B IH]; intros HB; [reflexivity|].
  inversion HB as [|? ? Hc HB']; subst.
  cbn [app strip_leading_zeros].
  destruct (c =? 0) eqn:E.
  - apply Z.eqb_eq in E. subst c. rewrite IH by auto. reflexivity.
  - apply Z.eqb_neq in E.
    assert (Hpos : 0 < bytesToBigInt (c :: B)).
    { clear IH. revert HB'. induction B as [|d B IHB] using rev_ind; intros HB'.
      - cbn. unfold is_byte in Hc. lia.
      - apply Forall_app in HB'. destruct HB' as [HB' Hd]. inversion Hd; subst.
        change (c :: B ++ [d]) with ((c :: B) ++ [d]).
        rewrite bytesToBigInt_snoc by auto.
        assert (is_bytes (c :: B)) by (constructor; auto).
        specialize (IHB ltac:(auto) HB'). unfold is_byte in *. lia. }
    destruct (bytesToBigInt (c :: B) =? 0) eqn:E0.
    + apply Z.eqb_eq in E0. lia.
    + reflexivity.
Qed.

Lemma unshift_loop_S (fuel : nat) (temp : Z) (bytes : list Z) :
  unshift_loop (S fuel) temp bytes =
  if temp >? 0
  then unshift_loop fuel (Z.shiftr temp 8) (Z.land temp 255 :: bytes)
  else Ok bytes.
Proof. reflexivity. Qed.

Lemma low_byte (x b : Z) :
  is_byte b -> Z.land (x * 256 + b) 255 = b /\ Z.shiftr (x * 256 + b) 8 = x.
Proof.
  intros Hb. unfold is_byte in Hb. split.
  - change 255 with (Z.ones 8). rewrite Z.land_ones by lia.
    change (2 ^ 8) with 256.
    rewrite Z.add_comm, Z.mod_add by lia. apply Z.mod_small; lia.
  - rewrite Z.shiftr_div_pow2 by lia. change (2 ^ 8) with 256.
    rewrite Z.add_comm, Z.div_add by lia. rewrite Z.div_small by lia. lia.
Qed.

Lemma unshift_loop_bytes (B : list Z) :
  is_bytes B ->
  forall fuel acc,
    bytesToBigInt B < 2 ^ (8 * Z.of_nat fuel) ->
    unshift_loop (S fuel) (bytesToBigInt B) acc =
    Ok (strip_leading_zeros B ++ acc).
Proof.
  induction B as [|b B IH] using rev_ind; intros HB fuel acc Hf.
  - reflexivity.
  - apply Forall_app in HB. destruct HB as [HB Hb]. inversion Hb; subst.
    pose proof (bytesToBigInt_nonneg B HB) as Hnn.
    rewrite strip_snoc by auto.
    rewrite bytesToBigInt_snoc in * by auto.
    rewrite unshift_loop_S.
    destruct (low_byte (bytesToBigInt B) b ltac:(auto)) as [Hl Hs].
    destruct (bytesToBigInt B * 256 + b >? 0) eqn:E.
    + apply Z.gtb_lt in E. rewrite Hl, Hs.
      destruct fuel as [|f].
      { change (2 ^ (8 * Z.of_nat 0)) with 1 in Hf. lia. }
      assert (Hf' : bytesToBigInt B < 2 ^ (8 * Z.of_nat f)).
      { replace (8 * Z.of_nat (S f)) with (8 * Z.of_nat f + 8) in Hf by lia.
        rewrite Z.pow_add_r in Hf by lia. change (2 ^ 8) with 256 in Hf.
        unfold is_byte in *. lia. }
      rewrite IH by auto.
      destruct (bytesToBigInt B =? 0) eqn:E0.
      * apply Z.eqb_eq in E0.
        destruct (b =? 0) eqn:Eb; [apply Z.eqb_eq in Eb; lia|].
        replace (strip_leading_zeros B) with (@nil Z); [reflexivity|].
        clear - HB E0. rewrite <- (app_nil_r B) in E0 |- *.
        symmetry.
        assert (G : forall l, strip_leading_zeros (B ++ l) = strip_leading_zeros l).
        { revert HB E0. rewrite app_nil_r.
          induction B as [|c B IHB] using rev_ind; intros HB E0 l; [reflexivity|].
          apply Forall_app in HB. destruct HB as [HB Hc]. inversion Hc; subst.
          rewrite bytesToBigInt_snoc in E0 by auto.
          pose proof (bytesToBigInt_nonneg B HB).
          unfold is_byte in *.
          rewrite <- app_assoc. rewrite IHB by (auto; lia).
          cbn. replace c with 0 by lia. reflexivity. }
        apply G.
      * rewrite <- app_assoc. reflexivity.
    + rewrite Z.gtb_ltb in E. apply Z.ltb_ge in E.
      unfold is_byte in *.
      assert (bytesToBigInt B = 0) by lia.
      assert (b = 0) by lia. subst b.
      rewrite H. reflexivity.
Qed.

Lemma unshift_fuel_enough (v : Z) :
  0 <= v -> v < 2 ^ (8 * Z.of_nat (Z.to_nat (Z.log2 v / 8 + 1))).
Proof.
  intros Hv. pose proof (Z.log2_nonneg v) as Hl.
  assert (0 <= Z.log2 v / 8) by (apply Z.div_pos; lia).
  rewrite Z2Nat.id by lia.
  destruct (Z.eq_dec v 0) as [->|Hne].
  { apply Z.pow_pos_nonneg; lia. }
  apply Z.log2_lt_pow2; [lia|].
  pose proof (Z.div_mod (Z.log2 v) 8 ltac:(lia)).
  pose proof (Z.mod_pos_bound (Z.log2 v) 8 ltac:(lia)). lia.
Qed.

(** [bigIntToText] after [bytesToBigInt] strips the leading zero bytes. *)
Lemma bigIntToText_bytesToBigInt (B : list Z) :
  is_bytes B ->
  bigIntToText (bytesToBigInt B) = Ok (bytesToString (strip_leading_zeros B)).
Proof.
  intros HB. unfold bigIntToText, unshift_fuel.
  rewrite unshift_loop_bytes; auto.
  - cbn [bind]. rewrite app_nil_r. reflexivity.
  - apply unshift_fuel_enough, bytesToBigInt_nonneg, HB.
Qed.




Lemma unshift_loop_total (fuel : nat) :
  forall v acc, v < 2 ^ (8 * Z.of_nat fuel) ->
    exists t, unshift_loop (S fuel) v acc = Ok t.
Proof.
  induction fuel as [|f IH]; intros v acc Hv; rewrite unshift_loop_S.
  - change (2 ^ (8 * Z.of_nat 0)) with 1 in Hv.
    destruct (v >? 0) eqn:E; [apply Z.gtb_lt in E; lia|]. eauto.
  - destruct (v >? 0) eqn:E; [|eauto].
    apply Z.gtb_lt in E. apply IH.
    rewrite Z.shiftr_div_pow2 by lia. change (2 ^ 8) with 256.
    replace (8 * Z.of_nat (S f)) with (8 * Z.of_nat f + 8) in Hv by lia.
    rewrite Z.pow_add_r in Hv by lia. change (2 ^ 8) with 256 in Hv.
    apply Z.div_lt_upper_bound; lia.
Qed.

(** [bigIntToText] always returns. *)
Lemma bigIntToText_total (v : Z) : exists t, bigIntToText v = Ok t.
Proof.
  unfold bigIntToText, unshift_fuel.
  destruct (Z_lt_le_dec v 0) as [Hv|Hv].
  - rewrite unshift_loop_S.
    destruct (v >? 0) eqn:E; [apply Z.gtb_lt in E; lia|]. cbn. eauto.
  - destruct (unshift_loop_total (Z.to_nat (Z.log2 v / 8 + 1)) v [])
      as [t Ht]; [apply unshift_fuel_enough; auto|].
    rewrite Ht. cbn. eauto.
Qed.





(** ** ElGamal sessions that do not give the message back *)

(** C1 at the failing input: with the keys of [generateKeys()] over the
    fixed 2048-bit prime, the two-character message U+0000 'A' (bytes
    00 41) is encrypted as a single block and decrypted to 'A' alone. *)
Theorem elgamal_roundtrip_drops_leading_zero :
  textToBigInt [0; 65] < ElGamal.BIG_PRIME /\
  ElGamal.roundtrip 2 1 low_rng [0; 65] = Ok [65].
Proof. split; vm_compute; reflexivity. Qed.

(** C2 at the failing input: a 309-byte message (154 times 'a', U+0000,
    154 times 'a') is at least [p], so it goes through block mode with
    154-byte blocks; the second block starts with the zero byte, and the
    decrypted concatenation has 308 bytes: the zero byte at the block edge
    is lost. *)
Theorem elgamal_block_roundtrip_drops_zero_at_block_edge :
  textToBigInt (repeat 97 154 ++ [0] ++ repeat 97 154) >= ElGamal.BIG_PRIME /\
  ElGamal.blockSize_of ElGamal.BIG_PRIME = 154%nat /\
  ElGamal.roundtrip 2 1 low_rng (repeat 97 154 ++ [0] ++ repeat 97 154)
  = Ok (repeat 97 154 ++ repeat 97 154).
Proof.
  split; [vm_compute; discriminate|].
  split; vm_compute; reflexivity.
Qed.

(** The same session with the text U+FEFF U+0000 'A': its bytes
    EF BB BF 00 41 are recovered by the arithmetic, but the decoder drops
    the byte order mark and the text U+0000 'A' comes back. *)
Lemma elgamal_roundtrip_drops_byte_order_mark :
  ElGamal.roundtrip 2 1 low_rng [0xFEFF; 0; 65] = Ok [0; 65].
Proof. vm_compute. reflexivity. Qed.

(** ** Typed arrays *)

Lemma to_u8_byte (b : Z) : is_byte (to_u8 b).
Proof.
  unfold to_u8, is_byte. change 255 with (Z.ones 8).
  rewrite Z.land_ones by lia. apply Z.mod_pos_bound. reflexivity.
Qed.

Lemma to_u8_id (b : Z) : is_byte b -> to_u8 b = b.
Proof.
  intros Hb. unfold to_u8. change 255 with (Z.ones 8).
  rewrite Z.land_ones by lia. apply Z.mod_small. exact Hb.
Qed.

Lemma to_u8_lxor (x y : Z) :
  to_u8 (Z.lxor (to_u8 (Z.lxor x y)) y) = to_u8 x.
Proof.
  unfold to_u8. apply Z.bits_inj'. intros n Hn.
  rewrite !Z.land_spec, !Z.lxor_spec, !Z.land_spec, !Z.lxor_spec.
  destruct (Z.testbit x n), (Z.testbit y n), (Z.testbit 255 n); reflexivity.
Qed.

Lemma is_bytes_repeat0 (n : nat) : is_bytes (repeat 0 n).
Proof. apply Forall_forall. intros x Hx. apply repeat_spec in Hx. subst. red. lia. Qed.

Lemma is_bytes_app (a b : list Z) : is_bytes a -> is_bytes b -> is_bytes (a ++ b).
Proof. intros. apply Forall_app. split; assumption. Qed.

Lemma is_bytes_firstn (n : nat) (l : list Z) : is_bytes l -> is_bytes (firstn n l).
Proof.
  intros H. unfold is_bytes in *. rewrite <- (firstn_skipn n l) in H.
  apply Forall_app in H. tauto.
Qed.

Lemma is_bytes_skipn (n : nat) (l : list Z) : is_bytes l -> is_bytes (skipn n l).
Proof.
  intros H. unfold is_bytes in *. rewrite <- (firstn_skipn n l) in H.
  apply Forall_app in H. tauto.
Qed.

Lemma xor_bytes_length (a b : list Z) (n : nat) : length (xor_bytes a b n) = n.
Proof. unfold xor_bytes. rewrite length_map, length_seq. reflexivity. Qed.

Lemma xor_bytes_is_bytes (a b : list Z) (n : nat) : is_bytes (xor_bytes a b n).
Proof.
  unfold xor_bytes. apply Forall_forall. intros x Hx.
  apply in_map_iff in Hx. destruct Hx as (i & <- & _). apply to_u8_byte.
Qed.

Lemma xor_bytes_nth (a b : list Z) (n i : nat) :
  (i < n)%nat ->
  u8_get (xor_bytes a b n) i = to_u8 (Z.lxor (u8_get a i) (u8_get b i)).
Proof.
  intros Hi. unfold xor_bytes, u8_get.
  rewrite (nth_indep _ 0 (to_u8 (Z.lxor (nth 0 a 0) (nth 0 b 0))))
    by (rewrite length_map, length_seq; lia).
  rewrite (map_nth (fun i => to_u8 (Z.lxor (nth i a 0) (nth i b 0)))).
  rewrite seq_nth by lia. reflexivity.
Qed.

(** Masking twice with the same mask gives the bytes back. *)
Lemma xor_bytes_involutive (a b : list Z) (n : nat) :
  is_bytes a -> length a = n ->
  xor_bytes (xor_bytes a b n) b n = a.
Proof.
  intros Ha Hn.
  apply (nth_ext _ _ 0 0).
  - rewrite xor_bytes_length. auto.
  - intros i Hi. rewrite xor_bytes_length in Hi.
    change (u8_get (xor_bytes (xor_bytes a b n) b n) i = nth i a 0).
    rewrite xor_bytes_nth, xor_bytes_nth by lia.
    rewrite to_u8_lxor. apply to_u8_id.
    eapply Forall_forall; [exact Ha|]. apply nth_In. lia.
Qed.

Lemma u8_set_middle (a b c src : list Z) :
  length b = length src ->
  u8_set (a ++ b ++ c) src (length a) = Ok (a ++ src ++ c).
Proof.
  intros Hb. unfold u8_set.
  rewrite !length_app.
  destruct (length a + length src <=? length a + (length b + length c))%nat eqn:E.
  2:{ apply Nat.leb_gt in E. lia. }
  f_equal.
  rewrite firstn_app, firstn_all, Nat.sub_diag, firstn_O, app_nil_r.
  f_equal. f_equal.
  rewrite skipn_app.
  rewrite skipn_all2 by lia. cbn [app].
  replace (length a + length src - length a)%nat with (length b) by lia.
  rewrite skipn_app, skipn_all, Nat.sub_diag. reflexivity.
Qed.

Lemma u8_store_middle (a c : list Z) (x v : Z) :
  u8_store (a ++ x :: c) (length a) v = a ++ to_u8 v :: c.
Proof. induction a as [|y a IH]; cbn; [reflexivity | rewrite IH; reflexivity]. Qed.

(** ** The stand-in hash *)

Lemma hash_state_length (data : list Z) (h : list Z) :
  length (fold_left (fun h byte => map (hash_mix byte) h) data h) = length h.
Proof.
  revert h. induction data as [|b data IH]; intros h; cbn; [reflexivity|].
  rewrite IH, length_map. reflexivity.
Qed.

Lemma concat_word_bytes_length (h : list Z) :
  length (concat (map hash_word_bytes h)) = (4 * length h)%nat.
Proof.
  induction h as [|x h IH]; [reflexivity|].
  cbn [map concat]. rewrite length_app, IH. cbn [length hash_word_bytes map]. lia.
Qed.

Lemma simpleHashBytes_length (data : list Z) : length (simpleHashBytes data) = 32%nat.
Proof.
  unfold simpleHashBytes. rewrite concat_word_bytes_length, hash_state_length.
  reflexivity.
Qed.

Lemma simpleHashBytes_is_bytes (data : list Z) : is_bytes (simpleHashBytes data).
Proof.
  unfold simpleHashBytes. apply Forall_forall. intros x Hx.
  apply in_concat in Hx. destruct Hx as (w & Hw & Hx).
  apply in_map_iff in Hw. destruct Hw as (h & <- & _).
  unfold hash_word_bytes in Hx. apply in_map_iff in Hx.
  destruct Hx as (j & <- & _). apply to_u8_byte.
Qed.

(** ** MGF1 *)

Lemma mgf1_loop_S (fuel : nat) (seed : list Z) (counter : Z) (pos maskLen : nat)
      (mask : list Z) :
  RSA.mgf1_loop (S fuel) seed counter pos maskLen mask =
  if (pos <? maskLen)%nat then
    mask' <- u8_set mask
               (u8_slice (simpleHashBytes (seed ++ RSA.counter_bytes counter)) 0
                  (Nat.min (length (simpleHashBytes (seed ++ RSA.counter_bytes counter)))
                           (maskLen - pos))) pos ;;
    RSA.mgf1_loop fuel seed (counter + 1)
      (pos + Nat.min (length (simpleHashBytes (seed ++ RSA.counter_bytes counter)))
                     (maskLen - pos)) maskLen mask'
  else Ok mask.
Proof. reflexivity. Qed.

Lemma mgf1_loop_ok (fuel : nat) :
  forall seed counter pos maskLen mask,
    (maskLen - pos < fuel)%nat -> length mask = maskLen -> is_bytes mask ->
    exists m, RSA.mgf1_loop fuel seed counter pos maskLen mask = Ok m /\
              length m = maskLen /\ is_bytes m.
Proof.
  induction fuel as [|f IH]; intros seed counter pos maskLen mask Hf Hl Hb; [lia|].
  rewrite mgf1_loop_S.
  destruct (pos <? maskLen)%nat eqn:E; [|eauto].
  apply Nat.ltb_lt in E.
  rewrite simpleHashBytes_length.
  set (hash := simpleHashBytes _).
  set (len := Nat.min 32 (maskLen - pos)).
  assert (Hlen : (1 <= len <= 32 /\ pos + len <= maskLen)%nat) by (unfold len; lia).
  assert (Hsl : length (u8_slice hash 0 len) = len).
  { unfold u8_slice. rewrite Nat.sub_0_r, skipn_O, length_firstn.
    unfold hash. rewrite simpleHashBytes_length. lia. }
  assert (Hsb : is_bytes (u8_slice hash 0 len)).
  { unfold u8_slice. apply is_bytes_firstn, is_bytes_skipn, simpleHashBytes_is_bytes. }
  unfold u8_set. rewrite Hsl, Hl.
  destruct (pos + len <=? maskLen)%nat eqn:E2; [|apply Nat.leb_gt in E2; lia].
  cbn [bind]. apply IH.
  - lia.
  - rewrite !length_app, length_firstn, length_skipn, Hsl. lia.
  - apply is_bytes_app; [apply is_bytes_firstn; auto|].
    apply is_bytes_app; [auto | apply is_bytes_skipn; auto].
Qed.

(** [mgf1] returns exactly [maskLen] bytes. *)
Lemma mgf1_ok (seed : list Z) (maskLen : Z) :
  0 <= maskLen ->
  exists m, RSA.mgf1 seed maskLen = Ok m /\
            length m = Z.to_nat maskLen /\ is_bytes m.
Proof.
  intros HL. unfold RSA.mgf1, u8_new.
  destruct (maskLen <? 0) eqn:E; [apply Z.ltb_lt in E; lia|].
  cbn [bind]. apply mgf1_loop_ok.
  - lia.
  - apply repeat_length.
  - apply is_bytes_repeat0.
Qed.

(** ** OAEP *)

Lemma getRandomBytes_spec (r : rng) (pos n : nat) :
  length (fst (getRandomBytes r pos n)) = n /\
  is_bytes (fst (getRandomBytes r pos n)) /\
  snd (getRandomBytes r pos n) = (pos + n)%nat.
Proof.
  unfold getRandomBytes. cbn [fst snd]. split; [|split; [|reflexivity]].
  - rewrite length_map, length_seq. reflexivity.
  - apply Forall_forall. intros x Hx. apply in_map_iff in Hx.
    destruct Hx as (i & <- & _). apply to_u8_byte.
Qed.

Lemma LABEL_HASH_is_bytes : is_bytes RSA.LABEL_HASH.
Proof. repeat constructor; discriminate. Qed.

(** The data block [lHash || PS || 0x01 || M] that [oaep_encode] builds,
    one assignment at a time. *)
Lemma oaep_db_step1 (m z : nat) :
  u8_set (repeat 0 (33 + z + m)) RSA.LABEL_HASH 0
  = Ok (RSA.LABEL_HASH ++ repeat 0 z ++ 0 :: repeat 0 m).
Proof.
  replace (repeat 0 (33 + z + m))
    with ([] ++ repeat 0 32 ++ (repeat 0 z ++ 0 :: repeat 0 m)).
  2:{ replace (33 + z + m)%nat with (32 + (z + S m))%nat by lia.
      rewrite !repeat_app. reflexivity. }
  pose proof (u8_set_middle [] (repeat 0 32) (repeat 0 z ++ 0 :: repeat 0 m)
                RSA.LABEL_HASH eq_refl) as H0.
  exact H0.
Qed.

Lemma oaep_db_step2 (m z : nat) :
  u8_store (RSA.LABEL_HASH ++ repeat 0 z ++ 0 :: repeat 0 m) (32 + z) 1
  = RSA.LABEL_HASH ++ repeat 0 z ++ 1 :: repeat 0 m.
Proof.
  assert (H1 : (32 + z)%nat = length (RSA.LABEL_HASH ++ repeat 0 z))
    by (rewrite length_app, repeat_length; reflexivity).
  rewrite H1, !app_assoc, u8_store_middle. reflexivity.
Qed.

Lemma oaep_db_step3 (message : list Z) (z : nat) :
  u8_set (RSA.LABEL_HASH ++ repeat 0 z ++ 1 :: repeat 0 (length message))
         message (33 + z)
  = Ok (RSA.LABEL_HASH ++ repeat 0 z ++ [1] ++ message).
Proof.
  assert (H2 : (33 + z)%nat = length ((RSA.LABEL_HASH ++ repeat 0 z) ++ [1])).
  { rewrite !length_app, repeat_length. cbn [length].
    change (length RSA.LABEL_HASH) with 32%nat. lia. }
  replace (RSA.LABEL_HASH ++ repeat 0 z ++ 1 :: repeat 0 (length message))
    with (((RSA.LABEL_HASH ++ repeat 0 z) ++ [1]) ++ repeat 0 (length message) ++ []).
  2:{ rewrite app_nil_r, <- !app_assoc. reflexivity. }
  rewrite H2, u8_set_middle by apply repeat_length.
  rewrite app_nil_r, <- !app_assoc. reflexivity.
Qed.

(** The encoded message [0x00 || maskedSeed || maskedDB]. *)
Lemma oaep_em_step1 (n : nat) :
  u8_store (repeat 0 (33 + n)) 0 0 = [0] ++ repeat 0 32 ++ repeat 0 n.
Proof.
  change (33 + n)%nat with (S (32 + n)).
  cbn [repeat u8_store]. rewrite repeat_app. reflexivity.
Qed.

Lemma oaep_em_step2 (maskedSeed : list Z) (n : nat) :
  length maskedSeed = 32%nat ->
  u8_set ([0] ++ repeat 0 32 ++ repeat 0 n) maskedSeed 1
  = Ok ([0] ++ maskedSeed ++ repeat 0 n).
Proof.
  intros Hs.
  apply (u8_set_middle [0] (repeat 0 32) (repeat 0 n) maskedSeed).
  rewrite repeat_length. auto.
Qed.

Lemma oaep_em_step3 (maskedSeed maskedDB : list Z) :
  length maskedSeed = 32%nat ->
  u8_set ([0] ++ maskedSeed ++ repeat 0 (length maskedDB)) maskedDB 33
  = Ok ([0] ++ maskedSeed ++ maskedDB).
Proof.
  intros Hs.
  pose proof (u8_set_middle ([0] ++ maskedSeed) (repeat 0 (length maskedDB)) []
                maskedDB (repeat_length _ _)) as H.
  rewrite !app_nil_r, <- !app_assoc in H.
  rewrite length_app, Hs in H. exact H.
Qed.

(** What [oaep_encode] returns, in terms of the two masks. *)
Lemma oaep_encode_eq (r : rng) (pos : nat) (message : list Z) (z : nat)
      (dbMask seedMask : list Z) :
  let k := Z.of_nat (66 + z + length message) in
  let N := (33 + z + length message)%nat in
  let seed := fst (getRandomBytes r pos 32) in
  let DB := RSA.LABEL_HASH ++ repeat 0 z ++ [1] ++ message in
  RSA.mgf1 seed (Z.of_nat N) = Ok dbMask ->
  RSA.mgf1 (xor_bytes DB dbMask N) 32 = Ok seedMask ->
  RSA.oaep_encode r pos message k
  = Ok ([0] ++ xor_bytes seed seedMask 32 ++ xor_bytes DB dbMask N, (pos + 32)%nat).
Proof.
  intros k N seed DB Hdb Hseed.
  unfold RSA.oaep_encode, RSA.HASH_LENGTH.
  destruct (Z.of_nat (length message) >? k - 2 * 32 - 2) eqn:G.
  { apply Z.gtb_lt in G. unfold k in G. lia. }
  unfold u8_new.
  destruct (k <? 0) eqn:G1; [apply Z.ltb_lt in G1; unfold k in G1; lia|].
  destruct (k - 32 - 1 <? 0) eqn:G2; [apply Z.ltb_lt in G2; unfold k in G2; lia|].
  cbn [bind].
  replace (Z.to_nat (k - 32 - 1)) with (33 + z + length message)%nat by (unfold k; lia).
  replace (Z.to_nat (k - Z.of_nat (length message) - 32 - 2)) with (32 + z)%nat
    by (unfold k; lia).
  replace (Z.to_nat (k - Z.of_nat (length message) - 32 - 1)) with (33 + z)%nat
    by (unfold k; lia).
  replace (k - 32 - 1) with (Z.of_nat N) by (unfold k, N; lia).
  replace (Z.to_nat k) with (33 + N)%nat by (unfold k, N; lia).
  change (Z.to_nat 32) with 32%nat. change (Z.to_nat (32 + 1)) with 33%nat.
  rewrite oaep_db_step1. cbn [bind].
  rewrite oaep_db_step2, oaep_db_step3. cbn [bind].
  destruct (getRandomBytes r pos 32) as [seed0 pos'] eqn:Hr.
  pose proof (getRandomBytes_spec r pos 32) as (Hsl & Hsb & Hsp).
  rewrite Hr in Hsl, Hsb, Hsp. cbn [fst snd] in *.
  subst seed. cbn [fst] in *. fold DB. fold N.
  rewrite Hdb. cbn [bind]. rewrite Hseed. cbn [bind].
  rewrite oaep_em_step1.
  rewrite oaep_em_step2 by apply xor_bytes_length. cbn [bind].
  pose proof (oaep_em_step3 (xor_bytes seed0 seedMask 32) (xor_bytes DB dbMask N)
                (xor_bytes_length _ _ _)) as H3.
  rewrite xor_bytes_length in H3. rewrite H3. cbn [bind].
  subst pos'. reflexivity.
Qed.

Lemma skip_zeros_S (fuel : nat) (db : list Z) (i : nat) :
  RSA.skip_zeros (S fuel) db i =
  if (i <? length db)%nat && (nth i db 0 =? 0)
  then RSA.skip_zeros fuel db (S i) else i.
Proof. reflexivity. Qed.

Lemma skip_zeros_finds (pre msg : list Z) (z : nat) :
  forall fuel j, (j <= z)%nat -> (z - j < fuel)%nat ->
  RSA.skip_zeros fuel (pre ++ repeat 0 z ++ [1] ++ msg) (length pre + j)
  = (length pre + z)%nat.
Proof.
  induction fuel as [|f IH]; intros j Hj Hf; [lia|].
  rewrite skip_zeros_S.
  rewrite !length_app, repeat_length. cbn [length].
  match goal with
  | |- context [(?a <? ?b)%nat] => destruct (a <? b)%nat eqn:E
  end.
  2:{ apply Nat.ltb_ge in E. lia. }
  rewrite andb_true_l.
  rewrite app_nth2 by lia.
  replace (length pre + j - length pre)%nat with j by lia.
  destruct (Nat.eq_dec j z) as [->|Hne].
  - rewrite app_nth2 by (rewrite repeat_length; lia).
    rewrite repeat_length, Nat.sub_diag. reflexivity.
  - rewrite app_nth1 by (rewrite repeat_length; lia).
    rewrite nth_repeat. rewrite Z.eqb_refl.
    replace (S (length pre + j)) with (length pre + S j)%nat by lia.
    apply IH; lia.
Qed.

Lemma label_matches_prefix (rest : list Z) :
  RSA.label_matches (RSA.LABEL_HASH ++ rest) RSA.LABEL_HASH 32 = true.
Proof.
  unfold RSA.label_matches. apply forallb_forall. intros i Hi.
  apply in_seq in Hi. rewrite app_nth1 by (cbn; lia). apply Z.eqb_refl.
Qed.

(** Decoding what [oaep_encode] produced. *)
Lemma oaep_decode_eq (message seed dbMask seedMask : list Z) (z : nat) :
  let k := Z.of_nat (66 + z + length message) in
  let N := (33 + z + length message)%nat in
  let DB := RSA.LABEL_HASH ++ repeat 0 z ++ [1] ++ message in
  is_bytes message -> is_bytes seed -> length seed = 32%nat ->
  RSA.mgf1 seed (Z.of_nat N) = Ok dbMask ->
  RSA.mgf1 (xor_bytes DB dbMask N) 32 = Ok seedMask ->
  RSA.oaep_decode ([0] ++ xor_bytes seed seedMask 32 ++ xor_bytes DB dbMask N) k
  = Ok message.
Proof.
  intros k N DB Hm Hs Hsl Hdb Hseed.
  unfold RSA.oaep_decode, RSA.HASH_LENGTH.
  destruct (k <? 2 * 32 + 2) eqn:G; [apply Z.ltb_lt in G; unfold k in G; lia|].
  cbn [nth_error app].
  change (Z.to_nat (32 + 1)) with 33%nat. change (Z.to_nat 32) with 32%nat.
  unfold u8_slice, u8_slice_from.
  change (33 - 1)%nat with 32%nat.
  assert (Hx : length (xor_bytes seed seedMask 32) = 32%nat) by apply xor_bytes_length.
  set (MS := xor_bytes seed seedMask 32) in *.
  set (MD := xor_bytes DB dbMask N) in *.
  change (skipn 1 (0 :: MS ++ MD)) with (MS ++ MD).
  change (skipn 33 (0 :: MS ++ MD)) with (skipn 32 (MS ++ MD)).
  rewrite firstn_app, Hx, Nat.sub_diag, firstn_O, app_nil_r, firstn_all2 by lia.
  rewrite skipn_app, Hx, Nat.sub_diag, skipn_all2 by lia.
  cbn [skipn app]. subst MS MD.
  rewrite Hseed. cbn [bind].
  rewrite xor_bytes_involutive by auto.
  replace (k - 32 - 1) with (Z.of_nat N) by (unfold k, N; lia).
  rewrite Hdb. cbn [bind]. rewrite Nat2Z.id.
  assert (HDBl : length DB = N).
  { unfold DB, N. rewrite !length_app, repeat_length. cbn. lia. }
  assert (HDBb : is_bytes DB).
  { unfold DB. apply is_bytes_app; [apply LABEL_HASH_is_bytes|].
    apply is_bytes_app; [apply is_bytes_repeat0|].
    apply is_bytes_app; [|exact Hm]. repeat constructor; discriminate. }
  rewrite xor_bytes_involutive by auto.
  unfold DB at 1. rewrite label_matches_prefix. cbn [negb].
  assert (Hi : RSA.skip_zeros (length DB) DB 32 = (32 + z)%nat).
  { pose proof (skip_zeros_finds RSA.LABEL_HASH message z (length DB) 0) as Hsz.
    apply Hsz; [lia|]. rewrite HDBl. unfold N. lia. }
  rewrite Hi.
  destruct (32 + z =? length DB)%nat eqn:E1.
  { apply Nat.eqb_eq in E1. lia. }
  assert (Hn : nth (32 + z) DB 0 = 1).
  { unfold DB. rewrite app_nth2 by (cbn; lia).
    change (length RSA.LABEL_HASH) with 32%nat.
    replace (32 + z - 32)%nat with z by lia.
    rewrite app_nth2 by (rewrite repeat_length; lia).
    rewrite repeat_length, Nat.sub_diag. reflexivity. }
  rewrite Hn. cbn [Z.eqb Pos.eqb negb orb].
  f_equal. unfold DB.
  rewrite skipn_app. change (length RSA.LABEL_HASH) with 32%nat.
  rewrite skipn_all2 by (cbn; lia). cbn [app].
  replace (32 + z + 1 - 32)%nat with (z + 1)%nat by lia.
  rewrite skipn_app, repeat_length, skipn_all2 by (rewrite repeat_length; lia).
  replace (z + 1 - z)%nat with 1%nat by lia. reflexivity.
Qed.

(** Encoding then decoding, with the shape of the encoded message. *)
Lemma oaep_encode_decode (r : rng) (pos : nat) (message : list Z) (k : Z) :
  is_bytes message ->
  Z.of_nat (length message) <= k - 2 * RSA.HASH_LENGTH - 2 ->
  exists rest pos',
    RSA.oaep_encode r pos message k = Ok (0 :: rest, pos') /\
    is_bytes rest /\
    Z.of_nat (length (0 :: rest)) = k /\
    RSA.oaep_decode (0 :: rest) k = Ok message.
Proof.
  unfold RSA.HASH_LENGTH. intros Hm Hlen.
  set (z := Z.to_nat (k - 66 - Z.of_nat (length message))).
  assert (Hkz : k = Z.of_nat (66 + z + length message)) by (unfold z; lia).
  set (N := (33 + z + length message)%nat).
  set (seed := fst (getRandomBytes r pos 32)).
  set (DB := RSA.LABEL_HASH ++ repeat 0 z ++ [1] ++ message).
  destruct (mgf1_ok seed (Z.of_nat N) ltac:(lia)) as (dbMask & Hdb & _ & _).
  destruct (mgf1_ok (xor_bytes DB dbMask N) 32 ltac:(lia)) as (seedMask & Hsm & _ & _).
  pose proof (getRandomBytes_spec r pos 32) as (Hsl & Hsb & _).
  exists (xor_bytes seed seedMask 32 ++ xor_bytes DB dbMask N), (pos + 32)%nat.
  rewrite Hkz. split; [|split; [|split]].
  - apply (oaep_encode_eq r pos message z dbMask seedMask); assumption.
  - apply is_bytes_app; apply xor_bytes_is_bytes.
  - cbn [length]. rewrite !length_app, !xor_bytes_length. unfold N. lia.
  - apply (oaep_decode_eq message seed dbMask seedMask z); assumption.
Qed.

(** C3. OAEP round trip: for every message of 0 up to [k - 2*hLen - 2]
    bytes, every encoded length [k >= 2*hLen + 2] and every seed the random
    source delivers, [oaep_encode] returns a [k]-byte encoding and
    [oaep_decode] gives the message back. *)
Theorem oaep_roundtrip (r : rng) (pos : nat) (message : list Z) (k : Z) :
  is_bytes message ->
  2 * RSA.HASH_LENGTH + 2 <= k ->
  Z.of_nat (length message) <= k - 2 * RSA.HASH_LENGTH - 2 ->
  exists em pos',
    RSA.oaep_encode r pos message k = Ok (em, pos') /\
    Z.of_nat (length em) = k /\
    RSA.oaep_decode em k = Ok message.
Proof.
  intros Hm _ Hlen.
  destruct (oaep_encode_decode r pos message k Hm Hlen)
    as (rest & pos' & Henc & _ & Hl & Hdec).
  exists (0 :: rest), pos'. auto.
Qed.

Lemma oaep_roundtrip_witness :
  exists em pos',
    RSA.oaep_encode (fun i => Z.of_nat (i * 37 + 11)) 0 [72; 105; 0] 70 = Ok (em, pos') /\
    Z.of_nat (length em) = 70 /\
    RSA.oaep_decode em 70 = Ok [72; 105; 0].
Proof.
  apply (oaep_roundtrip (fun i => Z.of_nat (i * 37 + 11)) 0 [72; 105; 0] 70).
  - repeat constructor; discriminate.
  - discriminate.
  - discriminate.
Defined.

(** ** The RSA length guard *)

Lemma only_range_error_bind {A B : Type} (a : res A) (k : A -> res B) :
  only_range_error a -> (forall x, only_range_error (k x)) ->
  only_range_error (bind a k).
Proof.
  intros Ha Hk e He. destruct a as [x| |]; cbn in He.
  - eapply Hk; eauto.
  - inversion He; subst. apply Ha. reflexivity.
  - discriminate.
Qed.

Lemma only_range_error_ok {A : Type} (x : A) : only_range_error (Ok x).
Proof. intros e He. discriminate. Qed.

Lemma u8_new_errors (n : Z) : only_range_error (u8_new n).
Proof. unfold u8_new. intros e He. destruct (n <? 0); congruence. Qed.

Lemma u8_set_errors (dst src : list Z) (off : nat) : only_range_error (u8_set dst src off).
Proof. unfold u8_set. intros e He. destruct (_ <=? _)%nat; congruence. Qed.

Lemma big_rem_errors (a b : Z) : only_range_error (big_rem a b).
Proof. unfold big_rem. intros e He. destruct (b =? 0); congruence. Qed.

Lemma mgf1_loop_errors (fuel : nat) :
  forall seed counter pos maskLen mask,
    only_range_error (RSA.mgf1_loop fuel seed counter pos maskLen mask).
Proof.
  induction fuel as [|f IH]; intros seed counter pos maskLen mask.
  - intros e He. discriminate.
  - rewrite mgf1_loop_S. destruct (pos <? maskLen)%nat.
    + apply only_range_error_bind; [apply u8_set_errors|]. intros x. apply IH.
    + apply only_range_error_ok.
Qed.

Lemma mgf1_errors (seed : list Z) (maskLen : Z) : only_range_error (RSA.mgf1 seed maskLen).
Proof.
  unfold RSA.mgf1. apply only_range_error_bind; [apply u8_new_errors|].
  intros x. apply mgf1_loop_errors.
Qed.

Lemma modPow_loop_errors (halve : Z -> Z) (fuel : nat) :
  forall r b e m, only_range_error (modPow_loop halve fuel r b e m).
Proof.
  induction fuel as [|f IH]; intros r b e m.
  - intros x Hx. discriminate.
  - rewrite modPow_loop_S. destruct (e >? 0); [apply IH | apply only_range_error_ok].
Qed.

Lemma modExp_errors (b e m : Z) : only_range_error (modExp b e m).
Proof.
  unfold modExp, modPow_with. destruct (m =? 1); [apply only_range_error_ok|].
  apply only_range_error_bind; [apply big_rem_errors|].
  intros x. apply modPow_loop_errors.
Qed.

Lemma oaep_encode_errors (r : rng) (pos : nat) (message : list Z) (k : Z) (e : error) :
  RSA.oaep_encode r pos message k = Err e ->
  e = OaepMessageTooLong \/ e = RangeError.
Proof.
  unfold RSA.oaep_encode.
  destruct (_ >? _); [intros H; inversion H; auto|].
  intros H. right. revert e H.
  change (only_range_error
    (em <- u8_new k;;
     db <- u8_new (k - RSA.HASH_LENGTH - 1);;
     db0 <- u8_set db RSA.LABEL_HASH 0;;
     db1 <- u8_set
              (u8_store db0
                 (Z.to_nat (k - Z.of_nat (length message) - RSA.HASH_LENGTH - 2)) 1)
              message
              (Z.to_nat (k - Z.of_nat (length message) - RSA.HASH_LENGTH - 1));;
     (let '(seed, pos') := getRandomBytes r pos (Z.to_nat RSA.HASH_LENGTH) in
      dbMask <- RSA.mgf1 seed (k - RSA.HASH_LENGTH - 1);;
      seedMask <- RSA.mgf1
                    (xor_bytes db1 dbMask (Z.to_nat (k - RSA.HASH_LENGTH - 1)))
                    RSA.HASH_LENGTH;;
      em0 <- u8_set (u8_store em 0 0)
               (xor_bytes seed seedMask (Z.to_nat RSA.HASH_LENGTH)) 1;;
      em1 <- u8_set em0
               (xor_bytes db1 dbMask (Z.to_nat (k - RSA.HASH_LENGTH - 1)))
               (Z.to_nat (RSA.HASH_LENGTH + 1));;
      Ok (em1, pos')))).
  repeat first
    [ apply only_range_error_ok
    | apply only_range_error_bind; [first [apply u8_new_errors | apply u8_set_errors | apply mgf1_errors]|]; intros ?
    | match goal with |- context [getRandomBytes ?r ?p ?n] => destruct (getRandomBytes r p n) end ].
Qed.

Lemma encrypt_body_too_long (r : rng) (pos : nat) (message : text) (pk : RSA.PublicKey) :
  let maxMessageLen := RSA.keyLenBytes_of (RSA.pk_n pk) - 2 * RSA.HASH_LENGTH - 2 in
  Z.of_nat (length (stringToBytes message)) > maxMessageLen ->
  RSA.encrypt_body r pos message pk = Err (MessageTooLong maxMessageLen).
Proof.
  intros maxLen H. unfold RSA.encrypt_body. fold maxLen.
  destruct (_ >? maxLen) eqn:E; [reflexivity|].
  rewrite Z.gtb_ltb in E. apply Z.ltb_ge in E. lia.
Qed.

Lemma encrypt_body_within (r : rng) (pos : nat) (message : text) (pk : RSA.PublicKey) :
  let maxMessageLen := RSA.keyLenBytes_of (RSA.pk_n pk) - 2 * RSA.HASH_LENGTH - 2 in
  Z.of_nat (length (stringToBytes message)) <= maxMessageLen ->
  forall m, RSA.encrypt_body r pos message pk <> Err (MessageTooLong m).
Proof.
  intros maxLen H m. unfold RSA.encrypt_body. fold maxLen.
  destruct (_ >? maxLen) eqn:E; [apply Z.gtb_lt in E; lia|].
  destruct (RSA.oaep_encode _ _ _ _) as [[pm pos']| e |] eqn:Henc; cbn [bind].
  - destruct (modExp _ _ _) as [c| e |] eqn:Hexp; cbn [bind]; try discriminate.
    apply modExp_errors in Hexp. subst e. discriminate.
  - apply oaep_encode_errors in Henc. destruct Henc; subst e; discriminate.
  - discriminate.
Qed.

(** C9 (amended). The length check of RSA [encrypt] raises the
    message-too-long error exactly when the byte length of the message
    exceeds [keyLenBytes - 2*hashLen - 2]; a message within the bound is
    never rejected by it.  The [catch] block of [encrypt] then replaces the
    error by the generic encryption failure, which is what the caller sees. *)
Theorem rsa_length_guard (r : rng) (pos : nat) (message : text) (pk : RSA.PublicKey) :
  let keyLenBytes := ceil_div8 (getBitLength (RSA.pk_n pk)) in
  let maxMessageLen := keyLenBytes - 2 * 32 - 2 in
  let len := Z.of_nat (length (stringToBytes message)) in
  ((exists m, RSA.encrypt_body r pos message pk = Err (MessageTooLong m)) <->
   len > maxMessageLen) /\
  (len > maxMessageLen ->
   RSA.encrypt_body r pos message pk = Err (MessageTooLong maxMessageLen) /\
   RSA.encrypt r pos message pk = Err RSAEncryptFailed) /\
  (len <= maxMessageLen ->
   forall m, RSA.encrypt_body r pos message pk <> Err (MessageTooLong m)).
Proof.
  intros keyLenBytes maxLen len.
  assert (Hlong : len > maxLen ->
                  RSA.encrypt_body r pos message pk = Err (MessageTooLong maxLen))
    by apply encrypt_body_too_long.
  assert (Hshort : len <= maxLen ->
                   forall m, RSA.encrypt_body r pos message pk <> Err (MessageTooLong m))
    by apply encrypt_body_within.
  split; [split|split].
  - intros [m Hm]. destruct (Z_le_gt_dec len maxLen) as [Hle|Hgt]; [|exact Hgt].
    exfalso. exact (Hshort Hle m Hm).
  - intros Hgt. exists maxLen. auto.
  - intros Hgt. split; [auto|]. unfold RSA.encrypt. rewrite Hlong by auto. reflexivity.
  - exact Hshort.
Qed.

Lemma rsa_length_guard_witness :
  (RSA.encrypt_body (fun _ => 7) 0 (repeat 65 191)
     {| RSA.pk_n := 2 ^ 2047 + 1; RSA.pk_e := 65537 |}
   = Err (MessageTooLong 190) /\
   RSA.encrypt (fun _ => 7) 0 (repeat 65 191)
     {| RSA.pk_n := 2 ^ 2047 + 1; RSA.pk_e := 65537 |}
   = Err RSAEncryptFailed) /\
  (forall m, RSA.encrypt_body (fun _ => 7) 0 (repeat 65 190)
               {| RSA.pk_n := 2 ^ 2047 + 1; RSA.pk_e := 65537 |}
             <> Err (MessageTooLong m)).
Proof.
  split.
  - apply (rsa_length_guard (fun _ => 7) 0 (repeat 65 191)
             {| RSA.pk_n := 2 ^ 2047 + 1; RSA.pk_e := 65537 |}).
    vm_compute. reflexivity.
  - apply (rsa_length_guard (fun _ => 7) 0 (repeat 65 190)
             {| RSA.pk_n := 2 ^ 2047 + 1; RSA.pk_e := 65537 |}).
    vm_compute. discriminate.
Defined.

(** C9 as stated fails: a 191-byte message under a 2048-bit modulus exceeds
    the bound of 190 bytes, yet what [encrypt] throws is the generic
    encryption failure, not a message-too-long error. *)
Lemma rsa_encrypt_too_long_counterexample :
  Z.of_nat (length (stringToBytes (repeat 65 191)))
    > ceil_div8 (getBitLength (2 ^ 2047 + 1)) - 2 * 32 - 2 /\
  RSA.encrypt (fun _ => 7) 0 (repeat 65 191)
    {| RSA.pk_n := 2 ^ 2047 + 1; RSA.pk_e := 65537 |} = Err RSAEncryptFailed /\
  ~ (exists m, RSA.encrypt (fun _ => 7) 0 (repeat 65 191)
                 {| RSA.pk_n := 2 ^ 2047 + 1; RSA.pk_e := 65537 |}
               = Err (MessageTooLong m)).
Proof.
  split; [vm_compute; reflexivity|].
  assert (H : RSA.encrypt (fun _ => 7) 0 (repeat 65 191)
                {| RSA.pk_n := 2 ^ 2047 + 1; RSA.pk_e := 65537 |}
              = Err RSAEncryptFailed) by (vm_compute; reflexivity).
  split; [exact H|]. intros [m Hm]. rewrite H in Hm. discriminate.
Qed.

(** ** Tonelli-Shanks *)

Lemma factor_twos_S (fuel : nat) (q : Z) (s : nat) :
  factor_twos (S fuel) q s =
  if Z.rem q 2 =? 0 then factor_twos fuel (Z.quot q 2) (S s) else Ok (q, s).
Proof. reflexivity. Qed.

Lemma factor_twos_spec (fuel : nat) :
  forall q0 s0 q s,
    0 < q0 -> factor_twos fuel q0 s0 = Ok (q, s) ->
    0 < q /\ q mod 2 = 1 /\ (s0 <= s)%nat /\ q0 = q * 2 ^ Z.of_nat (s - s0).
Proof.
  induction fuel as [|f IH]; intros q0 s0 q s Hq0 Hrun; [discriminate|].
  rewrite factor_twos_S in Hrun.
  rewrite Z.rem_mod_nonneg in Hrun by lia.
  pose proof (Z.div_mod q0 2 ltac:(lia)) as Hdm.
  pose proof (Z.mod_pos_bound q0 2 ltac:(lia)) as Hb.
  destruct (q0 mod 2 =? 0) eqn:E.
  - apply Z.eqb_eq in E.
    rewrite Z.quot_div_nonneg in Hrun by lia.
    apply IH in Hrun; [|lia].
    destruct Hrun as (Hq & Hodd & Hs & Heq).
    repeat split; auto; try lia.
    replace (s - s0)%nat with (S (s - S s0)) by lia.
    rewrite Nat2Z.inj_succ, Z.pow_succ_r by lia. lia.
  - apply Z.eqb_neq in E. inversion Hrun; subst.
    repeat split; auto; try lia.
    rewrite Nat.sub_diag. cbn. lia.
Qed.

Lemma square_times_nonneg (count : nat) :
  forall b p, 0 < p -> 0 <= b -> 0 <= ECC.square_times count b p.
Proof.
  induction count as [|k IH]; intros b p Hp Hb; cbn [ECC.square_times]; [exact Hb|].
  apply IH; auto. rewrite Z.rem_mod_nonneg by nia. apply Z.mod_pos_bound; lia.
Qed.

Lemma tonelli_loop_S (fuel : nat) (r c t : Z) (m : nat) (p : Z) :
  ECC.tonelli_loop (S fuel) r c t m p =
  if t =? 1 then Ok r
  else
    i <- ECC.order_search (S m) t 0 m p ;;
    ECC.tonelli_loop fuel
      (Z.rem (r * ECC.square_times (m - i - 1) c p) p)
      (Z.rem (ECC.square_times (m - i - 1) c p * ECC.square_times (m - i - 1) c p) p)
      (Z.rem (t * Z.rem (ECC.square_times (m - i - 1) c p
                         * ECC.square_times (m - i - 1) c p) p) p)
      i p.
Proof. reflexivity. Qed.

(** The loop keeps [r^2 = t * n (mod p)], so what it returns squares to [n]. *)
Lemma tonelli_loop_sound (n p : Z) (fuel : nat) :
  0 < p -> 0 <= n < p ->
  forall r c t m r0,
    0 <= r -> 0 <= c -> 0 <= t ->
    (r * r) mod p = (t * n) mod p ->
    ECC.tonelli_loop fuel r c t m p = Ok r0 ->
    (r0 * r0) mod p = n.
Proof.
  intros Hp Hn. induction fuel as [|f IH]; intros r c t m r0 Hr Hc Ht Hinv Hrun;
    [discriminate|].
  rewrite tonelli_loop_S in Hrun.
  destruct (t =? 1) eqn:E.
  - apply Z.eqb_eq in E. subst t. inversion Hrun; subst.
    rewrite Hinv, Z.mul_1_l. apply Z.mod_small; lia.
  - destruct (ECC.order_search _ _ _ _ _) as [i| |]; try discriminate.
    cbn [bind] in Hrun.
    set (b := ECC.square_times (m - i - 1) c p) in *.
    assert (Hb : 0 <= b) by (apply square_times_nonneg; auto).
    assert (Hbb : 0 <= Z.rem (b * b) p).
    { rewrite Z.rem_mod_nonneg by nia. apply Z.mod_pos_bound; lia. }
    eapply IH; [| | | |exact Hrun]; auto.
    + rewrite Z.rem_mod_nonneg by nia. apply Z.mod_pos_bound; lia.
    + rewrite Z.rem_mod_nonneg by nia. apply Z.mod_pos_bound; lia.
    + rewrite !Z.rem_mod_nonneg by nia.
      rewrite <- Z.mul_mod by lia.
      rewrite Z.mul_mod_idemp_l by lia.
      replace (t * ((b * b) mod p) * n) with ((b * b) mod p * (t * n)) by ring.
      rewrite Z.mul_mod_idemp_l by lia.
      replace (r * b * (r * b)) with ((r * r) * (b * b)) by ring.
      replace (b * b * (t * n)) with ((t * n) * (b * b)) by ring.
      rewrite (Z.mul_mod (r * r)), (Z.mul_mod (t * n)) by lia.
      rewrite Hinv. reflexivity.
Qed.

Lemma find_non_residue_ge (fuel : nat) :
  forall z0 p z, ECC.find_non_residue fuel z0 p = Ok z -> z0 <= z.
Proof.
  induction fuel as [|f IH]; intros z0 p z Hrun; [discriminate|].
  cbn [ECC.find_non_residue] in Hrun.
  destruct (modPow z0 _ p) as [l| |]; try discriminate.
  cbn [bind] in Hrun.
  destruct (l =? 1).
  - apply IH in Hrun. lia.
  - inversion Hrun; subst. lia.
Qed.

Lemma pow_square_odd (n j p : Z) :
  0 <= j -> 0 < p ->
  (n ^ (j + 1) mod p * (n ^ (j + 1) mod p)) mod p
  = ((n ^ (2 * j + 1) mod p) * n) mod p.
Proof.
  intros Hj Hp.
  rewrite <- Z.mul_mod, Z.mul_mod_idemp_l by lia.
  f_equal. rewrite <- Z.pow_add_r by lia.
  replace (j + 1 + (j + 1)) with (Z.succ (2 * j + 1)) by lia.
  rewrite Z.pow_succ_r by lia. ring.
Qed.

(** Whenever [modSqrt] returns for a reduced argument, the result squares
    to the argument. *)
Lemma modSqrt_sound (fuel : nat) (n p r : Z) :
  0 <= n < p -> ECC.modSqrt fuel n p = Ok r -> (r * r) mod p = n.
Proof.
  intros Hn Hrun. unfold ECC.modSqrt in Hrun.
  destruct (n =? 0) eqn:E0.
  { apply Z.eqb_eq in E0. inversion Hrun; subst. apply Z.mod_0_l. lia. }
  apply Z.eqb_neq in E0.
  destruct (p =? 2) eqn:E2.
  { apply Z.eqb_eq in E2. inversion Hrun; subst.
    assert (r = 1) by lia. subst. reflexivity. }
  apply Z.eqb_neq in E2.
  assert (Hp : 2 < p) by lia.
  rewrite modPow_spec in Hrun by (try lia; apply Z.quot_pos; lia).
  cbn [bind] in Hrun.
  destruct (n ^ (Z.quot (p - 1) 2) mod p =? 1) eqn:EL; [|discriminate].
  apply Z.eqb_eq in EL. cbn [negb] in Hrun.
  destruct (factor_twos _ _ _) as [[q s]| |] eqn:Hft; try discriminate.
  cbn [bind] in Hrun.
  apply factor_twos_spec in Hft; [|lia].
  destruct Hft as (Hq & Hodd & _ & Hfac). rewrite Nat.sub_0_r in Hfac.
  pose proof (Z.div_mod q 2 ltac:(lia)) as Hq2.
  set (j := q / 2) in *.
  assert (Hj : 0 <= j) by (apply Z.div_pos; lia).
  assert (Hqj : q = 2 * j + 1) by lia.
  destruct (s =? 1)%nat eqn:ES.
  - apply Nat.eqb_eq in ES. subst s. change (2 ^ Z.of_nat 1) with 2 in Hfac.
    assert (Hp4 : p = 4 * j + 3) by lia.
    rewrite modPow_spec in Hrun by (try lia; apply Z.quot_pos; lia).
    injection Hrun as Hrun. rewrite <- Hrun. clear Hrun.
    replace (Z.quot (p + 1) 4) with (j + 1).
    2:{ rewrite Z.quot_div_nonneg by lia.
        apply (Z.div_unique _ _ _ 0); lia. }
    replace (Z.quot (p - 1) 2) with (2 * j + 1) in EL.
    2:{ rewrite Z.quot_div_nonneg by lia.
        apply (Z.div_unique _ _ _ 0); lia. }
    rewrite pow_square_odd, EL, Z.mul_1_l by lia. apply Z.mod_small; lia.
  - destruct (ECC.find_non_residue fuel 2 p) as [z| |] eqn:Hz; try discriminate.
    cbn [bind] in Hrun. apply find_non_residue_ge in Hz.
    destruct (modPow z q p) as [c| |] eqn:Hc; try discriminate.
    cbn [bind] in Hrun.
    rewrite !modPow_spec in Hrun by (try lia; apply Z.quot_pos; lia).
    cbn [bind] in Hrun.
    replace (Z.quot (q + 1) 2) with (j + 1) in Hrun.
    2:{ rewrite Z.quot_div_nonneg by lia.
        apply (Z.div_unique _ _ _ 0); lia. }
    assert (Hcnn : 0 <= c).
    { rewrite modPow_spec in Hc by lia. injection Hc as Hc. rewrite <- Hc.
      apply Z.mod_pos_bound; lia. }
    eapply (tonelli_loop_sound n p); [lia|exact Hn| | | | |exact Hrun]; auto.
    + apply Z.mod_pos_bound; lia.
    + apply Z.mod_pos_bound; lia.
    + rewrite Hqj. apply pow_square_odd; lia.
Qed.

(** The Euler-criterion check rejects every non-residue. *)
Lemma modSqrt_rejects (fuel : nat) (n p : Z) :
  0 < n < p -> n ^ ((p - 1) / 2) mod p <> 1 ->
  ECC.modSqrt fuel n p = Err (NotQuadraticResidue n p).
Proof.
  intros Hn He. unfold ECC.modSqrt.
  destruct (n =? 0) eqn:E0; [apply Z.eqb_eq in E0; lia|].
  destruct (p =? 2) eqn:E2.
  { apply Z.eqb_eq in E2. subst p. assert (n = 1) by lia. subst n.
    exfalso. apply He. reflexivity. }
  apply Z.eqb_neq in E2.
  rewrite Z.quot_div_nonneg by lia.
  rewrite modPow_spec by (try lia; apply Z.div_pos; lia).
  cbn [bind].
  destruct (_ =? 1) eqn:E1; [apply Z.eqb_eq in E1; contradiction|].
  reflexivity.
Qed.

(** C8. Tonelli-Shanks residue check: for [0 < n < p] failing Euler's
    criterion, [modSqrt] throws instead of returning; and whenever
    [modSqrt] returns [r] for a reduced argument, [r * r mod p = n]. *)
Theorem modSqrt_residue_check (fuel : nat) (n p : Z) :
  (0 < n < p -> n ^ ((p - 1) / 2) mod p <> 1 ->
   exists e, ECC.modSqrt fuel n p = Err e) /\
  (0 <= n < p -> forall r, ECC.modSqrt fuel n p = Ok r -> (r * r) mod p = n).
Proof.
  split.
  - intros Hn He. eexists. apply modSqrt_rejects; assumption.
  - intros Hn r Hr. eapply modSqrt_sound; eassumption.
Qed.

Lemma modSqrt_residue_check_witness :
  (exists e, ECC.modSqrt 10 2 13 = Err e) /\ (9 * 9) mod 13 = 3 /\ (6 * 6) mod 17 = 2.
Proof.
  split; [|split].
  - apply (modSqrt_residue_check 10 2 13); [split; reflexivity | discriminate].
  - apply (modSqrt_residue_check 10 3 13); [split; [discriminate | reflexivity] | reflexivity].
  - apply (modSqrt_residue_check 10 2 17); [split; [discriminate | reflexivity] | reflexivity].
Defined.

(** ** Elliptic-curve point arithmetic *)

Lemma is_infinity_true (P : ECC.point) :
  ECC.is_infinity P = true -> P = ECC.infinity.
Proof.
  destruct P as [px py]. unfold ECC.is_infinity. cbn.
  intros H. apply andb_prop in H. destruct H as [Hx Hy].
  apply Z.eqb_eq in Hx, Hy. subst. reflexivity.
Qed.

Lemma pointAdd_infinity_r (P : ECC.point) : ECC.pointAdd P ECC.infinity = Ok P.
Proof.
  unfold ECC.pointAdd.
  destruct (ECC.is_infinity P) eqn:E.
  - apply is_infinity_true in E. subst. reflexivity.
  - reflexivity.
Qed.

Lemma curve_p_pos : 0 < ECC.curve_p.
Proof. reflexivity. Qed.

Lemma on_curve_not_infinity (P : ECC.point) :
  ECC.on_curve P -> ECC.is_infinity P = false.
Proof.
  intros (Hx & Hy & Heq).
  destruct (ECC.is_infinity P) eqn:E; [|reflexivity].
  apply is_infinity_true in E. subst P. cbn in Heq.
  vm_compute in Heq. discriminate.
Qed.

Lemma pointAdd_negate (P : ECC.point) :
  ECC.on_curve P -> ECC.pointAdd P (ECC.negate P) = Ok ECC.infinity.
Proof.
  intros HP. pose proof (on_curve_not_infinity P HP) as Hni.
  destruct HP as (Hx & Hy & Heq).
  pose proof curve_p_pos as Hp.
  unfold ECC.pointAdd. rewrite Hni.
  assert (Hneg : ECC.is_infinity (ECC.negate P) = false).
  { destruct (ECC.is_infinity (ECC.negate P)) eqn:E; [|reflexivity].
    unfold ECC.is_infinity, ECC.negate in E. cbn [ECC.x ECC.y] in E.
    apply andb_prop in E. destruct E as [Ex Ey].
    apply Z.eqb_eq in Ex, Ey.
    assert (ECC.y P = 0).
    { destruct (Z.eq_dec (ECC.y P) 0) as [|Hne]; [assumption|].
      rewrite Z.mod_small in Ey by lia. lia. }
    unfold ECC.is_infinity in Hni. rewrite Ex, H in Hni. discriminate. }
  rewrite Hneg. cbn [ECC.negate ECC.x ECC.y].
  rewrite Z.eqb_refl. cbn [andb].
  assert (Hy' : ECC.y P = Z.rem (ECC.curve_p - (ECC.curve_p - ECC.y P) mod ECC.curve_p)
                            ECC.curve_p).
  { destruct (Z.eq_dec (ECC.y P) 0) as [H0|Hne].
    - rewrite H0. vm_compute. reflexivity.
    - rewrite (Z.mod_small (ECC.curve_p - ECC.y P)) by lia.
      replace (ECC.curve_p - (ECC.curve_p - ECC.y P)) with (ECC.y P) by ring.
      rewrite Z.rem_mod_nonneg, Z.mod_small by lia. reflexivity. }
  rewrite <- Hy', Z.eqb_refl. reflexivity.
Qed.

Lemma pointMultiply_G_one : ECC.pointMultiply ECC.G 1 = Ok ECC.G.
Proof. reflexivity. Qed.

Lemma G_on_curve : ECC.on_curve ECC.G.
Proof. unfold ECC.on_curve. repeat split; vm_compute; congruence. Qed.

(** ** Miller-Rabin *)

Lemma factor_twos_total (fuel : nat) :
  forall q s, 0 < q < 2 ^ Z.of_nat fuel ->
    exists d s', factor_twos (S fuel) q s = Ok (d, s').
Proof.
  induction fuel as [|f IH]; intros q s Hq.
  - change (2 ^ Z.of_nat 0) with 1 in Hq. lia.
  - rewrite factor_twos_S. rewrite Z.rem_mod_nonneg by lia.
    destruct (q mod 2 =? 0) eqn:E; [|eauto].
    apply Z.eqb_eq in E. rewrite Z.quot_div_nonneg by lia.
    pose proof (Z.div_mod q 2 ltac:(lia)).
    apply IH. rewrite Nat2Z.inj_succ, Z.pow_succ_r in Hq by lia. lia.
Qed.

Lemma factor_twos_fuel_total (q : Z) :
  0 < q -> exists d s, factor_twos (factor_twos_fuel q) q 0 = Ok (d, s).
Proof.
  intros Hq. unfold factor_twos_fuel. apply factor_twos_total.
  rewrite Z.abs_eq by lia. split; [lia|].
  apply modPow_fuel_enough. lia.
Qed.

Lemma u8_store_length (arr : list Z) (i : nat) (v : Z) :
  length (u8_store arr i v) = length arr.
Proof.
  revert i. induction arr as [|a arr IH]; intros [|i]; cbn; auto.
Qed.

Lemma u8_store_is_bytes (arr : list Z) (i : nat) (v : Z) :
  is_bytes arr -> is_bytes (u8_store arr i v).
Proof.
  revert i. induction arr as [|a arr IH]; intros [|i] H; cbn; auto;
    inversion H; subst; constructor; auto.
  - apply to_u8_byte.
  - apply IH. assumption.
Qed.

Lemma bytesToBigInt_cons (h : Z) (rest : list Z) :
  is_byte h -> is_bytes rest ->
  bytesToBigInt (h :: rest)
  = h * 2 ^ (8 * Z.of_nat (length rest)) + bytesToBigInt rest.
Proof.
  intros Hh. induction rest as [|b rest IH] using rev_ind; intros Hr.
  - cbn. unfold is_byte in Hh. lia.
  - apply Forall_app in Hr. destruct Hr as [Hr Hb]. inversion Hb; subst.
    change (h :: rest ++ [b]) with ((h :: rest) ++ [b]).
    rewrite !bytesToBigInt_snoc, IH by auto.
    rewrite length_app. cbn [length].
    replace (8 * Z.of_nat (length rest + 1)) with (8 * Z.of_nat (length rest) + 8) by lia.
    rewrite Z.pow_add_r by lia. change (2 ^ 8) with 256. ring.
Qed.

Lemma top_bit_forced (v : Z) : 128 <= to_u8 (Z.lor v 128).
Proof.
  pose proof (to_u8_byte (Z.lor v 128)) as [Hnn _].
  assert (Hbit : Z.testbit (to_u8 (Z.lor v 128)) 7 = true).
  { unfold to_u8. rewrite Z.land_spec, Z.lor_spec.
    change (Z.testbit 128 7) with true. change (Z.testbit 255 7) with true.
    rewrite orb_true_r. reflexivity. }
  destruct (Z_lt_le_dec (to_u8 (Z.lor v 128)) 128) as [Hlt|]; [|assumption].
  exfalso.
  destruct (Z.eq_dec (to_u8 (Z.lor v 128)) 0) as [H0|Hne].
  - rewrite H0, Z.bits_0 in Hbit. discriminate.
  - rewrite Z.bits_above_log2 in Hbit; [discriminate|lia|].
    apply Z.log2_lt_pow2; lia.
Qed.

Lemma getRandomBytes_bytes (r : rng) (pos n : nat) :
  length (fst (getRandomBytes r pos n)) = n /\
  is_bytes (fst (getRandomBytes r pos n)).
Proof.
  unfold getRandomBytes. cbn [fst]. split.
  - rewrite length_map, length_seq. reflexivity.
  - apply Forall_forall. intros x Hx. apply in_map_iff in Hx.
    destruct Hx as (i & <- & _). apply to_u8_byte.
Qed.

(** [generateRandomBigInt(bits)] always has the top bit of its first byte
    set: it is at least [2 ^ (8 * ceil(bits / 8) - 1)]. *)
Lemma generateRandomBigInt_lower (r : rng) (pos : nat) (bits : Z) :
  0 < bits ->
  2 ^ (8 * ceil_div8 bits - 1) <= fst (RSA.generateRandomBigInt r pos bits).
Proof.
  intros Hbits. unfold RSA.generateRandomBigInt.
  assert (Hc : 1 <= ceil_div8 bits).
  { unfold ceil_div8. apply Z.div_le_lower_bound; lia. }
  set (bytes := Z.to_nat (ceil_div8 bits)).
  pose proof (getRandomBytes_bytes r pos bytes) as (Hlen & Hb).
  destruct (getRandomBytes r pos bytes) as [l pos'] eqn:Hg.
  cbn [fst] in *.
  set (l1 := RSA.u8_or_at l (bytes - 1) 1).
  assert (Hl1 : length l1 = bytes)
    by (unfold l1, RSA.u8_or_at; rewrite u8_store_length; exact Hlen).
  assert (Hb1 : is_bytes l1)
    by (unfold l1, RSA.u8_or_at; apply u8_store_is_bytes; exact Hb).
  destruct l1 as [|h rest] eqn:El1.
  { cbn in Hl1. lia. }
  unfold RSA.u8_or_at. cbn [u8_get nth u8_store].
  inversion Hb1 as [|? ? Hh Hrest]; subst.
  rewrite bytesToBigInt_cons by (auto; apply to_u8_byte).
  pose proof (top_bit_forced h) as Htop.
  pose proof (bytesToBigInt_nonneg rest Hrest) as Hnn.
  cbn [length] in Hl1.
  assert (Hlr : Z.of_nat (length rest) = ceil_div8 bits - 1) by lia.
  rewrite Hlr.
  replace (8 * ceil_div8 bits - 1) with (7 + 8 * (ceil_div8 bits - 1)) by lia.
  rewrite Z.pow_add_r by lia. change (2 ^ 7) with 128.
  assert (0 < 2 ^ (8 * (ceil_div8 bits - 1))) by (apply Z.pow_pos_nonneg; lia).
  nia.
Qed.

Lemma randomBigIntInRange_loop_diverges (r : rng) (min range bits : Z) :
  (forall pos, range <= fst (RSA.generateRandomBigInt r pos bits)) ->
  forall fuel pos, RSA.randomBigIntInRange_loop fuel r pos min range bits = Timeout.
Proof.
  intros Hge. induction fuel as [|f IH]; intros pos; [reflexivity|].
  cbn [RSA.randomBigIntInRange_loop].
  specialize (Hge pos).
  destruct (RSA.generateRandomBigInt r pos bits) as [value pos'].
  cbn [fst] in Hge.
  destruct (value <? range) eqn:E; [apply Z.ltb_lt in E; lia|].
  apply IH.
Qed.

(** When the bit length of the range is not a multiple of 8, every draw
    is too large and the redraw loop never ends. *)
Lemma randomBigIntInRange_diverges (fuel : nat) (r : rng) (pos : nat) (min max : Z) :
  0 < max - min + 1 ->
  getBitLength (max - min + 1) mod 8 <> 0 ->
  RSA.randomBigIntInRange fuel r pos min max = Timeout.
Proof.
  intros Hrange Hbits. unfold RSA.randomBigIntInRange.
  set (range := max - min + 1) in *.
  apply randomBigIntInRange_loop_diverges. intros pos0.
  assert (Hbl : getBitLength range = Z.log2 range + 1).
  { unfold getBitLength. destruct range; try reflexivity; lia. }
  pose proof (Z.log2_nonneg range) as Hl.
  pose proof (generateRandomBigInt_lower r pos0 (getBitLength range) ltac:(lia)) as Hlow.
  pose proof (Z.log2_spec range Hrange) as [_ Hup].
  assert (He : getBitLength range <= 8 * ceil_div8 (getBitLength range) - 1).
  { unfold ceil_div8.
    pose proof (Z.div_mod (getBitLength range + 7) 8 ltac:(lia)).
    pose proof (Z.mod_pos_bound (getBitLength range + 7) 8 ltac:(lia)).
    pose proof (Z.div_mod (getBitLength range) 8 ltac:(lia)).
    pose proof (Z.mod_pos_bound (getBitLength range) 8 ltac:(lia)).
    lia. }
  assert (2 ^ getBitLength range <= 2 ^ (8 * ceil_div8 (getBitLength range) - 1))
    by (apply Z.pow_le_mono_r; lia).
  rewrite Hbl in *. replace (Z.succ (Z.log2 range)) with (Z.log2 range + 1) in Hup by lia.
  lia.
Qed.

(** For an odd [n > 3] whose [n - 3] has a bit length that is not a
    multiple of 8, the test never returns once a round is asked for. *)
Lemma millerRabinTest_diverges (fuel : nat) (r : rng) (pos : nat) (n : Z) (k : nat) :
  3 < n -> Z.rem n 2 <> 0 -> getBitLength (n - 3) mod 8 <> 0 ->
  RSA.millerRabinTest fuel r pos n (S k) = Timeout.
Proof.
  intros Hn Hodd Hbits. unfold RSA.millerRabinTest.
  destruct (n <=? 1) eqn:E1; [apply Z.leb_le in E1; lia|].
  destruct (n =? 2) eqn:E2; [apply Z.eqb_eq in E2; lia|].
  destruct (n =? 3) eqn:E3; [apply Z.eqb_eq in E3; lia|].
  cbn [orb].
  destruct (Z.rem n 2 =? 0) eqn:E4; [apply Z.eqb_eq in E4; contradiction|].
  destruct (factor_twos_fuel_total (n - 1) ltac:(lia)) as (d & s & Hft).
  rewrite Hft. cbn [bind RSA.millerRabin_rounds].
  rewrite randomBigIntInRange_diverges; [reflexivity| |];
    replace (n - 2 - 2 + 1) with (n - 3) by ring; [lia | assumption].
Qed.

(** The deterministic exits of [millerRabinTest] do not look at the random
    source. *)
Lemma millerRabinTest_short_circuits (fuel : nat) (r : rng) (pos : nat) (n : Z) (k : nat) :
  (n <= 1 -> RSA.millerRabinTest fuel r pos n k = Ok (false, pos)) /\
  (n = 2 \/ n = 3 -> RSA.millerRabinTest fuel r pos n k = Ok (true, pos)) /\
  (3 < n -> Z.rem n 2 = 0 -> RSA.millerRabinTest fuel r pos n k = Ok (false, pos)).
Proof.
  unfold RSA.millerRabinTest. repeat split.
  - intros H. destruct (n <=? 1) eqn:E; [reflexivity|apply Z.leb_gt in E; lia].
  - intros [-> | ->]; reflexivity.
  - intros H3 He.
    destruct (n <=? 1) eqn:E1; [apply Z.leb_le in E1; lia|].
    destruct (n =? 2) eqn:E2; [apply Z.eqb_eq in E2; lia|].
    destruct (n =? 3) eqn:E3; [apply Z.eqb_eq in E3; lia|].
    cbn [orb]. rewrite He. reflexivity.
Qed.

Lemma no_small_divisor_sound (p : Z) (count : nat) :
  forallb (fun i => negb (p mod (Z.of_nat i) =? 0)) (seq 2 count) = true ->
  forall n, 1 < n < 2 + Z.of_nat count -> ~ (n | p).
Proof.
  intros Hall n Hn Hdiv.
  rewrite forallb_forall in Hall.
  specialize (Hall (Z.to_nat n)).
  rewrite Z2Nat.id in Hall by lia.
  apply Z.mod_divide in Hdiv; [|lia].
  rewrite Hdiv in Hall. cbn in Hall.
  assert (In (Z.to_nat n) (seq 2 count)) by (apply in_seq; lia).
  specialize (Hall H). discriminate.
Qed.

Lemma prime_97 : Z.prime 97.
Proof.
  split; [lia|].
  intros n Hn. apply (no_small_divisor_sound 97 95); [vm_compute; reflexivity | lia].
Qed.

(** C7 at the failing input: 97 is prime, yet for every random source
    and however long one waits, [millerRabinTest(97, k)] with at least one
    round does not return; the draw of the witness base never ends. *)
Theorem millerRabinTest_97_never_returns :
  Z.prime 97 /\
  forall (fuel : nat) (r : rng) (pos : nat) (k : nat),
    RSA.randomBigIntInRange fuel r pos 2 (97 - 2) = Timeout /\
    RSA.millerRabinTest fuel r pos 97 (S k) = Timeout.
Proof.
  split; [exact prime_97|]. intros fuel r pos k. split.
  - apply randomBigIntInRange_diverges; [reflexivity | discriminate].
  - apply millerRabinTest_diverges; [reflexivity | discriminate | discriminate].
Qed.

(** ** Evaluating a scalar multiplication on machine words *)

Lemma modInverseB_loop_spec (fuel : nat) :
  forall old_r r old_s s g t,
    ECCFast.modInverseB_loop fuel old_r r old_s s = Some (g, t) ->
    modInverse_loop fuel (BigZ.to_Z old_r) (BigZ.to_Z r) (BigZ.to_Z old_s) (BigZ.to_Z s)
    = Ok (BigZ.to_Z g, BigZ.to_Z t).
Proof.
  induction fuel as [|f IH]; intros old_r r old_s s g t H; [discriminate|].
  cbn [ECCFast.modInverseB_loop] in H. rewrite modInverse_loop_S.
  rewrite BigZ.spec_eqb, BigZ.spec_0 in H.
  destruct (BigZ.to_Z r =? 0).
  - inversion H; subst. reflexivity.
  - apply IH in H.
    rewrite !BigZ.spec_sub, !BigZ.spec_mul, !BigZ.spec_quot in H. exact H.
Qed.

Lemma modInverseB_spec (a m r : bigZ) :
  ECCFast.modInverseB a m = Some r ->
  modInverse (BigZ.to_Z a) (BigZ.to_Z m) = Ok (BigZ.to_Z r).
Proof.
  unfold ECCFast.modInverseB, modInverse, big_rem.
  rewrite !BigZ.spec_eqb, BigZ.spec_0, BigZ.spec_1.
  destruct (BigZ.to_Z m =? 1); [intros H; inversion H; subst; reflexivity|].
  destruct (BigZ.to_Z m =? 0); [discriminate|].
  cbn [bind].
  destruct (ECCFast.modInverseB_loop _ _ _ _ _) as [[g t]|] eqn:Hloop; [|discriminate].
  apply modInverseB_loop_spec in Hloop.
  rewrite !BigZ.spec_rem, !BigZ.spec_add, !BigZ.spec_rem, BigZ.spec_0, BigZ.spec_1 in Hloop.
  rewrite Hloop. cbn [bind].
  rewrite BigZ.spec_eqb, BigZ.spec_1.
  destruct (negb (BigZ.to_Z g =? 1)); [discriminate|].
  intros H. inversion H; subst.
  rewrite !BigZ.spec_rem, !BigZ.spec_add, !BigZ.spec_rem. reflexivity.
Qed.

Lemma is_infinityB_spec (P : ECCFast.pointB) :
  ECCFast.is_infinityB P = ECC.is_infinity (ECCFast.to_point P).
Proof.
  unfold ECCFast.is_infinityB, ECC.is_infinity, ECCFast.to_point. cbn [ECC.x ECC.y].
  rewrite !BigZ.spec_eqb, BigZ.spec_0. reflexivity.
Qed.

Lemma some_eq_inv {A : Type} (a b : A) : Some a = Some b -> a = b.
Proof. intros H. injection H as H. exact H. Qed.

(** A value returned on machine words is the value [pointAdd] returns. *)
Lemma pointAddB_spec (p1 p2 R : ECCFast.pointB) :
  ECCFast.pointAddB p1 p2 = Some R ->
  ECC.pointAdd (ECCFast.to_point p1) (ECCFast.to_point p2) = Ok (ECCFast.to_point R).
Proof.
  unfold ECCFast.pointAddB, ECC.pointAdd.
  rewrite !is_infinityB_spec.
  destruct (ECC.is_infinity (ECCFast.to_point p1)); [intros H; inversion H; reflexivity|].
  destruct (ECC.is_infinity (ECCFast.to_point p2)); [intros H; inversion H; reflexivity|].
  cbv zeta.
  unfold ECCFast.to_point, ECCFast.curve_pB, ECCFast.curve_aB. cbn [ECC.x ECC.y].
  rewrite !BigZ.spec_eqb, !BigZ.spec_rem, !BigZ.spec_sub, !BigZ.spec_of_Z.
  destruct ((BigZ.to_Z (fst p1) =? BigZ.to_Z (fst p2))
            && (BigZ.to_Z (snd p1) =? Z.rem (ECC.curve_p - BigZ.to_Z (snd p2)) ECC.curve_p)).
  { intros H. inversion H; subst. cbn [fst snd]. rewrite BigZ.spec_0. reflexivity. }
  destruct ((BigZ.to_Z (fst p1) =? BigZ.to_Z (fst p2))
            && (BigZ.to_Z (snd p1) =? BigZ.to_Z (snd p2))).
  - destruct (ECCFast.modInverseB _ _) as [inv|] eqn:Hinv; [|discriminate].
    apply modInverseB_spec in Hinv.
    rewrite BigZ.spec_rem, BigZ.spec_mul, !BigZ.spec_of_Z in Hinv.
    rewrite Hinv. cbn [bind]. intros H. apply some_eq_inv in H. rewrite <- H.
    cbn [fst snd].
    repeat (rewrite ?BigZ.spec_rem, ?BigZ.spec_add, ?BigZ.spec_sub, ?BigZ.spec_mul,
              ?BigZ.spec_of_Z).
    reflexivity.
  - destruct (ECCFast.modInverseB _ _) as [inv|] eqn:Hinv; [|discriminate].
    apply modInverseB_spec in Hinv.
    rewrite BigZ.spec_rem, BigZ.spec_add, BigZ.spec_sub, !BigZ.spec_of_Z in Hinv.
    rewrite Hinv. cbn [bind]. intros H. apply some_eq_inv in H. rewrite <- H.
    cbn [fst snd].
    repeat (rewrite ?BigZ.spec_rem, ?BigZ.spec_add, ?BigZ.spec_sub, ?BigZ.spec_mul,
              ?BigZ.spec_of_Z).
    reflexivity.
Qed.

Lemma pointMultiplyB_loop_spec (chars : list bool) (P : ECCFast.pointB) :
  forall R0 R,
    ECCFast.pointMultiplyB_loop chars P R0 = Some R ->
    ECC.pointMultiply_loop chars (ECCFast.to_point P) (ECCFast.to_point R0)
    = Ok (ECCFast.to_point R).
Proof.
  induction chars as [|c rest IH]; intros R0 R H.
  - cbn in H. inversion H; subst. reflexivity.
  - cbn [ECCFast.pointMultiplyB_loop] in H. cbn [ECC.pointMultiply_loop].
    destruct (ECCFast.pointAddB R0 R0) as [d|] eqn:Hd; [|discriminate].
    apply pointAddB_spec in Hd. rewrite Hd. cbn [bind].
    destruct c.
    + destruct (ECCFast.pointAddB d P) as [R'|] eqn:Ha; [|discriminate].
      apply pointAddB_spec in Ha. rewrite Ha. cbn [bind]. apply IH. exact H.
    + cbn [bind]. apply IH. exact H.
Qed.

(** [n * G] is the point at infinity: the 256 double-and-add steps are
    evaluated on machine words. *)
Lemma pointMultiply_G_order : ECC.pointMultiply ECC.G ECC.curve_n = Ok ECC.infinity.
Proof.
  unfold ECC.pointMultiply.
  change ECC.G
    with (ECCFast.to_point (BigZ.of_Z ECC.curve_Gx, BigZ.of_Z ECC.curve_Gy)).
  change ECC.infinity with (ECCFast.to_point (BigZ.zero, BigZ.zero)).
  apply pointMultiplyB_loop_spec.
  vm_cast_no_check (eq_refl (Some (BigZ.zero, BigZ.zero))).
Qed.

(** C4. Point arithmetic on secp256k1: [P + infinity = P];
    [P + negate(P) = infinity] for every point of the curve (and for the
    sentinel itself); [n * G = infinity] for the generator order [n]; and
    [1 * G = G]. *)
Theorem point_arithmetic_identities :
  (forall P, ECC.pointAdd P ECC.infinity = Ok P) /\
  (forall P, ECC.on_curve P \/ P = ECC.infinity ->
             ECC.pointAdd P (ECC.negate P) = Ok ECC.infinity) /\
  ECC.pointMultiply ECC.G ECC.curve_n = Ok ECC.infinity /\
  ECC.pointMultiply ECC.G 1 = Ok ECC.G.
Proof.
  split; [exact pointAdd_infinity_r|]. split.
  - intros P [HP | ->]; [apply pointAdd_negate; exact HP | reflexivity].
  - split; [exact pointMultiply_G_order | exact pointMultiply_G_one].
Qed.

Lemma point_arithmetic_identities_witness :
  ECC.pointAdd ECC.G (ECC.negate ECC.G) = Ok ECC.infinity.
Proof.
  destruct point_arithmetic_identities as (_ & H & _).
  apply (H ECC.G). left.
  unfold ECC.on_curve. repeat split; vm_compute; congruence.
Defined.

(** ** Miller-Rabin never rejects a prime *)

Lemma sqrt_one_prime (n x : Z) :
  Z.prime n -> 0 <= x < n -> (x * x) mod n = 1 -> x = 1 \/ x = n - 1.
Proof.
  intros Hp Hx Hsq. pose proof (Z.prime_ge_2 _ Hp) as Hn.
  assert (Hdiv : (n | (x - 1) * (x + 1))).
  { apply Z.mod_divide; [lia|].
    replace ((x - 1) * (x + 1)) with (x * x - 1) by ring.
    rewrite Zminus_mod, Hsq, (Z.mod_small 1 n) by lia. reflexivity. }
  apply Z.divide_prime_mul in Hdiv; [|exact Hp].
  destruct Hdiv as [[k Hk] | [k Hk]].
  - left. assert (k = 0) by nia. lia.
  - right. assert (k = 1) by nia. lia.
Qed.

Lemma squaring_loop_prime (n : Z) (count : nat) :
  Z.prime n ->
  forall x, 0 <= x < n -> x <> 1 -> x <> n - 1 ->
    x ^ (2 ^ Z.of_nat (S count)) mod n = 1 ->
    RSA.squaring_loop count x n = Ok true.
Proof.
  intros Hp. pose proof (Z.prime_ge_2 _ Hp) as Hn.
  induction count as [|c IH]; intros x Hx H1 Hm1 Hpow.
  - exfalso. change (2 ^ Z.of_nat 1) with 2 in Hpow.
    rewrite Z.pow_2_r in Hpow.
    destruct (sqrt_one_prime n x Hp Hx Hpow); contradiction.
  - cbn [RSA.squaring_loop].
    rewrite modExp_spec by lia. cbn [bind].
    destruct (x ^ 2 mod n =? n - 1) eqn:E; [reflexivity|].
    apply Z.eqb_neq in E.
    apply IH.
    + apply Z.mod_pos_bound; lia.
    + intros Hone. rewrite Z.pow_2_r in Hone.
      destruct (sqrt_one_prime n x Hp Hx Hone); contradiction.
    + exact E.
    + rewrite Z.mod_pow_l, <- Z.pow_mul_r by lia.
      rewrite <- Hpow. f_equal. f_equal.
      rewrite (Nat2Z.inj_succ (S c)), Z.pow_succ_r by lia. reflexivity.
Qed.

Lemma generateRandomBigInt_nonneg (r : rng) (pos : nat) (bits : Z) :
  0 <= fst (RSA.generateRandomBigInt r pos bits).
Proof.
  unfold RSA.generateRandomBigInt.
  pose proof (getRandomBytes_bytes r pos (Z.to_nat (ceil_div8 bits))) as (_ & Hb).
  destruct (getRandomBytes r pos _) as [l pos']. cbn [fst] in *.
  apply bytesToBigInt_nonneg.
  unfold RSA.u8_or_at. apply u8_store_is_bytes, u8_store_is_bytes, Hb.
Qed.

Lemma randomBigIntInRange_range (fuel : nat) (r : rng) (min max : Z) :
  forall pos a pos',
    RSA.randomBigIntInRange fuel r pos min max = Ok (a, pos') ->
    min <= a <= max.
Proof.
  unfold RSA.randomBigIntInRange.
  induction fuel as [|f IH]; intros pos a pos' H; [discriminate|].
  cbn [RSA.randomBigIntInRange_loop] in H.
  pose proof (generateRandomBigInt_nonneg r pos (getBitLength (max - min + 1))) as Hnn.
  destruct (RSA.generateRandomBigInt r pos _) as [value pos1]. cbn [fst] in Hnn.
  destruct (value <? max - min + 1) eqn:E.
  - apply Z.ltb_lt in E. inversion H; subst. lia.
  - eapply IH; eauto.
Qed.

Lemma randomBigIntInRange_no_error (fuel : nat) (r : rng) (min max : Z) :
  forall pos e, RSA.randomBigIntInRange fuel r pos min max <> Err e.
Proof.
  unfold RSA.randomBigIntInRange.
  induction fuel as [|f IH]; intros pos e; [discriminate|].
  cbn [RSA.randomBigIntInRange_loop].
  destruct (RSA.generateRandomBigInt r pos _) as [value pos1].
  destruct (value <? _); [discriminate | apply IH].
Qed.

(** With [n - 1 = d * 2^s] for a prime [n], no round reports a composite. *)
Lemma millerRabin_rounds_prime (n d : Z) (s : nat) (fuel : nat) (r : rng) :
  Z.prime n -> 3 < n -> 0 < d -> (0 < s)%nat -> n - 1 = d * 2 ^ Z.of_nat s ->
  forall k pos,
    RSA.millerRabin_rounds k fuel r pos n d s = Timeout \/
    exists pos', RSA.millerRabin_rounds k fuel r pos n d s = Ok (true, pos').
Proof.
  intros Hp Hn Hd Hs Hfac. induction k as [|k IH]; intros pos.
  - right. eexists. reflexivity.
  - cbn [RSA.millerRabin_rounds].
    destruct (RSA.randomBigIntInRange fuel r pos 2 (n - 2)) as [[a pos1]| e |] eqn:Hdraw.
    2:{ exfalso. eapply randomBigIntInRange_no_error; eauto. }
    2:{ left. reflexivity. }
    apply randomBigIntInRange_range in Hdraw.
    cbn [bind]. rewrite modExp_spec by lia. cbn [bind].
    set (x := a ^ d mod n).
    assert (Hx : 0 <= x < n) by (apply Z.mod_pos_bound; lia).
    destruct ((x =? 1) || (x =? n - 1)) eqn:E; [apply IH|].
    apply orb_false_iff in E. destruct E as [E1 E2].
    apply Z.eqb_neq in E1, E2.
    rewrite (squaring_loop_prime n (s - 1) Hp x Hx E1 E2).
    + cbn [bind]. apply IH.
    + replace (S (s - 1)) with s by lia.
      unfold x. rewrite Z.mod_pow_l, <- Z.pow_mul_r, <- Hfac by lia.
      apply Z.fermat_nz; [exact Hp|]. rewrite Z.mod_small by lia. lia.
Qed.

(** Partial soundness: whenever [millerRabinTest] returns for a prime, it
    returns [true]; it never throws. *)
Lemma millerRabinTest_prime (fuel : nat) (r : rng) (pos : nat) (n : Z) (k : nat) :
  Z.prime n ->
  RSA.millerRabinTest fuel r pos n k = Timeout \/
  exists pos', RSA.millerRabinTest fuel r pos n k = Ok (true, pos').
Proof.
  intros Hp. pose proof (Z.prime_ge_2 _ Hp) as Hn.
  unfold RSA.millerRabinTest.
  destruct (n <=? 1) eqn:E1; [apply Z.leb_le in E1; lia|].
  destruct ((n =? 2) || (n =? 3)) eqn:E23; [right; eexists; reflexivity|].
  apply orb_false_iff in E23. destruct E23 as [E2 E3].
  apply Z.eqb_neq in E2, E3.
  rewrite Z.rem_mod_nonneg by lia.
  destruct (n mod 2 =? 0) eqn:E4.
  { exfalso. apply Z.eqb_eq in E4. destruct Hp as [_ Hp].
    apply (Hp 2); [lia|]. apply Z.mod_divide; lia. }
  apply Z.eqb_neq in E4.
  destruct (factor_twos_fuel_total (n - 1) ltac:(lia)) as (d & s & Hft).
  rewrite Hft. cbn [bind].
  apply factor_twos_spec in Hft; [|lia].
  destruct Hft as (Hd & Hodd & _ & Hfac). rewrite Nat.sub_0_r in Hfac.
  apply millerRabin_rounds_prime; auto; try lia.
  destruct s as [|s']; [|lia]. exfalso.
  change (2 ^ Z.of_nat 0) with 1 in Hfac.
  pose proof (Z.div_mod n 2 ltac:(lia)). pose proof (Z.mod_pos_bound n 2 ltac:(lia)).
  pose proof (Z.div_mod d 2 ltac:(lia)). lia.
Qed.

(** ** ElGamal over a prime field *)

Lemma generateRandomBigInt_positive (fuel : nat) (r : rng) (byteLength : nat) (max : Z) :
  forall pos k pos',
    ElGamal.generateRandomBigInt_loop fuel r pos byteLength max = Ok (k, pos') ->
    0 < k.
Proof.
  induction fuel as [|f IH]; intros pos k pos' H; [discriminate|].
  cbn [ElGamal.generateRandomBigInt_loop] in H.
  destruct (getRandomBytes r pos byteLength) as [bytes pos1].
  destruct (big_rem (bytesToBigInt bytes) max) as [result| |]; try discriminate.
  cbn [bind] in H.
  destruct (result <=? 0) eqn:E.
  - eapply IH; eauto.
  - apply Z.leb_gt in E. inversion H; subst. exact E.
Qed.

Section ElGamalField.
Variables p g x : Z.
Hypothesis p_prime : Z.prime p.
Hypothesis g_range : 0 <= g.
Hypothesis g_unit : g mod p <> 0.
Hypothesis x_nonneg : 0 <= x.


Lemma p_gt_1 : 1 < p.
Proof. pose proof (Z.prime_ge_2 _ p_prime). lia. Qed.

(** The shared secret is a unit of the field. *)
Lemma shared_secret_coprime (e : Z) : 0 <= e -> Z.gcd (g ^ e mod p) p = 1.
Proof.
  intros He. pose proof p_gt_1 as Hp.
  rewrite Z.gcd_mod_l, Z.gcd_comm.
  apply Z.coprime_prime_l; [exact p_prime|].
  pattern e. apply natlike_ind; [| |exact He].
  - intros Hd. rewrite Z.pow_0_r in Hd. apply Z.divide_1_r_nonneg in Hd; lia.
  - intros e' He' IH Hd. rewrite Z.pow_succ_r in Hd by lia.
    apply Z.divide_prime_mul in Hd; [|exact p_prime].
    destruct Hd as [Hd|Hd]; [|exact (IH Hd)].
    apply g_unit. apply Z.mod_divide; [lia|exact Hd].
Qed.

(** Decrypting a single-block ciphertext gives the integer back. *)
Lemma decrypt_single_encrypt (M k : Z) :
  0 <= M < p -> 0 <= k ->
  ElGamal.decrypt_single (g ^ k mod p) (Z.rem (M * ((g ^ x mod p) ^ k mod p)) p) (elgamal_private p x)
  = bigIntToText M.
Proof.
  intros HM Hk. pose proof p_gt_1 as Hp.
  unfold ElGamal.decrypt_single. cbn [ElGamal.sk_x ElGamal.sk_p elgamal_private].
  assert (Hc1 : 0 <= g ^ k mod p) by (apply Z.mod_pos_bound; lia).
  rewrite modPow_spec by lia. cbn [bind].
  assert (Hs : (g ^ k mod p) ^ x mod p = (g ^ x mod p) ^ k mod p).
  { rewrite !Z.mod_pow_l, <- !Z.pow_mul_r by lia. f_equal. f_equal. ring. }
  set (s := (g ^ k mod p) ^ x mod p) in *.
  assert (Hsr : 0 <= s < p) by (apply Z.mod_pos_bound; lia).
  assert (Hg : Z.gcd s p = 1).
  { unfold s. rewrite Z.mod_pow_l, <- Z.pow_mul_r by lia.
    apply shared_secret_coprime. nia. }
  destruct (modInverse_coprime s p Hp Hg) as (si & Hsi & Hinv & Hrange).
  rewrite Hsi. cbn [bind].
  unfold big_rem. destruct (p =? 0) eqn:E0; [apply Z.eqb_eq in E0; lia|].
  cbn [bind]. rewrite <- Hs.
  assert (HM' : Z.rem (Z.rem (M * s) p * si) p = M).
  { rewrite (Z.rem_mod_nonneg (M * s)) by nia.
    assert (0 <= (M * s) mod p) by (apply Z.mod_pos_bound; lia).
    rewrite Z.rem_mod_nonneg by nia.
    rewrite Z.mul_mod_idemp_l by lia.
    replace (M * s * si) with (M * (s * si)) by ring.
    rewrite <- Z.mul_mod_idemp_r, Hinv, Z.mul_1_r by lia.
    apply Z.mod_small; lia. }
  rewrite HM'.
  destruct (bigIntToText_total M) as [t Ht]. rewrite Ht. reflexivity.
Qed.

(** Whatever the random source, a single-block [encrypt] that returns is
    undone by [decrypt] up to [bigIntToText]. *)
Lemma encrypt_single_decrypt (fuel : nat) (r : rng) (pos : nat) (M : Z)
      (er : ElGamal.EncryptionResult) (pos' : nat) :
  0 <= M < p ->
  ElGamal.encrypt_single fuel r pos M (elgamal_public p g x) = Ok (er, pos') ->
  ElGamal.decrypt er (elgamal_private p x) = bigIntToText M.
Proof.
  intros HM Henc. pose proof p_gt_1 as Hp.
  unfold ElGamal.encrypt_single in Henc. cbn [ElGamal.pk_p ElGamal.pk_g ElGamal.pk_y elgamal_public] in Henc.
  destruct (ElGamal.generateRandomBigInt fuel r pos (p - 1)) as [[k pos1]| |] eqn:Hk;
    try discriminate.
  cbn [bind] in Henc.
  apply generateRandomBigInt_positive in Hk.
  assert (0 <= g ^ x mod p) by (apply Z.mod_pos_bound; lia).
  rewrite !modPow_spec in Henc by lia. cbn [bind] in Henc.
  unfold big_rem in Henc. destruct (p =? 0) eqn:E0; [apply Z.eqb_eq in E0; lia|].
  cbn [bind] in Henc. inversion Henc; subst er pos'. clear Henc.
  unfold ElGamal.decrypt. cbn [ElGamal.isBlocked ElGamal.ciphertext].
  apply decrypt_single_encrypt; lia.
Qed.

Lemma catch_rethrow_ok {A : Type} (body : res A) (e : error) (v : A) :
  catch_rethrow body e = Ok v -> body = Ok v.
Proof. destruct body; cbn; congruence. Qed.

Lemma textToBigInt_ascii (message : text) :
  is_ascii message -> textToBigInt message = bytesToBigInt message.
Proof. intros H. unfold textToBigInt. rewrite stringToBytes_ascii by exact H. reflexivity. Qed.

(** Single-block round trip of an ASCII message: it comes back without its
    leading zero bytes. *)
Lemma elgamal_single_roundtrip (depth fuel : nat) (r : rng) (pos : nat)
      (message : text) (er : ElGamal.EncryptionResult) (pos' : nat) :
  is_ascii message -> textToBigInt message < p ->
  ElGamal.encrypt (S depth) fuel r message (elgamal_public p g x) pos = Ok (er, pos') ->
  ElGamal.decrypt er (elgamal_private p x) = Ok (strip_leading_zeros message).
Proof.
  intros Ha HM Henc. cbn [ElGamal.encrypt] in Henc.
  cbn [ElGamal.pk_p elgamal_public] in Henc.
  destruct (textToBigInt message >=? p) eqn:E.
  { rewrite Z.geb_leb in E. apply Z.leb_le in E. lia. }
  apply catch_rethrow_ok in Henc.
  pose proof (is_ascii_bytes _ Ha) as Hb.
  rewrite textToBigInt_ascii in * by exact Ha.
  rewrite (encrypt_single_decrypt _ _ _ _ _ _ (conj (bytesToBigInt_nonneg _ Hb) HM) Henc).
  rewrite bigIntToText_bytesToBigInt by exact Hb.
  rewrite bytesToString_ascii by (apply is_ascii_strip; exact Ha).
  reflexivity.
Qed.




End ElGamalField.

(** The keys of [generateKeys] are a key pair over the fixed field. *)
Lemma generateKeys_shape (fuel : nat) (r : rng) (pos : nat)
      (pk : ElGamal.PublicKey) (sk : ElGamal.PrivateKey) (pos' : nat) :
  ElGamal.generateKeys fuel r pos = Ok (pk, sk, pos') ->
  exists x, 0 < x /\
    pk = elgamal_public ElGamal.BIG_PRIME ElGamal.GENERATOR x /\
    sk = elgamal_private ElGamal.BIG_PRIME x.
Proof.
  unfold ElGamal.generateKeys. intros H. apply catch_rethrow_ok in H.
  destruct (ElGamal.generateRandomBigInt fuel r pos (ElGamal.BIG_PRIME - 1))
    as [[x pos1]| |] eqn:Hx; try discriminate.
  cbn [bind] in H. apply generateRandomBigInt_positive in Hx.
  assert (Hg : 0 <= ElGamal.GENERATOR) by discriminate.
  assert (Hp : 1 < ElGamal.BIG_PRIME) by reflexivity.
  rewrite modPow_spec in H by lia.
  cbn [bind] in H. inversion H; subst. exists x. repeat split. exact Hx.
Qed.

Lemma BIG_PRIME_block_fits :
  (0 < ElGamal.blockSize_of ElGamal.BIG_PRIME)%nat /\
  2 ^ (8 * Z.of_nat (ElGamal.blockSize_of ElGamal.BIG_PRIME)) <= ElGamal.BIG_PRIME.
Proof.
  assert (H : ElGamal.blockSize_of ElGamal.BIG_PRIME = 154%nat) by (vm_compute; reflexivity).
  rewrite H. split; [lia | vm_compute; discriminate].
Qed.

(** ** RSA *)

Lemma pow_fermat_multiple (p m t : Z) :
  Z.prime p -> 0 <= t -> m ^ (1 + t * (p - 1)) mod p = m mod p.
Proof.
  intros Hp Ht. pose proof (Z.prime_ge_2 _ Hp) as Hp2.
  rewrite Z.pow_add_r, Z.pow_1_r by nia.
  destruct (Z.eq_dec (m mod p) 0) as [H0|Hnz].
  - rewrite <- Z.mul_mod_idemp_l, H0 by lia. rewrite Z.mul_0_l. apply Z.mod_0_l. lia.
  - rewrite <- Z.mul_mod_idemp_r by lia.
    replace (t * (p - 1)) with ((p - 1) * t) by ring.
    rewrite Z.pow_mul_r by lia.
    rewrite <- (Z.mod_pow_l (m ^ (p - 1))), (Z.fermat_nz p m Hp Hnz), Z.pow_1_l by lia.
    rewrite (Z.mod_small 1 p) by lia. rewrite Z.mul_1_r. reflexivity.
Qed.

Lemma congruent_divide (a b n : Z) : 0 < n -> a mod n = b mod n -> (n | a - b).
Proof.
  intros Hn H. apply Z.mod_divide; [lia|].
  rewrite Zminus_mod, H, Z.sub_diag. apply Z.mod_0_l. lia.
Qed.

(** The RSA identity for two distinct primes. *)
Lemma rsa_identity (p q e d m : Z) :
  Z.prime p -> Z.prime q -> p <> q -> 0 <= e -> 0 <= d ->
  (e * d) mod ((p - 1) * (q - 1)) = 1 ->
  m ^ (e * d) mod (p * q) = m mod (p * q).
Proof.
  intros Hp Hq Hne He Hd Hed.
  pose proof (Z.prime_ge_2 _ Hp) as Hp2. pose proof (Z.prime_ge_2 _ Hq) as Hq2.
  set (phi := (p - 1) * (q - 1)) in *.
  assert (Hphi : 0 < phi) by (unfold phi; nia).
  pose proof (Z.div_mod (e * d) phi ltac:(lia)) as Hdm. rewrite Hed in Hdm.
  set (k := e * d / phi) in *.
  assert (Hk : 0 <= k) by (apply Z.div_pos; nia).
  assert (Hmp : (p | m ^ (e * d) - m)).
  { apply congruent_divide; [lia|].
    replace (e * d) with (1 + (k * (q - 1)) * (p - 1)) by (unfold phi in Hdm; lia).
    apply pow_fermat_multiple; [exact Hp|nia]. }
  assert (Hmq : (q | m ^ (e * d) - m)).
  { apply congruent_divide; [lia|].
    replace (e * d) with (1 + (k * (p - 1)) * (q - 1)) by (unfold phi in Hdm; lia).
    apply pow_fermat_multiple; [exact Hq|nia]. }
  assert (Hcop : Z.gcd q p = 1).
  { apply Z.coprime_prime_l; [exact Hq|]. intros Hdiv.
    apply Hne. symmetry. apply Z.divide_prime_prime; assumption. }
  destruct Hmp as [y Hy].
  assert (Hqy : (q | y)).
  { apply (Z.gauss q p y); [|exact Hcop]. rewrite Z.mul_comm, <- Hy. exact Hmq. }
  destruct Hqy as [z Hz].
  replace (m ^ (e * d)) with (m + z * (p * q)) by (rewrite Hz in Hy; lia).
  apply Z.mod_add. nia.
Qed.

(** *** Fixed-length byte conversion *)

Lemma bigIntToBytes_S (value : Z) (n : nat) :
  RSA.bigIntToBytes value (S n)
  = RSA.bigIntToBytes (Z.shiftr value 8) n ++ [Z.land value 255].
Proof. reflexivity. Qed.

Lemma bigIntToBytes_length (n : nat) :
  forall value, length (RSA.bigIntToBytes value n) = n.
Proof.
  induction n as [|n IH]; intros value; [reflexivity|].
  rewrite bigIntToBytes_S, length_app, IH. cbn. lia.
Qed.

Lemma bigIntToBytes_is_bytes (n : nat) :
  forall value, is_bytes (RSA.bigIntToBytes value n).
Proof.
  induction n as [|n IH]; intros value; [constructor|].
  rewrite bigIntToBytes_S. apply is_bytes_app; [apply IH|].
  constructor; [apply to_u8_byte|constructor].
Qed.

Lemma bytesToBigInt_bigIntToBytes (n : nat) :
  forall value, 0 <= value < 2 ^ (8 * Z.of_nat n) ->
    bytesToBigInt (RSA.bigIntToBytes value n) = value.
Proof.
  induction n as [|n IH]; intros value Hv.
  - change (2 ^ (8 * Z.of_nat 0)) with 1 in Hv. cbn. lia.
  - rewrite bigIntToBytes_S, bytesToBigInt_snoc by apply to_u8_byte.
    replace (8 * Z.of_nat (S n)) with (8 * Z.of_nat n + 8) in Hv by lia.
    rewrite Z.pow_add_r in Hv by lia. change (2 ^ 8) with 256 in Hv.
    rewrite IH.
    + rewrite Z.shiftr_div_pow2 by lia. change 255 with (Z.ones 8).
      rewrite Z.land_ones by lia. change (2 ^ 8) with 256.
      pose proof (Z.div_mod value 256 ltac:(lia)). lia.
    + rewrite Z.shiftr_div_pow2 by lia. change (2 ^ 8) with 256.
      split; [apply Z.div_pos; lia | apply Z.div_lt_upper_bound; lia].
Qed.

Lemma bigIntToBytes_bytesToBigInt (B : list Z) :
  is_bytes B -> RSA.bigIntToBytes (bytesToBigInt B) (length B) = B.
Proof.
  induction B as [|b B IH] using rev_ind; intros HB; [reflexivity|].
  apply Forall_app in HB. destruct HB as [HB Hb]. inversion Hb; subst.
  rewrite length_app, Nat.add_1_r, bigIntToBytes_S.
  rewrite bytesToBigInt_snoc by auto.
  destruct (low_byte (bytesToBigInt B) b ltac:(auto)) as [Hl Hs].
  rewrite Hl, Hs, IH by auto. reflexivity.
Qed.

Lemma modInverse_ok_spec (a m r : Z) :
  1 < m -> modInverse a m = Ok r -> (a * r) mod m = 1 /\ 0 <= r < m.
Proof.
  intros Hm Hr.
  destruct (Z.eq_dec (Z.gcd a m) 1) as [Hg|Hg].
  - destruct (modInverse_coprime a m Hm Hg) as (r' & Hr' & Hprops).
    rewrite Hr in Hr'. inversion Hr'; subst. exact Hprops.
  - destruct (modInverse_not_coprime a m Hg) as (e & He). congruence.
Qed.

Lemma keyLenBytes_bounds (n : Z) :
  0 < n ->
  2 ^ (8 * (RSA.keyLenBytes_of n - 1)) <= n /\ n < 2 ^ (8 * RSA.keyLenBytes_of n).
Proof.
  intros Hn. unfold RSA.keyLenBytes_of, ceil_div8.
  assert (Hbl : getBitLength n = Z.log2 n + 1) by (destruct n; try lia; reflexivity).
  rewrite Hbl. pose proof (Z.log2_nonneg n) as Hl.
  pose proof (Z.log2_spec n Hn) as [Hlo Hhi].
  pose proof (Z.div_mod (Z.log2 n + 1 + 7) 8 ltac:(lia)) as Hdm.
  pose proof (Z.mod_pos_bound (Z.log2 n + 1 + 7) 8 ltac:(lia)) as Hmb.
  split.
  - assert (2 ^ (8 * ((Z.log2 n + 1 + 7) / 8 - 1)) <= 2 ^ Z.log2 n)
      by (apply Z.pow_le_mono_r; lia).
    lia.
  - assert (2 ^ Z.succ (Z.log2 n) <= 2 ^ (8 * ((Z.log2 n + 1 + 7) / 8)))
      by (apply Z.pow_le_mono_r; lia).
    lia.
Qed.

(** RSA round trip for a key pair built from two distinct primes, as
    [generateKeys] builds it ([d = modInverse(e, (p-1)(q-1))]): every
    ASCII message within the OAEP capacity is encrypted, and decrypted to
    itself, whatever the random seed. *)
Lemma rsa_roundtrip (p q d : Z) (r : rng) (pos : nat) (message : text) :
  Z.prime p -> Z.prime q -> p <> q ->
  modInverse RSA.e_fixed ((p - 1) * (q - 1)) = Ok d ->
  is_ascii message ->
  Z.of_nat (length message) <= RSA.keyLenBytes_of (p * q) - 2 * RSA.HASH_LENGTH - 2 ->
  exists er pos',
    RSA.encrypt r pos message {| RSA.pk_n := p * q; RSA.pk_e := RSA.e_fixed |}
    = Ok (er, pos') /\
    RSA.decrypt er {| RSA.sk_n := p * q; RSA.sk_d := d |} = Ok message.
Proof.
  intros Hp Hq Hne Hd Ha Hlen.
  pose proof (is_ascii_bytes _ Ha) as Hm.
  pose proof (Z.prime_ge_2 _ Hp) as Hp2. pose proof (Z.prime_ge_2 _ Hq) as Hq2.
  set (n := p * q) in *. assert (Hn : 1 < n) by (unfold n; nia).
  assert (Hphi : 1 < (p - 1) * (q - 1)) by nia.
  destruct (modInverse_ok_spec _ _ _ Hphi Hd) as [Hed Hdr].
  set (k := RSA.keyLenBytes_of n) in *.
  destruct (keyLenBytes_bounds n ltac:(lia)) as [Hklo Hkhi]. fold k in Hklo, Hkhi.
  destruct (oaep_encode_decode r pos message k Hm Hlen)
    as (rest & pos' & Henc & Hrb & Hl & Hdec).
  assert (Hk66 : 66 <= k) by (unfold RSA.HASH_LENGTH in Hlen; lia).
  set (em := 0 :: rest) in *.
  assert (Hemb : is_bytes em) by (constructor; [red; lia | exact Hrb]).
  set (m := bytesToBigInt em).
  assert (Hmr : 0 <= m < n).
  { split; [apply bytesToBigInt_nonneg; exact Hemb|].
    unfold m, em. rewrite bytesToBigInt_cons by (auto; red; lia).
    rewrite Z.mul_0_l, Z.add_0_l.
    pose proof (bytesToBigInt_bound rest Hrb) as Hb.
    unfold em in Hl. cbn [length] in Hl. rewrite Nat2Z.inj_succ in Hl.
    replace (8 * Z.of_nat (length rest)) with (8 * (k - 1)) in Hb by lia. lia. }
  set (c := m ^ RSA.e_fixed mod n).
  assert (Hc : 0 <= c < n) by (apply Z.mod_pos_bound; lia).
  assert (Henc_ok :
    RSA.encrypt_body r pos message {| RSA.pk_n := n; RSA.pk_e := RSA.e_fixed |}
    = Ok ({| RSA.ciphertext := RSA.bigIntToBytes c (Z.to_nat k) |}, pos')).
  { unfold RSA.encrypt_body. cbn [RSA.pk_n RSA.pk_e].
    rewrite stringToBytes_ascii by exact Ha. fold k.
    destruct (Z.of_nat (length message) >? k - 2 * RSA.HASH_LENGTH - 2) eqn:G;
      [apply Z.gtb_lt in G; lia|].
    rewrite Henc. cbn [bind]. fold m.
    rewrite modExp_spec by (try lia; discriminate). reflexivity. }
  eexists _, pos'. split.
  - unfold RSA.encrypt. rewrite Henc_ok. reflexivity.
  - unfold RSA.decrypt, RSA.decrypt_body. cbn [RSA.sk_n RSA.sk_d RSA.ciphertext]. fold k.
    rewrite bytesToBigInt_bigIntToBytes by (rewrite Z2Nat.id by lia; lia).
    rewrite modExp_spec by lia. cbn [bind].
    assert (Hback : c ^ d mod n = m).
    { unfold c. rewrite Z.mod_pow_l, <- Z.pow_mul_r by (try lia; discriminate).
      unfold n. rewrite (rsa_identity p q RSA.e_fixed d m); auto; try lia; try discriminate.
      apply Z.mod_small. exact Hmr. }
    rewrite Hback.
    replace (Z.to_nat k) with (length em) by lia.
    unfold m. rewrite bigIntToBytes_bytesToBigInt by exact Hemb.
    rewrite Hdec. cbn [bind]. rewrite bytesToString_ascii by exact Ha. reflexivity.
Qed.

(** ** The symmetric layer of the ECC engine *)

Lemma generateKeyStream_loop_ok (fuel : nat) :
  forall key counter pos length keyStream,
    (length - pos < fuel)%nat -> List.length keyStream = length ->
    exists ks, ECC.generateKeyStream_loop fuel key counter pos length keyStream = Ok ks /\
               List.length ks = length.
Proof.
  induction fuel as [|f IH]; intros key counter pos len ks Hf Hl; [lia|].
  cbn [ECC.generateKeyStream_loop].
  destruct (pos <? len)%nat eqn:E; [|eauto].
  apply Nat.ltb_lt in E.
  rewrite simpleHashBytes_length.
  set (hash := simpleHashBytes _).
  set (blockSize := Nat.min 32 (len - pos)).
  assert (Hbs : (1 <= blockSize /\ pos + blockSize <= len)%nat) by (unfold blockSize; lia).
  assert (Hsl : List.length (u8_slice hash 0 blockSize) = blockSize).
  { unfold u8_slice. rewrite Nat.sub_0_r, skipn_O, length_firstn.
    unfold hash. rewrite simpleHashBytes_length. unfold blockSize. lia. }
  unfold u8_set. rewrite Hsl, Hl.
  destruct (pos + blockSize <=? len)%nat eqn:E2; [|apply Nat.leb_gt in E2; lia].
  cbn [bind]. apply IH; [lia|].
  rewrite !length_app, length_firstn, length_skipn, Hsl. lia.
Qed.

Lemma generateKeyStream_ok (key iv : list Z) (length : nat) :
  exists ks, ECC.generateKeyStream key iv length = Ok ks /\ List.length ks = length.
Proof.
  unfold ECC.generateKeyStream. apply generateKeyStream_loop_ok; [lia|].
  apply repeat_length.
Qed.

(** XOR with the key stream is its own inverse. *)
Lemma xorEncrypt_xorDecrypt (data key iv : list Z) :
  is_bytes data ->
  exists ct, ECC.xorEncrypt data key iv = Ok ct /\
             ECC.xorDecrypt ct key iv = Ok data.
Proof.
  intros Hd. unfold ECC.xorDecrypt, ECC.xorEncrypt.
  destruct (generateKeyStream_ok key iv (length data)) as (ks & Hks & Hl).
  rewrite Hks. cbn [bind]. eexists. split; [reflexivity|].
  rewrite xor_bytes_length, Hks. cbn [bind].
  rewrite xor_bytes_involutive by auto. reflexivity.
Qed.

(** The ECC round trip, given the Diffie-Hellman agreement: when the
    receiver recomputes the sender's shared point, [decrypt] returns the
    ASCII message that [encrypt] was given. *)
Lemma ecc_roundtrip_given_agreement (fuel : nat) (r : rng) (pos : nat)
      (message : text) (publicKey : ECC.HexPoint) (privateKey : Z)
      (er : ECC.EncryptionResult) (pos' : nat) :
  is_ascii message ->
  ECC.encrypt fuel r pos message publicKey = Ok (er, pos') ->
  (forall P k pos1 R,
     ECC.hexToPoint fuel publicKey = Ok P ->
     ElGamal.generateRandomBigInt fuel r pos (ECC.curve_n - 1) = Ok (k, pos1) ->
     ECC.pointMultiply ECC.G k = Ok R ->
     (R' <- ECC.hexToPoint fuel (ECC.pointToHex R) ;; ECC.pointMultiply R' privateKey)
     = ECC.pointMultiply P k) ->
  ECC.decrypt fuel er privateKey = Ok message.
Proof.
  intros Ha Henc Hagree. pose proof (is_ascii_bytes _ Ha) as Hm.
  rewrite <- (stringToBytes_ascii message Ha) in Hm.
  unfold ECC.encrypt in Henc. apply catch_rethrow_ok in Henc.
  destruct (ECC.hexToPoint fuel publicKey) as [P| |] eqn:HP; try discriminate.
  cbn [bind] in Henc.
  destruct (ElGamal.generateRandomBigInt fuel r pos (ECC.curve_n - 1))
    as [[k pos1]| |] eqn:Hk; try discriminate.
  cbn [bind] in Henc.
  destruct (ECC.pointMultiply ECC.G k) as [R| |] eqn:HR; try discriminate.
  cbn [bind] in Henc.
  specialize (Hagree P k pos1 R eq_refl eq_refl HR).
  destruct (ECC.pointMultiply P k) as [S| |] eqn:HS; try discriminate.
  cbn [bind] in Henc.
  destruct (ECC.pointToBytes S) as [sb| |] eqn:Hsb; try discriminate.
  cbn [bind] in Henc.
  pose proof (getRandomBytes_bytes r pos1 16) as [Hivlen _].
  destruct (getRandomBytes r pos1 16) as [iv0 pos2]. cbn [fst] in Hivlen.
  destruct iv0 as [|iv_first iv_rest]; [discriminate|].
  set (iv0 := iv_first :: iv_rest) in *.
  destruct (xorEncrypt_xorDecrypt (stringToBytes message) (simpleHashBytes sb) iv0 Hm)
    as (ct & Hct & Hback).
  rewrite Hct in Henc. cbn [bind] in Henc. inversion Henc; subst er pos'. clear Henc.
  unfold ECC.decrypt. cbn [ECC.ephemeralKey ECC.iv ECC.ciphertext].
  destruct (ECC.hexToPoint fuel (ECC.pointToHex R)) as [R'| |]; try discriminate.
  cbn [bind] in Hagree |- *. rewrite Hagree. cbn [bind].
  rewrite Hsb. cbn [bind]. rewrite Hback. cbn [bind].
  rewrite stringToBytes_ascii, bytesToString_ascii by exact Ha. reflexivity.
Qed.

(** ** ElGamal: what a caller can rely on *)

Lemma res_ok_inv {A : Type} (a b : A) : Ok a = Ok b -> a = b.
Proof. intros H. injection H as H. exact H. Qed.

Lemma strip_leading_zeros_head (B : list Z) :
  hd 1 B <> 0 -> strip_leading_zeros B = B.
Proof.
  destruct B as [|b B']; [reflexivity|]. cbn [hd strip_leading_zeros]. intros Hb.
  destruct (b =? 0) eqn:E; [apply Z.eqb_eq in E; contradiction | reflexivity].
Qed.



(** The decimal length of a positive number [n] is at least [k + 1] when
    [10^k <= n], and [10^(length - 1) <= n]. *)
Lemma decimal_digits_pos (fuel : nat) : forall n, 1 <= decimal_digits fuel n.
Proof.
  induction fuel as [|f IH]; intros n; cbn [decimal_digits]; [lia|].
  destruct (n <? 10); [lia|]. specialize (IH (n / 10)). lia.
Qed.


Lemma decimal_digits_upper (fuel : nat) :
  forall n k, 0 <= k -> n < 10 ^ (k + 1) -> decimal_digits fuel n <= k + 1.
Proof.
  induction fuel as [|f IH]; intros n k Hk Hn; cbn [decimal_digits]; [lia|].
  destruct (n <? 10) eqn:E; [lia|].
  apply Z.ltb_ge in E.
  assert (Hk1 : 1 <= k).
  { destruct (Z.eq_dec k 0) as [->|]; [cbn in Hn; lia | lia]. }
  specialize (IH (n / 10) (k - 1) ltac:(lia)).
  replace (k - 1 + 1) with k in IH by lia.
  assert (n / 10 < 10 ^ k).
  { apply Z.div_lt_upper_bound; [lia|].
    replace (k + 1) with (Z.succ k) in Hn by lia.
    rewrite Z.pow_succ_r in Hn by lia. exact Hn. }
  specialize (IH H). lia.
Qed.




Lemma blockSize_zero (p : Z) : 0 < p < 10000 -> ElGamal.blockSize_of p = 0%nat.
Proof.
  intros Hp. unfold ElGamal.blockSize_of, decimal_length.
  destruct (p <? 0) eqn:E; [apply Z.ltb_lt in E; lia|].
  pose proof (decimal_digits_upper (Z.to_nat (Z.log2 p + 1)) p 3 ltac:(lia)
                ltac:(change (10 ^ (3 + 1)) with 10000; lia)) as Hd.
  pose proof (decimal_digits_pos (Z.to_nat (Z.log2 p + 1)) p) as Hpos.
  assert ((decimal_digits (Z.to_nat (Z.log2 p + 1)) p - 1) / 4 = 0).
  { apply Z.div_small. lia. }
  rewrite H. reflexivity.
Qed.

Lemma split_blocks_stuck (fuel : nat) (b : Z) (bytes : list Z) :
  ElGamal.split_blocks fuel (b :: bytes) 0 = Timeout.
Proof.
  induction fuel as [|f IH]; [reflexivity|].
  cbn [ElGamal.split_blocks skipn]. rewrite IH. reflexivity.
Qed.

Lemma generateRandomBigInt_loop_range (fuel : nat) (r : rng) (byteLength : nat) (max : Z) :
  forall pos k pos',
    ElGamal.generateRandomBigInt_loop fuel r pos byteLength max = Ok (k, pos') ->
    0 < k < Z.abs max.
Proof.
  induction fuel as [|f IH]; intros pos k pos' H; [discriminate|].
  cbn [ElGamal.generateRandomBigInt_loop] in H.
  destruct (getRandomBytes r pos byteLength) as [randomBytes pos1] eqn:Hg.
  unfold big_rem in H.
  destruct (max =? 0) eqn:Hm; [discriminate|]. cbn [bind] in H.
  apply Z.eqb_neq in Hm.
  destruct (Z.rem (bytesToBigInt randomBytes) max <=? 0) eqn:E.
  - eapply IH; exact H.
  - apply Z.leb_gt in E. injection H as H _. subst k.
    split; [exact E|].
    pose proof (Z.rem_bound_abs (bytesToBigInt randomBytes) max Hm). lia.
Qed.

(** Primality by trial division. *)
Lemma prime_by_trial (p : Z) :
  1 < p ->
  forallb (fun i => negb (p mod (Z.of_nat i) =? 0)) (seq 2 (Z.to_nat (p - 2))) = true ->
  Z.prime p.
Proof.
  intros Hp Hall. split; [exact Hp|].
  intros n Hn. apply (no_small_divisor_sound p (Z.to_nat (p - 2)) Hall).
  rewrite Z2Nat.id by lia. lia.
Qed.


(** X1. ElGamal, single block.  Over a prime modulus [p], with a generator
    [g] that [p] does not divide and the key pair of a private exponent [x],
    whenever [encrypt] returns a result for an ASCII message whose number is
    below [p], [decrypt] returns that message without its leading zero
    bytes, whatever the ephemeral key drawn; a message that does not start
    with a zero byte comes back unchanged. *)
Theorem elgamal_decrypt_inverts_encrypt (p g x : Z) (depth fuel : nat) (r : rng)
        (pos : nat) (message : text) (er : ElGamal.EncryptionResult) (pos' : nat) :
  Z.prime p -> 0 <= g -> g mod p <> 0 -> 0 <= x ->
  is_ascii message -> textToBigInt message < p ->
  ElGamal.encrypt (S depth) fuel r message (elgamal_public p g x) pos = Ok (er, pos') ->
  ElGamal.decrypt er (elgamal_private p x) = Ok (strip_leading_zeros message) /\
  (hd 1 message <> 0 -> ElGamal.decrypt er (elgamal_private p x) = Ok message).
Proof.
  intros Hp Hg Hu Hx Hm Hlt Henc.
  assert (Hd : ElGamal.decrypt er (elgamal_private p x) = Ok (strip_leading_zeros message)).
  { exact (elgamal_single_roundtrip p g x Hp Hg Hu Hx depth fuel r pos message er pos'
             Hm Hlt Henc). }
  split; [exact Hd|]. intros Hh. rewrite Hd, strip_leading_zeros_head by exact Hh.
  reflexivity.
Qed.

Lemma elgamal_decrypt_inverts_encrypt_witness :
  ElGamal.decrypt
    {| ElGamal.ciphertext := ElGamal.CtPair 28 10; ElGamal.ephemeralKey := Some 3;
       ElGamal.isBlocked := false; ElGamal.blockCount := None |}
    (elgamal_private 97 3) = Ok [65].
Proof.
  apply (elgamal_decrypt_inverts_encrypt 97 5 3 0 1 (fun _ => 3) 0 [65] _ 1%nat);
    [exact prime_97 | lia | discriminate | lia
    | repeat constructor; lia | reflexivity | reflexivity | discriminate].
Defined.



(** X3. ElGamal key generation: every key pair that [generateKeys] returns
    is over the fixed 2048-bit modulus with generator 2, its private
    exponent [x] satisfies [0 < x < p - 1], and the public value is
    [2^x mod p]. *)
Theorem elgamal_generateKeys_range (fuel : nat) (r : rng) (pos : nat)
        (pk : ElGamal.PublicKey) (sk : ElGamal.PrivateKey) (pos' : nat) :
  ElGamal.generateKeys fuel r pos = Ok (pk, sk, pos') ->
  0 < ElGamal.sk_x sk < ElGamal.BIG_PRIME - 1 /\
  ElGamal.sk_p sk = ElGamal.BIG_PRIME /\
  pk = elgamal_public ElGamal.BIG_PRIME 2 (ElGamal.sk_x sk).
Proof.
  intros H.
  destruct (generateKeys_shape fuel r pos pk sk pos' H) as (x & Hx & Hpk & Hsk).
  subst pk sk. cbn [ElGamal.sk_x ElGamal.sk_p elgamal_private].
  split; [|split; reflexivity].
  apply catch_rethrow_ok in H.
  destruct (ElGamal.generateRandomBigInt fuel r pos (ElGamal.BIG_PRIME - 1))
    as [[k pos1]| |] eqn:Hk; try discriminate.
  cbn [bind] in H.
  apply generateRandomBigInt_loop_range in Hk.
  destruct (modPow ElGamal.GENERATOR k ElGamal.BIG_PRIME) as [y| |]; try discriminate.
  cbn [bind] in H.
  apply (f_equal (fun o => match o with
                           | Ok (_, s, _) => ElGamal.sk_x s
                           | _ => 0
                           end)) in H.
  cbn [ElGamal.sk_x elgamal_private] in H. subst k.
  assert (0 < ElGamal.BIG_PRIME - 1) by (vm_compute; reflexivity).
  lia.
Qed.

Lemma elgamal_generateKeys_range_witness :
  (0 < 3 < ElGamal.BIG_PRIME - 1) /\
  (ElGamal.BIG_PRIME = ElGamal.BIG_PRIME) /\
  ({| ElGamal.pk_y := 8; ElGamal.pk_g := 2; ElGamal.pk_p := ElGamal.BIG_PRIME |}
   = elgamal_public ElGamal.BIG_PRIME 2 3).
Proof.
  apply (elgamal_generateKeys_range 1 low_rng 0
           {| ElGamal.pk_y := 8; ElGamal.pk_g := 2; ElGamal.pk_p := ElGamal.BIG_PRIME |}
           {| ElGamal.sk_x := 3; ElGamal.sk_p := ElGamal.BIG_PRIME |} 256%nat).
  vm_compute. reflexivity.
Defined.

(** X4. ElGamal with a small modulus: when the modulus has at most four
    decimal digits the block size [floor((digits - 1) / 4)] is zero, the
    loop that cuts the message does not advance, and [encrypt] never returns
    for a message whose number is at least the modulus. *)
Theorem elgamal_encrypt_small_modulus_never_returns (pk : ElGamal.PublicKey)
        (message : text) :
  0 < ElGamal.pk_p pk < 10000 ->
  ElGamal.pk_p pk <= textToBigInt message ->
  forall (depth fuel : nat) (r : rng) (pos : nat),
    ElGamal.encrypt depth fuel r message pk pos = Timeout.
Proof.
  intros Hp Hm depth fuel r pos.
  destruct depth as [|d]; [reflexivity|].
  cbn [ElGamal.encrypt].
  destruct (textToBigInt message >=? ElGamal.pk_p pk) eqn:E.
  - unfold ElGamal.blockEncrypt. unfold textToBigInt in Hm.
    rewrite blockSize_zero by exact Hp.
    destruct (stringToBytes message) as [|b rest].
    + cbn in Hm. lia.
    + rewrite split_blocks_stuck. reflexivity.
  - rewrite Z.geb_leb in E. apply Z.leb_gt in E. lia.
Qed.

Lemma elgamal_encrypt_small_modulus_never_returns_witness :
  ElGamal.encrypt 5 5 (fun _ => 3) [65] (elgamal_public 23 5 3) 0 = Timeout.
Proof.
  apply (elgamal_encrypt_small_modulus_never_returns (elgamal_public 23 5 3) [65]);
    [cbn; lia | vm_compute; discriminate].
Defined.

(** ** RSA: random draws, Miller-Rabin, byte conversions *)

Lemma u8_store_nth_same (arr : list Z) (i : nat) (v : Z) :
  (i < length arr)%nat -> nth i (u8_store arr i v) 0 = to_u8 v.
Proof.
  revert i. induction arr as [|x rest IH]; intros i Hi; cbn in Hi; [lia|].
  destruct i as [|i']; cbn [u8_store nth]; [reflexivity|]. apply IH. lia.
Qed.

Lemma u8_store_nth_other (arr : list Z) (i j : nat) (v : Z) :
  i <> j -> nth j (u8_store arr i v) 0 = nth j arr 0.
Proof.
  revert i j. induction arr as [|x rest IH]; intros i j Hij; [reflexivity|].
  destruct i as [|i'], j as [|j']; cbn [u8_store nth]; try reflexivity; try lia.
  apply IH. lia.
Qed.

Lemma list_split_last (A : list Z) (m : nat) :
  length A = S m -> A = firstn m A ++ [nth m A 0].
Proof.
  revert m. induction A as [|a rest IH]; intros m H; [discriminate|].
  cbn [length] in H. destruct m as [|m'].
  - destruct rest; [reflexivity | discriminate].
  - cbn [firstn nth app]. f_equal. apply IH. lia.
Qed.

Lemma bytesToBigInt_odd (A : list Z) (m : nat) :
  is_bytes A -> length A = S m ->
  Z.odd (bytesToBigInt A) = Z.odd (nth m A 0).
Proof.
  intros Hb Hlen. rewrite (list_split_last A m Hlen) at 1.
  assert (Hlast : is_byte (nth m A 0)).
  { unfold is_bytes in Hb. rewrite Forall_forall in Hb. apply Hb, nth_In. lia. }
  rewrite bytesToBigInt_snoc by exact Hlast.
  replace (bytesToBigInt (firstn m A) * 256 + nth m A 0)
    with (nth m A 0 + 2 * (bytesToBigInt (firstn m A) * 128)) by ring.
  rewrite Z.odd_add_mul_2. reflexivity.
Qed.

Lemma to_u8_lor_odd (v w : Z) : Z.odd w = true -> is_byte w -> Z.odd (to_u8 (Z.lor v w)) = true.
Proof.
  intros Hw Hb. unfold to_u8.
  rewrite <- Z.bit0_odd, Z.land_spec, Z.lor_spec, !Z.bit0_odd, Hw.
  rewrite orb_true_r. reflexivity.
Qed.

Lemma to_u8_lor_keeps_odd (v w : Z) : Z.odd v = true -> Z.odd (to_u8 (Z.lor v w)) = true.
Proof.
  intros Hv. unfold to_u8.
  rewrite <- Z.bit0_odd, Z.land_spec, Z.lor_spec, !Z.bit0_odd, Hv. reflexivity.
Qed.

Lemma ceil_div8_pos (bits : Z) : 0 < bits -> 1 <= ceil_div8 bits.
Proof. intros H. unfold ceil_div8. apply Z.div_le_lower_bound; lia. Qed.

Lemma generateRandomBigInt_upper (r : rng) (pos : nat) (bits : Z) :
  fst (RSA.generateRandomBigInt r pos bits) < 2 ^ (8 * Z.of_nat (Z.to_nat (ceil_div8 bits))).
Proof.
  unfold RSA.generateRandomBigInt.
  set (bytes := Z.to_nat (ceil_div8 bits)).
  pose proof (getRandomBytes_bytes r pos bytes) as (Hlen & Hb).
  destruct (getRandomBytes r pos bytes) as [l pos'].
  cbn [fst] in *.
  set (A := RSA.u8_or_at (RSA.u8_or_at l (bytes - 1) 1) 0 128).
  assert (HlA : length A = bytes)
    by (unfold A, RSA.u8_or_at; rewrite !u8_store_length; exact Hlen).
  assert (HbA : is_bytes A)
    by (unfold A, RSA.u8_or_at; repeat apply u8_store_is_bytes; exact Hb).
  pose proof (bytesToBigInt_bound A HbA) as H. rewrite HlA in H. exact H.
Qed.

Lemma generateRandomBigInt_odd (r : rng) (pos : nat) (bits : Z) :
  0 < bits -> Z.odd (fst (RSA.generateRandomBigInt r pos bits)) = true.
Proof.
  intros Hbits. pose proof (ceil_div8_pos bits Hbits) as Hc.
  unfold RSA.generateRandomBigInt.
  set (bytes := Z.to_nat (ceil_div8 bits)).
  pose proof (getRandomBytes_bytes r pos bytes) as (Hlen & Hb).
  destruct (getRandomBytes r pos bytes) as [l pos'].
  cbn [fst] in *.
  set (l1 := RSA.u8_or_at l (bytes - 1) 1).
  set (A := RSA.u8_or_at l1 0 128).
  assert (Hl1 : length l1 = bytes)
    by (unfold l1, RSA.u8_or_at; rewrite u8_store_length; exact Hlen).
  assert (HlA : length A = bytes)
    by (unfold A, RSA.u8_or_at; rewrite u8_store_length; exact Hl1).
  assert (HbA : is_bytes A)
    by (unfold A, l1, RSA.u8_or_at; repeat apply u8_store_is_bytes; exact Hb).
  assert (Hbytes : bytes = S (bytes - 1)) by (unfold bytes; lia).
  rewrite (bytesToBigInt_odd A (bytes - 1) HbA) by lia.
  assert (Hodd1 : Z.odd (nth (bytes - 1) l1 0) = true).
  { unfold l1, RSA.u8_or_at. rewrite u8_store_nth_same by lia.
    apply to_u8_lor_odd; [reflexivity | unfold is_byte; lia]. }
  unfold A, RSA.u8_or_at.
  destruct (Nat.eq_dec (bytes - 1) 0) as [E|E].
  - rewrite E in *. rewrite u8_store_nth_same by lia.
    apply to_u8_lor_keeps_odd. exact Hodd1.
  - rewrite u8_store_nth_other by lia. exact Hodd1.
Qed.

(** X5. RSA [generateRandomBigInt(bits)]: for [bits > 0] the number
    returned is odd and has exactly [8 * ceil(bits / 8)] bits (the top bit
    of the first whole byte is forced), so it has more bits than asked for
    whenever [bits] is not a multiple of 8. *)
Theorem rsa_generateRandomBigInt_shape (r : rng) (pos : nat) (bits : Z) :
  0 < bits ->
  let v := fst (RSA.generateRandomBigInt r pos bits) in
  Z.odd v = true /\
  2 ^ (8 * ceil_div8 bits - 1) <= v < 2 ^ (8 * ceil_div8 bits) /\
  getBitLength v = 8 * ceil_div8 bits.
Proof.
  intros Hbits v. pose proof (ceil_div8_pos bits Hbits) as Hc.
  pose proof (generateRandomBigInt_lower r pos bits Hbits) as Hlo.
  pose proof (generateRandomBigInt_upper r pos bits) as Hup.
  rewrite Z2Nat.id in Hup by lia. fold v in Hlo, Hup.
  split; [apply generateRandomBigInt_odd; exact Hbits|].
  split; [lia|].
  assert (0 < 2 ^ (8 * ceil_div8 bits - 1)) by (apply Z.pow_pos_nonneg; lia).
  assert (Hlog : Z.log2 v = 8 * ceil_div8 bits - 1).
  { apply Z.log2_unique; [lia|].
    replace (Z.succ (8 * ceil_div8 bits - 1)) with (8 * ceil_div8 bits) by lia. lia. }
  unfold getBitLength. destruct v; lia.
Qed.

Lemma rsa_generateRandomBigInt_shape_witness :
  Z.odd 131 = true /\ 2 ^ (8 * ceil_div8 7 - 1) <= 131 < 2 ^ (8 * ceil_div8 7) /\
  getBitLength 131 = 8 * ceil_div8 7.
Proof.
  apply (rsa_generateRandomBigInt_shape (fun _ => 3) 0 7). lia.
Defined.

(** X6. RSA [randomBigIntInRange(min, max)] never throws; a value it
    returns lies in [[min, max]], but it is [min] plus an odd number with the
    top bit of its first byte set, so the lower part of the range is never
    drawn. *)
Theorem rsa_randomBigIntInRange_result (fuel : nat) (r : rng) (pos : nat) (min max : Z) :
  (forall e, RSA.randomBigIntInRange fuel r pos min max <> Err e) /\
  (forall a pos',
     RSA.randomBigIntInRange fuel r pos min max = Ok (a, pos') ->
     0 < max - min + 1 ->
     min <= a <= max /\
     min + 2 ^ (8 * ceil_div8 (getBitLength (max - min + 1)) - 1) <= a /\
     Z.odd (a - min) = true).
Proof.
  split; [intros e; apply randomBigIntInRange_no_error|].
  intros a pos' H Hr.
  split; [eapply randomBigIntInRange_range; exact H|].
  unfold RSA.randomBigIntInRange in H.
  set (bits := getBitLength (max - min + 1)) in *.
  assert (Hbits : 0 < bits).
  { unfold bits, getBitLength. destruct (max - min + 1) eqn:E; try lia.
    pose proof (Z.log2_nonneg (Z.pos p)). lia. }
  revert pos H. induction fuel as [|f IH]; intros pos H; [discriminate|].
  cbn [RSA.randomBigIntInRange_loop] in H.
  pose proof (rsa_generateRandomBigInt_shape r pos bits Hbits) as Hs.
  cbv zeta in Hs.
  destruct (RSA.generateRandomBigInt r pos bits) as [value pos1]. cbn [fst] in Hs.
  destruct (value <? max - min + 1).
  - injection H as <- _. replace (min + value - min) with value by ring.
    destruct Hs as (Ho & Hb & _). split; [lia | exact Ho].
  - eapply IH; exact H.
Qed.

Lemma rsa_randomBigIntInRange_result_witness :
  2 <= 133 <= 255 /\
  2 + 2 ^ (8 * ceil_div8 (getBitLength (255 - 2 + 1)) - 1) <= 133 /\
  Z.odd (133 - 2) = true.
Proof.
  apply (proj2 (rsa_randomBigIntInRange_result 1 (fun _ => 3) 0 2 255) 133 1%nat);
    [reflexivity | lia].
Defined.

Lemma prime_257 : Z.prime 257.
Proof. apply prime_by_trial; [lia | vm_compute; reflexivity]. Qed.

Lemma prime_1009 : Z.prime 1009.
Proof. apply prime_by_trial; [lia | vm_compute; reflexivity]. Qed.

(** X7. Miller-Rabin never rejects a prime: for a prime [n], any number of
    rounds and any random source, [millerRabinTest(n, k)] raises no error
    and, when it returns, returns [true]. *)
Theorem millerRabinTest_accepts_primes (fuel : nat) (r : rng) (pos : nat) (n : Z) (k : nat) :
  Z.prime n ->
  RSA.millerRabinTest fuel r pos n k = Timeout \/
  exists pos', RSA.millerRabinTest fuel r pos n k = Ok (true, pos').
Proof. apply millerRabinTest_prime. Qed.

Lemma millerRabinTest_accepts_primes_witness :
  RSA.millerRabinTest 1 (fun _ => 3) 0 257 3 = Timeout \/
  exists pos', RSA.millerRabinTest 1 (fun _ => 3) 0 257 3 = Ok (true, pos').
Proof.
  apply (millerRabinTest_accepts_primes 1 (fun _ => 3) 0 257 3). exact prime_257.
Defined.

(** X8. The witness draw of Miller-Rabin only ends for byte-aligned
    ranges: for every odd [n > 3] such that the bit length of [n - 3] is
    not a multiple of 8, [millerRabinTest(n, k)] with at least one round
    never returns, whatever the random source. *)
Theorem millerRabinTest_unaligned_never_returns (n : Z) :
  3 < n -> Z.rem n 2 <> 0 -> getBitLength (n - 3) mod 8 <> 0 ->
  forall (fuel : nat) (r : rng) (pos : nat) (k : nat),
    RSA.millerRabinTest fuel r pos n (S k) = Timeout.
Proof.
  intros H3 Hodd Hbits fuel r pos k. apply millerRabinTest_diverges; assumption.
Qed.

Lemma millerRabinTest_unaligned_never_returns_witness :
  RSA.millerRabinTest 1000 (fun i => Z.of_nat i) 0 1009 20 = Timeout.
Proof.
  apply (millerRabinTest_unaligned_never_returns 1009); [lia | discriminate | discriminate].
Defined.

(** X9. RSA's fixed-length [bigIntToBytes(value, length)] always returns
    [length] bytes; read back with [bytesToBigInt] they give
    [value mod 256^length], so a value that does not fit loses its high
    bytes silently; and the bytes of an array are recovered from its
    number and its length. *)
Theorem rsa_bigIntToBytes_roundtrip :
  (forall value n,
     length (RSA.bigIntToBytes value n) = n /\
     is_bytes (RSA.bigIntToBytes value n) /\
     bytesToBigInt (RSA.bigIntToBytes value n) = value mod 2 ^ (8 * Z.of_nat n)) /\
  (forall B, is_bytes B -> RSA.bigIntToBytes (bytesToBigInt B) (length B) = B).
Proof.
  split; [|exact bigIntToBytes_bytesToBigInt].
  intros value n. split; [apply bigIntToBytes_length|].
  split; [apply bigIntToBytes_is_bytes|].
  revert value. induction n as [|n IH]; intros value.
  - cbn. rewrite Z.mod_1_r. reflexivity.
  - rewrite bigIntToBytes_S.
    assert (Hlow : Z.land value 255 = value mod 256).
    { change 255 with (Z.ones 8). rewrite Z.land_ones by lia. reflexivity. }
    assert (Hb : is_byte (Z.land value 255)).
    { rewrite Hlow. unfold is_byte. apply Z.mod_pos_bound. lia. }
    rewrite bytesToBigInt_snoc by exact Hb.
    rewrite IH, Hlow, Z.shiftr_div_pow2 by lia. change (2 ^ 8) with 256.
    replace (8 * Z.of_nat (S n)) with (8 + 8 * Z.of_nat n) by lia.
    rewrite Z.pow_add_r by lia. change (2 ^ 8) with 256.
    assert (0 < 2 ^ (8 * Z.of_nat n)) by (apply Z.pow_pos_nonneg; lia).
    rewrite Z.rem_mul_r by lia. ring.
Qed.

Lemma rsa_bigIntToBytes_roundtrip_witness :
  RSA.bigIntToBytes (bytesToBigInt [0; 1; 2]) (length [0; 1; 2]) = [0; 1; 2].
Proof.
  apply (proj2 rsa_bigIntToBytes_roundtrip [0; 1; 2]). repeat constructor; lia.
Defined.

(** *** The stand-in hash *)

Lemma toInt32_congr (x y : Z) : x mod 2 ^ 32 = y mod 2 ^ 32 -> toInt32 x = toInt32 y.
Proof.
  intros H. unfold toInt32. f_equal.
  rewrite <- (Zplus_mod_idemp_l x), <- (Zplus_mod_idemp_l y), H. reflexivity.
Qed.

Lemma toInt32_mod (x : Z) : toInt32 x mod 2 ^ 32 = x mod 2 ^ 32.
Proof.
  unfold toInt32.
  rewrite <- Zminus_mod_idemp_l, Z.mod_mod by lia.
  rewrite Zminus_mod_idemp_l. f_equal. ring.
Qed.

Lemma hash_mix_mod (b h : Z) : hash_mix b h mod 2 ^ 32 = (31 * h + b) mod 2 ^ 32.
Proof.
  unfold hash_mix, shl32. rewrite toInt32_mod.
  rewrite Z.shiftl_mul_pow2 by lia. change (2 ^ 5) with 32.
  rewrite <- Zplus_mod_idemp_l, <- Zminus_mod_idemp_l, toInt32_mod.
  rewrite <- Zmult_mod_idemp_l, toInt32_mod, Zmult_mod_idemp_l.
  rewrite Zminus_mod_idemp_l, Zplus_mod_idemp_l. f_equal. ring.
Qed.

Lemma hash_mix_congr (b1 b2 h1 h2 : Z) :
  (31 * h1 + b1) mod 2 ^ 32 = (31 * h2 + b2) mod 2 ^ 32 ->
  hash_mix b1 h1 = hash_mix b2 h2.
Proof.
  intros H.
  pose proof (hash_mix_mod b1 h1) as H1. pose proof (hash_mix_mod b2 h2) as H2.
  unfold hash_mix in *. apply toInt32_congr.
  rewrite toInt32_mod in H1, H2. congruence.
Qed.

Lemma hash_mix_shift (a b h : Z) :
  hash_mix b (hash_mix a h) = hash_mix (b + 31) (hash_mix (a - 1) h).
Proof.
  apply hash_mix_congr.
  rewrite <- (Zplus_mod_idemp_l (31 * hash_mix a h)).
  rewrite <- (Zplus_mod_idemp_l (31 * hash_mix (a - 1) h)).
  rewrite <- (Zmult_mod_idemp_r (hash_mix a h)).
  rewrite <- (Zmult_mod_idemp_r (hash_mix (a - 1) h)).
  rewrite !hash_mix_mod.
  rewrite !Zmult_mod_idemp_r, !Zplus_mod_idemp_l. f_equal. ring.
Qed.

Lemma simpleHashBytes_shift (pre suf : list Z) (a b : Z) :
  simpleHashBytes (pre ++ [a; b] ++ suf) = simpleHashBytes (pre ++ [a - 1; b + 31] ++ suf).
Proof.
  unfold simpleHashBytes. do 2 f_equal.
  rewrite !fold_left_app. f_equal. cbn [fold_left].
  rewrite !map_map. apply map_ext. intros h. apply hash_mix_shift.
Qed.

(** X10. The stand-in hash [simpleHashBytes] always returns 32 bytes, and
    it is not collision resistant: inside any input, lowering one byte by 1
    and raising the next by 31 leaves the hash unchanged. *)
Theorem simpleHashBytes_collisions :
  (forall data, length (simpleHashBytes data) = 32%nat /\ is_bytes (simpleHashBytes data)) /\
  (forall pre suf a b,
     1 <= a <= 255 -> 0 <= b <= 224 ->
     simpleHashBytes (pre ++ [a; b] ++ suf)
     = simpleHashBytes (pre ++ [a - 1; b + 31] ++ suf)).
Proof.
  split.
  - intros data. split; [apply simpleHashBytes_length | apply simpleHashBytes_is_bytes].
  - intros pre suf a b _ _. apply simpleHashBytes_shift.
Qed.

Lemma simpleHashBytes_collisions_witness :
  simpleHashBytes ([7] ++ [1; 0] ++ [9]) = simpleHashBytes ([7] ++ [1 - 1; 0 + 31] ++ [9]).
Proof.
  apply (proj2 simpleHashBytes_collisions [7] [9] 1 0); lia.
Defined.

(** *** OAEP and MGF1 *)

Lemma skip_zeros_ge (fuel : nat) (db : list Z) :
  forall i, (i <= RSA.skip_zeros fuel db i)%nat.
Proof.
  induction fuel as [|f IH]; intros i; cbn [RSA.skip_zeros]; [lia|].
  destruct ((i <? length db)%nat && (nth i db 0 =? 0)); [|lia].
  specialize (IH (S i)). lia.
Qed.

(** X11. OAEP decoding never returns more than the OAEP bound: whatever
    the encoded block, a message returned by [oaep_decode(em, k)] is a byte
    array of at most [k - 2*hLen - 2] bytes. *)
Theorem oaep_decode_length_bound (em : list Z) (k : Z) (m : list Z) :
  RSA.oaep_decode em k = Ok m ->
  Z.of_nat (length m) <= k - 2 * RSA.HASH_LENGTH - 2 /\ is_bytes m.
Proof.
  unfold RSA.oaep_decode, RSA.HASH_LENGTH. intros H.
  destruct (k <? 2 * 32 + 2) eqn:Ek; [discriminate|]. apply Z.ltb_ge in Ek.
  destruct (nth_error em 0) as [[| |]|]; try discriminate.
  destruct (RSA.mgf1 _ 32) as [seedMask| |]; try discriminate. cbn [bind] in H.
  destruct (RSA.mgf1 _ (k - 32 - 1)) as [dbMask| |]; try discriminate. cbn [bind] in H.
  set (db := xor_bytes _ dbMask _) in H.
  assert (Hlen : length db = Z.to_nat (k - 32 - 1)) by apply xor_bytes_length.
  assert (Hb : is_bytes db) by apply xor_bytes_is_bytes.
  clearbody db.
  destruct (negb (RSA.label_matches db RSA.LABEL_HASH (Z.to_nat 32))); [discriminate|].
  pose proof (skip_zeros_ge (length db) db (Z.to_nat 32)) as Hge.
  set (j := RSA.skip_zeros (length db) db (Z.to_nat 32)) in *. clearbody j.
  destruct ((j =? length db)%nat || negb (nth j db 0 =? 1)); [discriminate|].
  apply res_ok_inv in H. rewrite <- H. unfold u8_slice_from.
  split; [|apply is_bytes_skipn; exact Hb].
  rewrite length_skipn, Hlen. lia.
Qed.

Lemma oaep_decode_length_bound_witness :
  Z.of_nat (length [72; 105]) <= 68 - 2 * RSA.HASH_LENGTH - 2 /\ is_bytes [72; 105].
Proof.
  apply (oaep_decode_length_bound
           (match RSA.oaep_encode (fun _ => 3) 0 [72; 105] 68 with
            | Ok (em, _) => em
            | _ => []
            end) 68 [72; 105]).
  vm_compute. reflexivity.
Defined.

(** X12. [mgf1(seed, maskLen)] returns exactly [maskLen] bytes for every
    seed and every [maskLen >= 0] (its loop ends and no write falls outside
    the mask), and raises a RangeError for a negative length. *)
Theorem mgf1_returns_mask (seed : list Z) (maskLen : Z) :
  (0 <= maskLen ->
   exists m, RSA.mgf1 seed maskLen = Ok m /\
             Z.of_nat (length m) = maskLen /\ is_bytes m) /\
  (maskLen < 0 -> RSA.mgf1 seed maskLen = Err RangeError).
Proof.
  split.
  - intros H. destruct (mgf1_ok seed maskLen H) as (m & Hm & Hl & Hb).
    exists m. repeat split; [exact Hm | lia | exact Hb].
  - intros H. unfold RSA.mgf1, u8_new.
    apply Z.ltb_lt in H. rewrite H. reflexivity.
Qed.

Lemma mgf1_returns_mask_witness :
  exists m, RSA.mgf1 [1; 2; 3] 40 = Ok m /\ Z.of_nat (length m) = 40 /\ is_bytes m.
Proof.
  apply (proj1 (mgf1_returns_mask [1; 2; 3] 40)). lia.
Defined.

(** ** The curve arithmetic keeps points on the curve *)

Lemma eqm_rem (p a : Z) : 0 < p -> eqm p (Z.rem a p) a.
Proof.
  intros Hp. unfold eqm.
  pose proof (Z.quot_rem a p ltac:(lia)) as H.
  replace (Z.rem a p) with (a + (- Z.quot a p) * p) by lia.
  apply Z_mod_plus_full.
Qed.

Lemma eqm_zero_divide (p e : Z) : eqm p e 0 -> (p | e).
Proof.
  unfold eqm. rewrite Zmod_0_l. intros H.
  destruct (Z.eq_dec p 0) as [->|Hp].
  - rewrite Z.mod_0_r in H. subst e. exists 0. ring.
  - apply Z.mod_divide; assumption.
Qed.

Lemma eqm_zero_combination (p u v e1 e2 e3 e4 c1 c2 c3 c4 : Z) :
  eqm p e1 0 -> eqm p e2 0 -> eqm p e3 0 -> eqm p e4 0 ->
  u - v = c1 * e1 + c2 * e2 + c3 * e3 + c4 * e4 ->
  eqm p u v.
Proof.
  intros H1 H2 H3 H4 Heq.
  apply eqm_zero_divide in H1, H2, H3, H4.
  destruct H1 as [k1 H1], H2 as [k2 H2], H3 as [k3 H3], H4 as [k4 H4].
  replace u with (v + (c1 * k1 + c2 * k2 + c3 * k3 + c4 * k4) * p)
    by (rewrite H1, H2, H3, H4 in Heq; lia).
  unfold eqm. apply Z_mod_plus_full.
Qed.

Lemma eqm_sub_zero (p a b : Z) : eqm p a b -> eqm p (a - b) 0.
Proof.
  intros H. replace 0 with (b - b) by ring.
  apply Zminus_eqm; [exact H | reflexivity].
Qed.

(** The tangent construction: with [lambda * 2 y1 = 3 x1^2 + a (mod p)]. *)
Lemma double_on_curve (p a b x1 y1 lambda : Z) :
  eqm p (y1 * y1) (x1 * x1 * x1 + a * x1 + b) ->
  eqm p (lambda * (2 * y1)) (3 * x1 * x1 + a) ->
  let x3 := lambda * lambda - x1 - x1 in
  let y3 := lambda * (x1 - x3) - y1 in
  eqm p (y3 * y3) (x3 * x3 * x3 + a * x3 + b).
Proof.
  intros E1 El x3 y3.
  apply (eqm_zero_combination p _ _ _ _ 0 0 1 (x3 - x1) 0 0
           (eqm_sub_zero _ _ _ E1) (eqm_sub_zero _ _ _ El));
    [reflexivity | reflexivity |].
  unfold y3, x3. ring.
Qed.

(** The chord construction: with [inv * (x2 - x1) = 1] and
    [lambda * (x2 - x1) = y2 - y1 (mod p)]. *)
Lemma chord_on_curve (p a b x1 y1 x2 y2 inv lambda : Z) :
  eqm p (y1 * y1) (x1 * x1 * x1 + a * x1 + b) ->
  eqm p (y2 * y2) (x2 * x2 * x2 + a * x2 + b) ->
  eqm p (inv * (x2 - x1)) 1 ->
  eqm p (lambda * (x2 - x1)) (y2 - y1) ->
  let x3 := lambda * lambda - x1 - x2 in
  let y3 := lambda * (x1 - x3) - y1 in
  eqm p (y3 * y3) (x3 * x3 * x3 + a * x3 + b).
Proof.
  intros E1 E2 Ei El x3 y3.
  apply (eqm_zero_combination p _ _ _ _ _ _
           (inv * (x2 - x3)) (inv * (x3 - x1))
           (- (y3 * y3 - (x3 * x3 * x3 + a * x3 + b)))
           (inv * (x3 - x1) * (lambda * (x2 - x1) + y1 + y2))
           (eqm_sub_zero _ _ _ E1) (eqm_sub_zero _ _ _ E2)
           (eqm_sub_zero _ _ _ Ei) (eqm_sub_zero _ _ _ El)).
  unfold y3, x3. ring.
Qed.

Lemma curve_p_gt_1 : 1 < ECC.curve_p.
Proof. reflexivity. Qed.

Lemma eqm_normalized (p z w : Z) :
  0 < p -> eqm p z w -> eqm p (Z.rem (Z.rem z p + p) p) w.
Proof.
  intros Hp H. rewrite normalize_mod by exact Hp.
  apply eqm_trans with z; [apply Zmod_eqm | exact H].
Qed.

Lemma normalized_range (p z : Z) : 0 < p -> 0 <= Z.rem (Z.rem z p + p) p < p.
Proof.
  intros Hp. rewrite normalize_mod by exact Hp. apply Z.mod_pos_bound. exact Hp.
Qed.

(** The result of the two slope branches of [pointAdd] lies on the curve. *)
Lemma slope_result_on_curve (x1 y1 x2 lambda : Z) :
  let p := ECC.curve_p in
  let x3 := Z.rem (lambda * lambda - x1 - x2) p in
  let y3 := Z.rem (lambda * (x1 - x3) - y1) p in
  (let X := lambda * lambda - x1 - x2 in
   let Y := lambda * (x1 - X) - y1 in
   eqm p (Y * Y) (X * X * X + ECC.curve_a * X + ECC.curve_b)) ->
  ECC.on_curve {| ECC.x := Z.rem (x3 + p) p; ECC.y := Z.rem (y3 + p) p |}.
Proof.
  intros p x3 y3 H. pose proof curve_p_pos as Hp. fold p in Hp.
  unfold ECC.on_curve. cbn [ECC.x ECC.y]. fold p.
  split; [apply normalized_range; exact Hp|].
  split; [apply normalized_range; exact Hp|].
  assert (Hx3 : eqm p x3 (lambda * lambda - x1 - x2)) by (apply eqm_rem; exact Hp).
  assert (HX : eqm p (Z.rem (x3 + p) p) (lambda * lambda - x1 - x2)).
  { apply eqm_normalized; [exact Hp | apply eqm_refl]. }
  assert (HY : eqm p (Z.rem (y3 + p) p)
                 (lambda * (x1 - (lambda * lambda - x1 - x2)) - y1)).
  { apply eqm_normalized; [exact Hp|].
    apply Zminus_eqm; [|apply eqm_refl].
    apply Zmult_eqm; [apply eqm_refl|].
    apply Zminus_eqm; [apply eqm_refl | exact Hx3]. }
  set (X' := Z.rem (x3 + p) p) in *. set (Y' := Z.rem (y3 + p) p) in *.
  change (eqm p (Y' * Y') (X' * X' * X' + ECC.curve_a * X' + ECC.curve_b)).
  eapply eqm_trans; [apply Zmult_eqm; exact HY|].
  eapply eqm_trans; [exact H|].
  apply eqm_sym.
  apply Zplus_eqm; [|apply eqm_refl].
  apply Zplus_eqm; [|apply Zmult_eqm; [apply eqm_refl | exact HX]].
  apply Zmult_eqm; [|exact HX]. apply Zmult_eqm; exact HX.
Qed.

Lemma on_curve_eqm (P : ECC.point) :
  ECC.on_curve P ->
  eqm ECC.curve_p (ECC.y P * ECC.y P)
      (ECC.x P * ECC.x P * ECC.x P + ECC.curve_a * ECC.x P + ECC.curve_b).
Proof. intros (_ & _ & H). exact H. Qed.

Lemma inverse_eqm (a inv : Z) :
  modInverse a ECC.curve_p = Ok inv -> eqm ECC.curve_p (a * inv) 1.
Proof.
  intros H. destruct (modInverse_ok_spec a ECC.curve_p inv curve_p_gt_1 H) as (Hm & _).
  unfold eqm. rewrite Hm. symmetry. apply Z.mod_1_l. exact curve_p_gt_1.
Qed.

Lemma eqm_self_zero (p : Z) : eqm p p 0.
Proof. unfold eqm. rewrite Z_mod_same_full, Zmod_0_l. reflexivity. Qed.

Lemma pointAdd_on_curve (P Q R : ECC.point) :
  ECC.on_curve P -> ECC.on_curve Q ->
  ECC.pointAdd P Q = Ok R -> on_curve_or_infinity R.
Proof.
  intros HP HQ H. pose proof curve_p_pos as Hp.
  unfold ECC.pointAdd in H.
  rewrite (on_curve_not_infinity P HP), (on_curve_not_infinity Q HQ) in H.
  cbv zeta in H.
  pose proof (on_curve_eqm P HP) as E1. pose proof (on_curve_eqm Q HQ) as E2.
  destruct P as [x1 y1], Q as [x2 y2]. cbn [ECC.x ECC.y] in *.
  destruct ((x1 =? x2) && (y1 =? Z.rem (ECC.curve_p - y2) ECC.curve_p)).
  { apply res_ok_inv in H. right. symmetry. exact H. }
  destruct ((x1 =? x2) && (y1 =? y2)) eqn:Esame.
  - apply andb_prop in Esame. destruct Esame as [Ex Ey].
    apply Z.eqb_eq in Ex, Ey. subst x2 y2.
    destruct (modInverse (Z.rem (2 * y1) ECC.curve_p) ECC.curve_p) as [inv| |] eqn:Hinv;
      try discriminate.
    cbn [bind] in H. apply res_ok_inv in H. left. rewrite <- H.
    apply slope_result_on_curve. cbv zeta.
    set (lambda := Z.rem ((3 * x1 * x1 + ECC.curve_a) * inv) ECC.curve_p).
    apply double_on_curve; [exact E1|].
    apply inverse_eqm in Hinv.
    apply (eqm_zero_combination ECC.curve_p _ _
             (lambda - (3 * x1 * x1 + ECC.curve_a) * inv)
             (Z.rem (2 * y1) ECC.curve_p * inv - 1)
             (Z.rem (2 * y1) ECC.curve_p - 2 * y1) 0
             (2 * y1) (3 * x1 * x1 + ECC.curve_a)
             (- ((3 * x1 * x1 + ECC.curve_a) * inv)) 0).
    + apply eqm_sub_zero. apply eqm_rem. exact Hp.
    + apply eqm_sub_zero. exact Hinv.
    + apply eqm_sub_zero. apply eqm_rem. exact Hp.
    + apply eqm_refl.
    + ring.
  - destruct (modInverse (Z.rem (x2 - x1 + ECC.curve_p) ECC.curve_p) ECC.curve_p)
      as [inv| |] eqn:Hinv; try discriminate.
    cbn [bind] in H. apply res_ok_inv in H. left. rewrite <- H.
    apply slope_result_on_curve. cbv zeta.
    set (lambda := Z.rem ((y2 - y1 + ECC.curve_p) * inv) ECC.curve_p).
    apply inverse_eqm in Hinv.
    set (d := Z.rem (x2 - x1 + ECC.curve_p) ECC.curve_p) in *.
    assert (Hd : eqm ECC.curve_p (d - (x2 - x1 + ECC.curve_p)) 0).
    { apply eqm_sub_zero. apply eqm_rem. exact Hp. }
    assert (Ei : eqm ECC.curve_p (inv * (x2 - x1)) 1).
    { apply (eqm_zero_combination ECC.curve_p _ _
               (d - (x2 - x1 + ECC.curve_p)) (d * inv - 1) ECC.curve_p 0
               (- inv) 1 (- inv) 0);
        [exact Hd | apply eqm_sub_zero; exact Hinv | apply eqm_self_zero
        | apply eqm_refl | ring]. }
    apply (chord_on_curve ECC.curve_p ECC.curve_a ECC.curve_b x1 y1 x2 y2 inv lambda
             E1 E2 Ei).
    apply (eqm_zero_combination ECC.curve_p _ _
             (lambda - (y2 - y1 + ECC.curve_p) * inv)
             (inv * (x2 - x1) - 1) ECC.curve_p 0
             (x2 - x1) (y2 - y1 + ECC.curve_p) 1 0);
      [apply eqm_sub_zero; apply eqm_rem; exact Hp
      | apply eqm_sub_zero; exact Ei | apply eqm_self_zero | apply eqm_refl | ring].
Qed.

Lemma pointAdd_infinity_l (Q : ECC.point) : ECC.pointAdd ECC.infinity Q = Ok Q.
Proof. reflexivity. Qed.

Lemma pointAdd_valid (P Q R : ECC.point) :
  on_curve_or_infinity P -> on_curve_or_infinity Q ->
  ECC.pointAdd P Q = Ok R -> on_curve_or_infinity R.
Proof.
  intros [HP | ->] HQ H.
  - destruct HQ as [HQ | ->].
    + exact (pointAdd_on_curve P Q R HP HQ H).
    + rewrite pointAdd_infinity_r in H. apply res_ok_inv in H. subst R. left. exact HP.
  - rewrite pointAdd_infinity_l in H. apply res_ok_inv in H. subst R. exact HQ.
Qed.

Lemma pointMultiply_loop_valid (chars : list bool) (P : ECC.point) :
  on_curve_or_infinity P ->
  forall R0 R, on_curve_or_infinity R0 ->
    ECC.pointMultiply_loop chars P R0 = Ok R -> on_curve_or_infinity R.
Proof.
  intros HP. induction chars as [|c rest IH]; intros R0 R HR0 H.
  - cbn in H. apply res_ok_inv in H. subst R. exact HR0.
  - cbn [ECC.pointMultiply_loop] in H.
    destruct (ECC.pointAdd R0 R0) as [D| |] eqn:HD; try discriminate.
    cbn [bind] in H.
    pose proof (pointAdd_valid R0 R0 D HR0 HR0 HD) as HDv.
    destruct c.
    + destruct (ECC.pointAdd D P) as [S| |] eqn:HS; try discriminate.
      cbn [bind] in H.
      exact (IH S R (pointAdd_valid D P S HDv HP HS) H).
    + cbn [bind] in H. exact (IH D R HDv H).
Qed.

(** X13. The curve arithmetic stays on the curve: when both operands are
    points of secp256k1 (or the sentinel for infinity), a point returned by
    [pointAdd] is again a point of the curve with coordinates in [[0, p)],
    or the sentinel; the same holds for every multiple [pointMultiply]
    returns. *)
Theorem ecc_arithmetic_stays_on_curve (P Q : ECC.point) :
  on_curve_or_infinity P -> on_curve_or_infinity Q ->
  (forall R, ECC.pointAdd P Q = Ok R -> on_curve_or_infinity R) /\
  (forall k R, ECC.pointMultiply P k = Ok R -> on_curve_or_infinity R).
Proof.
  intros HP HQ. split.
  - intros R. apply pointAdd_valid; assumption.
  - intros k R. unfold ECC.pointMultiply.
    apply pointMultiply_loop_valid; [exact HP | right; reflexivity].
Qed.

Lemma ecc_arithmetic_stays_on_curve_witness :
  on_curve_or_infinity
    (match ECC.pointMultiply ECC.G 5 with Ok R => R | _ => ECC.infinity end).
Proof.
  apply (proj2 (ecc_arithmetic_stays_on_curve ECC.G ECC.G
                  (or_introl G_on_curve) (or_introl G_on_curve)) 5).
  vm_compute. reflexivity.
Defined.

Lemma pointMultiply_loop_infinity (chars : list bool) :
  ECC.pointMultiply_loop chars ECC.infinity ECC.infinity = Ok ECC.infinity.
Proof.
  induction chars as [|c rest IH]; [reflexivity|].
  cbn [ECC.pointMultiply_loop]. rewrite pointAdd_infinity_l. cbn [bind].
  destruct c; [rewrite pointAdd_infinity_l|]; cbn [bind]; exact IH.
Qed.

(** X14. Edge cases of [pointMultiply]: the multiple by 0 is the point at
    infinity; every multiple of the point at infinity is the point at
    infinity; and a negative scalar gives the same result as its absolute
    value, because the sign character of the binary string is skipped like
    a '0'. *)
Theorem ecc_pointMultiply_edge_cases (P : ECC.point) (k : Z) :
  ECC.pointMultiply P 0 = Ok ECC.infinity /\
  ECC.pointMultiply ECC.infinity k = Ok ECC.infinity /\
  ECC.pointMultiply P (- k) = ECC.pointMultiply P k.
Proof.
  split; [reflexivity|]. split.
  - unfold ECC.pointMultiply. apply pointMultiply_loop_infinity.
  - unfold ECC.pointMultiply. destruct k as [|q|q]; [reflexivity| |];
      cbn [Z.opp ECC.binary_chars ECC.pointMultiply_loop];
      rewrite pointAdd_infinity_l; reflexivity.
Qed.

(** *** Decompression of a public key *)

Lemma factor_twos_curve :
  factor_twos (factor_twos_fuel (ECC.curve_p - 1)) (ECC.curve_p - 1) 0
  = Ok (Z.quot (ECC.curve_p - 1) 2, 1%nat).
Proof. vm_compute. reflexivity. Qed.

(** When [p - 1] has a single factor 2, [modSqrt] is one exponentiation. *)
Lemma modSqrt_range_single_factor (fuel : nat) (n p q r : Z) :
  1 < p -> p <> 2 ->
  factor_twos (factor_twos_fuel (p - 1)) (p - 1) 0 = Ok (q, 1%nat) ->
  0 <= n < p -> ECC.modSqrt fuel n p = Ok r ->
  0 <= r < p.
Proof.
  intros Hp Hp2 Hf Hn H.
  unfold ECC.modSqrt in H.
  destruct (n =? 0); [apply res_ok_inv in H; subst r; lia|].
  destruct (p =? 2) eqn:E2; [apply Z.eqb_eq in E2; contradiction|].
  destruct (modPow n (Z.quot (p - 1) 2) p) as [l| |]; try discriminate.
  cbn [bind] in H. destruct (negb (l =? 1)); [discriminate|].
  rewrite Hf in H. cbn [bind] in H.
  change ((1 =? 1)%nat) with true in H. cbv iota in H.
  rewrite modPow_spec in H; [|lia| |exact Hp].
  - apply res_ok_inv in H. subst r. apply Z.mod_pos_bound. lia.
  - apply Z.quot_pos; lia.
Qed.

Lemma curve_p_not_2 : ECC.curve_p <> 2.
Proof. intros H. vm_compute in H. discriminate H. Qed.

Lemma modSqrt_curve_range (fuel : nat) (n r : Z) :
  0 <= n < ECC.curve_p -> ECC.modSqrt fuel n ECC.curve_p = Ok r ->
  0 <= r < ECC.curve_p.
Proof.
  exact (modSqrt_range_single_factor fuel n ECC.curve_p _ r
           curve_p_gt_1 curve_p_not_2 factor_twos_curve).
Qed.

Lemma rem2_even (a : Z) : 0 <= a -> (Z.rem a 2 =? 0) = negb (Z.odd a).
Proof.
  intros Ha. rewrite Z.rem_mod_nonneg by lia. rewrite Zmod_odd.
  destruct (Z.odd a); reflexivity.
Qed.

Lemma curve_p_odd : Z.odd ECC.curve_p = true.
Proof. reflexivity. Qed.

(** X15. Decompression.  For a compressed key (prefix 02 or 03 and a
    non-negative [x]) every point that [hexToPoint] returns has that [x], a
    [y] in [[0, p)] that satisfies the curve equation modulo [p] and, unless
    it is 0, the parity the prefix asks for.  An uncompressed key (prefix
    04) is returned as it is, without any check that it lies on the curve. *)
Theorem ecc_hexToPoint_decompression (fuel : nat) :
  (forall (y_odd : bool) (hx : Z) (R : ECC.point),
     0 <= hx ->
     ECC.hexToPoint fuel (ECC.Compressed y_odd hx) = Ok R ->
     ECC.x R = hx /\ 0 <= ECC.y R < ECC.curve_p /\
     (ECC.y R * ECC.y R) mod ECC.curve_p
     = (hx * hx * hx + ECC.curve_a * hx + ECC.curve_b) mod ECC.curve_p /\
     (ECC.y R <> 0 -> Z.odd (ECC.y R) = y_odd)) /\
  (forall hx hy,
     ECC.hexToPoint fuel (ECC.Uncompressed hx hy) = Ok {| ECC.x := hx; ECC.y := hy |}).
Proof.
  split; [|reflexivity].
  intros y_odd hx R Hhx H. pose proof curve_p_gt_1 as Hp.
  unfold ECC.hexToPoint in H. cbv zeta in H.
  set (rhs := hx * hx * hx + ECC.curve_a * hx + ECC.curve_b) in *.
  assert (Hrhs : 0 <= rhs).
  { unfold rhs, ECC.curve_a, ECC.curve_b. nia. }
  assert (Hn : 0 <= Z.rem rhs ECC.curve_p < ECC.curve_p)
    by (apply Z.rem_bound_pos; lia).
  destruct (ECC.modSqrt fuel (Z.rem rhs ECC.curve_p) ECC.curve_p) as [y0| |] eqn:Hs;
    try discriminate.
  cbn [bind] in H.
  pose proof (modSqrt_curve_range fuel _ y0 Hn Hs) as Hy0.
  pose proof (modSqrt_sound fuel _ ECC.curve_p y0 Hn Hs) as Hsq.
  rewrite Z.rem_mod_nonneg in Hsq by lia.
  apply res_ok_inv in H. subst R. cbn [ECC.x ECC.y].
  split; [reflexivity|].
  rewrite rem2_even by lia.
  destruct (negb (Bool.eqb (negb (Z.odd y0)) (negb y_odd))) eqn:Emis.
  - apply negb_true_iff in Emis. apply eqb_false_iff in Emis.
    destruct (Z.eq_dec y0 0) as [->|Hne].
    + replace (ECC.curve_p - 0) with ECC.curve_p by ring.
      rewrite Z.rem_same by lia.
      split; [lia|]. split; [exact Hsq | intros Hc; contradiction].
    + rewrite Z.rem_small by lia.
      split; [lia|]. split.
      * rewrite <- Hsq.
        replace ((ECC.curve_p - y0) * (ECC.curve_p - y0))
          with (y0 * y0 + (ECC.curve_p - 2 * y0) * ECC.curve_p) by ring.
        apply Z_mod_plus_full.
      * intros _. rewrite Z.odd_sub, curve_p_odd.
        destruct (Z.odd y0), y_odd; cbn in *; congruence.
  - apply negb_false_iff in Emis. apply eqb_prop in Emis.
    split; [lia|]. split; [exact Hsq|].
    intros _. destruct (Z.odd y0), y_odd; cbn in *; congruence.
Qed.

Lemma ecc_hexToPoint_decompression_witness :
  ECC.x ECC.G = ECC.curve_Gx /\ 0 <= ECC.y ECC.G < ECC.curve_p /\
  (ECC.y ECC.G * ECC.y ECC.G) mod ECC.curve_p
  = (ECC.curve_Gx * ECC.curve_Gx * ECC.curve_Gx + ECC.curve_a * ECC.curve_Gx
     + ECC.curve_b) mod ECC.curve_p /\
  (ECC.y ECC.G <> 0 -> Z.odd (ECC.y ECC.G) = false).
Proof.
  apply (proj1 (ecc_hexToPoint_decompression 0) false ECC.curve_Gx ECC.G).
  - vm_compute. discriminate.
  - vm_compute. reflexivity.
Defined.

(** X16. ECC key generation: a key pair that [generateKeys] returns has a
    private scalar [d] with [0 < d < n - 1], and its public key is the
    compressed form of [d * G], a point of the curve (or the sentinel). *)
Theorem ecc_generateKeys_shape (fuel : nat) (r : rng) (pos : nat)
        (publicKey : ECC.HexPoint) (d : Z) (pos' : nat) :
  ECC.generateKeys fuel r pos = Ok (publicKey, d, pos') ->
  0 < d < ECC.curve_n - 1 /\
  exists Q, ECC.pointMultiply ECC.G d = Ok Q /\
            publicKey = ECC.pointToHex Q /\ on_curve_or_infinity Q.
Proof.
  intros H. unfold ECC.generateKeys in H. apply catch_rethrow_ok in H.
  destruct (ElGamal.generateRandomBigInt fuel r pos (ECC.curve_n - 1))
    as [[k pos1]| |] eqn:Hk; try discriminate.
  cbn [bind] in H.
  apply generateRandomBigInt_loop_range in Hk.
  destruct (ECC.pointMultiply ECC.G k) as [Q| |] eqn:HQ; try discriminate.
  cbn [bind] in H. apply res_ok_inv in H.
  assert (Hd : k = d) by congruence.
  assert (Hpub : ECC.pointToHex Q = publicKey) by congruence.
  subst k. split.
  - assert (Z.abs (ECC.curve_n - 1) = ECC.curve_n - 1) by reflexivity. lia.
  - exists Q. split; [exact HQ|]. split; [symmetry; exact Hpub|].
    exact (proj2 (ecc_arithmetic_stays_on_curve ECC.G ECC.G
                    (or_introl G_on_curve) (or_introl G_on_curve)) d Q HQ).
Qed.

Lemma ecc_generateKeys_shape_witness :
  0 < 3 < ECC.curve_n - 1 /\
  exists Q, ECC.pointMultiply ECC.G 3 = Ok Q /\
            ECC.pointToHex
              (match ECC.pointMultiply ECC.G 3 with Ok R => R | _ => ECC.infinity end)
            = ECC.pointToHex Q /\
            on_curve_or_infinity Q.
Proof.
  apply (ecc_generateKeys_shape 1 (fun i => if (i =? 31)%nat then 3 else 0) 0
           (ECC.pointToHex
              (match ECC.pointMultiply ECC.G 3 with Ok R => R | _ => ECC.infinity end))
           3 32%nat).
  vm_compute. reflexivity.
Defined.

(** ** The symmetric layer of the ECC engine *)

(** X17. The XOR layer of the ECC engine: for every byte array, key and
    IV, [xorEncrypt] returns a ciphertext of the same length, and
    [xorDecrypt] with the same key and IV gives the data back. *)
Theorem ecc_xor_layer_roundtrip (data key iv : list Z) :
  is_bytes data ->
  exists ct,
    ECC.xorEncrypt data key iv = Ok ct /\
    length ct = length data /\ is_bytes ct /\
    ECC.xorDecrypt ct key iv = Ok data.
Proof.
  intros Hd.
  destruct (xorEncrypt_xorDecrypt data key iv Hd) as (ct & Hct & Hback).
  exists ct. split; [exact Hct|].
  unfold ECC.xorEncrypt in Hct.
  destruct (ECC.generateKeyStream key iv (length data)) as [ks| |]; try discriminate.
  cbn [bind] in Hct. apply res_ok_inv in Hct. subst ct.
  split; [apply xor_bytes_length|]. split; [apply xor_bytes_is_bytes | exact Hback].
Qed.

Lemma ecc_xor_layer_roundtrip_witness :
  exists ct,
    ECC.xorEncrypt [72; 105; 0] [1; 2] [9] = Ok ct /\
    length ct = length [72; 105; 0] /\ is_bytes ct /\
    ECC.xorDecrypt ct [1; 2] [9] = Ok [72; 105; 0].
Proof.
  apply (ecc_xor_layer_roundtrip [72; 105; 0] [1; 2] [9]).
  repeat constructor; lia.
Defined.

Lemma generateKeyStream_loop_shift (fuel : nat) (pre suf : list Z) (a b : Z) :
  forall counter pos length keyStream,
    ECC.generateKeyStream_loop fuel (pre ++ [a; b] ++ suf) counter pos length keyStream
    = ECC.generateKeyStream_loop fuel (pre ++ [a - 1; b + 31] ++ suf) counter pos length
        keyStream.
Proof.
  induction fuel as [|f IH]; intros counter pos length keyStream; [reflexivity|].
  cbn [ECC.generateKeyStream_loop].
  destruct (pos <? length)%nat; [|reflexivity].
  rewrite !app_assoc with (l := counter).
  rewrite (simpleHashBytes_shift (counter ++ pre) suf a b).
  destruct (u8_set keyStream _ pos) as [ks| |]; cbn [bind]; try reflexivity.
  apply IH.
Qed.

(** X18. Equivalent keys of the XOR layer: the key enters the key stream
    only through the stand-in hash, so two keys that differ by lowering one
    byte by 1 and raising the next by 31 encrypt (and decrypt) every
    message to the same bytes. *)
Theorem ecc_xor_layer_equivalent_keys (data pre suf iv : list Z) (a b : Z) :
  1 <= a <= 255 -> 0 <= b <= 224 ->
  ECC.xorEncrypt data (pre ++ [a; b] ++ suf) iv
  = ECC.xorEncrypt data (pre ++ [a - 1; b + 31] ++ suf) iv.
Proof.
  intros _ _. unfold ECC.xorEncrypt, ECC.generateKeyStream.
  rewrite generateKeyStream_loop_shift. reflexivity.
Qed.

Lemma ecc_xor_layer_equivalent_keys_witness :
  ECC.xorEncrypt [72; 105] ([7] ++ [1; 0] ++ [9]) [5]
  = ECC.xorEncrypt [72; 105] ([7] ++ [1 - 1; 0 + 31] ++ [9]) [5].
Proof.
  apply (ecc_xor_layer_equivalent_keys [72; 105] [7] [9] [5] 1 0); lia.
Defined.

(** ** RSA round trip on a certified key *)

(** *** Proth's criterion, to certify the primes of a key *)

Lemma least_divisor_below (d : Z) (b : nat) :
  (forall n, 1 < n < 2 + Z.of_nat b -> ~ (n | d)) \/
  (exists r, 1 < r < 2 + Z.of_nat b /\ (r | d) /\ forall n, 1 < n < r -> ~ (n | d)).
Proof.
  induction b as [|b IH].
  - left. intros n Hn. lia.
  - destruct IH as [Hnone | (r & Hr & Hdiv & Hmin)].
    + assert (Hdec : (2 + Z.of_nat b | d) \/ ~ (2 + Z.of_nat b | d)).
      { destruct (Z.eq_dec (d mod (2 + Z.of_nat b)) 0) as [E|E];
          [left | right]; rewrite <- Z.mod_divide by lia; exact E. }
      destruct Hdec as [Hd | Hd].
      * right. exists (2 + Z.of_nat b). split; [lia|]. split; [exact Hd | exact Hnone].
      * left. intros n Hn.
        destruct (Z.eq_dec n (2 + Z.of_nat b)) as [->|Hne]; [exact Hd|].
        apply Hnone. lia.
    + right. exists r. split; [lia|]. split; [exact Hdiv | exact Hmin].
Qed.

Lemma least_prime_divisor (p d0 : Z) :
  1 < d0 < p -> (d0 | p) ->
  exists r, Z.prime r /\ (r | p) /\ r * r <= p.
Proof.
  intros Hd0 Hdiv0.
  destruct (least_divisor_below p (Z.to_nat p)) as [Hnone | (r & Hr & Hdiv & Hmin)].
  { exfalso. apply (Hnone d0); [lia | exact Hdiv0]. }
  assert (Hrle : r <= d0).
  { destruct (Z_le_gt_dec r d0); [assumption|].
    exfalso. apply (Hmin d0); [lia | exact Hdiv0]. }
  exists r. split; [|split; [exact Hdiv|]].
  - split; [lia|]. intros n Hn Hnr. apply (Hmin n Hn).
    eapply Z.divide_trans; eassumption.
  - destruct Hdiv as [s Hs].
    assert (Hs1 : 1 < s) by nia.
    assert (Hsdiv : (s | p)) by (exists r; lia).
    destruct (Z_le_gt_dec r s) as [Hle|Hgt]; [nia|].
    exfalso. apply (Hmin s); [lia | exact Hsdiv].
Qed.

Lemma minus_one_pow_odd (r m : Z) :
  1 < r -> 0 <= m -> m mod 2 = 1 -> (r - 1) ^ m mod r = r - 1.
Proof.
  intros Hr Hm Hodd.
  assert (Hm1 : (r - 1) mod r = (-1) mod r).
  { replace (r - 1) with (-1 + 1 * r) by ring. apply Z_mod_plus_full. }
  rewrite <- Z.mod_pow_l, Hm1, Z.mod_pow_l.
  assert (Ho : Z.Odd m).
  { exists (m / 2). pose proof (Z.div_mod m 2 ltac:(lia)). lia. }
  change (-1) with (- (1)). rewrite Z.pow_opp_odd by exact Ho.
  rewrite Z.pow_1_l by lia.
  replace (- (1)) with (r - 1 + (-1) * r) by ring.
  rewrite Z_mod_plus_full. apply Z.mod_small. lia.
Qed.

(** Proth: [p = k * 2^n + 1] with [0 < k <= 2^n] is prime as soon as some
    [a] has [a^((p-1)/2) = -1 (mod p)]. *)
Lemma proth_prime (k n a p : Z) :
  1 <= n -> 0 < k <= 2 ^ n -> p = k * 2 ^ n + 1 ->
  a ^ (k * 2 ^ (n - 1)) mod p = p - 1 ->
  Z.prime p.
Proof.
  intros Hn Hk Hp Hpow.
  assert (H2n : 0 < 2 ^ (n - 1)) by (apply Z.pow_pos_nonneg; lia).
  assert (H2 : 2 ^ n = 2 * 2 ^ (n - 1)).
  { replace n with (Z.succ (n - 1)) at 1 by lia. apply Z.pow_succ_r. lia. }
  set (E := k * 2 ^ (n - 1)) in *.
  assert (HE : 0 < E) by (unfold E; nia).
  assert (Hp1 : 1 < p) by nia.
  split; [exact Hp1|]. intros d0 Hd0 Hdiv0.
  destruct (least_prime_divisor p d0 Hd0 Hdiv0) as (r & Hrp & Hrdiv & Hrr).
  pose proof (Z.prime_ge_2 r Hrp) as Hr2.
  (* r divides a^E + 1 *)
  assert (HaE : (r | a ^ E + 1)).
  { apply Z.divide_trans with p; [exact Hrdiv|].
    exists (a ^ E / p + 1).
    pose proof (Z.div_mod (a ^ E) p ltac:(lia)). lia. }
  (* r is odd *)
  assert (Hr3 : 3 <= r).
  { destruct (Z.eq_dec r 2) as [->|]; [|lia].
    exfalso. destruct Hrdiv as [s Hs].
    assert (p = 2 * E + 1) by (unfold E; lia). lia. }
  assert (HaEm : a ^ E mod r = r - 1).
  { destruct HaE as [t Ht].
    replace (a ^ E) with (r - 1 + (t - 1) * r) by lia.
    rewrite Z_mod_plus_full. apply Z.mod_small. lia. }
  (* a is a unit modulo r *)
  assert (Hunit : a mod r <> 0).
  { intros H0.
    assert (Hz : a ^ E mod r = 0).
    { rewrite <- Z.mod_pow_l, H0. rewrite Z.pow_0_l by lia. apply Z.mod_0_l. lia. }
    lia. }
  pose proof (Z.fermat_nz r a Hrp Hunit) as Hfermat.
  (* r - 1 = m * 2^j with m odd *)
  assert (Hr1 : 0 < r - 1) by lia.
  destruct (factor_twos_fuel_total (r - 1) Hr1) as (m & j & Hft).
  destruct (factor_twos_spec _ _ _ _ _ Hr1 Hft) as (Hm & Hmodd & _ & Hrm).
  rewrite Nat.sub_0_r in Hrm.
  set (J := Z.of_nat j) in *.
  assert (HJ : 0 <= J) by (unfold J; lia).
  assert (HJn : n <= J).
  { destruct (Z_le_gt_dec n J) as [|Hlt]; [assumption|]. exfalso.
    (* X = a^(k*m); X^(2^J) = 1 and X^(2^(n-1)) = -1 modulo r *)
    assert (Hone : a ^ (k * m * 2 ^ J) mod r = 1).
    { replace (k * m * 2 ^ J) with ((r - 1) * k) by (rewrite Hrm; ring).
      rewrite Z.pow_mul_r by lia.
      rewrite <- Z.mod_pow_l, Hfermat, Z.pow_1_l by lia.
      apply Z.mod_1_l. lia. }
    assert (Hone' : a ^ (k * m * 2 ^ (n - 1)) mod r = 1).
    { replace (2 ^ (n - 1)) with (2 ^ J * 2 ^ (n - 1 - J))
        by (rewrite <- Z.pow_add_r by lia; f_equal; lia).
      replace (k * m * (2 ^ J * 2 ^ (n - 1 - J)))
        with (k * m * 2 ^ J * 2 ^ (n - 1 - J)) by ring.
      assert (0 <= 2 ^ (n - 1 - J)) by (apply Z.pow_nonneg; lia).
      assert (0 <= 2 ^ J) by (apply Z.pow_nonneg; lia).
      rewrite Z.pow_mul_r by nia.
      rewrite <- Z.mod_pow_l, Hone, Z.pow_1_l by lia.
      apply Z.mod_1_l. lia. }
    assert (Hminus : a ^ (k * m * 2 ^ (n - 1)) mod r = r - 1).
    { replace (k * m * 2 ^ (n - 1)) with (E * m) by (unfold E; ring).
      rewrite Z.pow_mul_r by lia.
      rewrite <- Z.mod_pow_l, HaEm.
      apply minus_one_pow_odd; lia. }
    lia. }
  (* hence 2^n divides r - 1 and r * r > p *)
  assert (Hge : 2 ^ n + 1 <= r).
  { assert (H2J : 2 ^ J = 2 ^ n * 2 ^ (J - n))
      by (rewrite <- Z.pow_add_r by lia; f_equal; lia).
    assert (0 < 2 ^ (J - n)) by (apply Z.pow_pos_nonneg; lia).
    assert (0 < 2 ^ n) by (apply Z.pow_pos_nonneg; lia).
    rewrite H2J in Hrm. nia. }
  assert (0 < 2 ^ n) by (apply Z.pow_pos_nonneg; lia).
  nia.
Qed.

(** The criterion run with the engine's own [modPow]. *)
Lemma proth_prime_by_modPow (k n a : Z) :
  1 <= n -> 0 < k <= 2 ^ n -> 0 <= a ->
  modPow a (k * 2 ^ (n - 1)) (k * 2 ^ n + 1) = Ok (k * 2 ^ n) ->
  Z.prime (k * 2 ^ n + 1).
Proof.
  intros Hn Hk Ha Hrun.
  assert (0 < 2 ^ (n - 1)) by (apply Z.pow_pos_nonneg; lia).
  assert (0 < 2 ^ n) by (apply Z.pow_pos_nonneg; lia).
  rewrite modPow_spec in Hrun by nia.
  apply res_ok_inv in Hrun.
  apply (proth_prime k n a); [exact Hn | exact Hk | reflexivity|].
  rewrite Hrun. ring.
Qed.

(** *** The round trip *)

Lemma rsa_ciphertext_length (r : rng) (pos : nat) (message : text) (pk : RSA.PublicKey)
      (er : RSA.EncryptionResult) (pos' : nat) :
  RSA.encrypt r pos message pk = Ok (er, pos') ->
  length (RSA.ciphertext er) = Z.to_nat (RSA.keyLenBytes_of (RSA.pk_n pk)).
Proof.
  unfold RSA.encrypt, RSA.encrypt_body. intros H.
  destruct (_ >? _); [discriminate|].
  destruct (RSA.oaep_encode _ _ _ _) as [[em pos1]| |]; try discriminate.
  cbn [bind catch_rethrow] in H.
  destruct (modExp _ _ _) as [c| |]; try discriminate.
  cbn [bind catch_rethrow] in H.
  apply res_ok_inv in H.
  apply (f_equal (fun x => length (RSA.ciphertext (fst x)))) in H.
  cbn [fst RSA.ciphertext] in H. rewrite <- H. apply bigIntToBytes_length.
Qed.

(** X19. RSA round trip.  For a key pair built as [generateKeys] builds it
    from two distinct primes [p] and [q] ([n = p q], [e = 65537],
    [d = modInverse(e, (p-1)(q-1))]), every ASCII message of at most
    [keyLenBytes - 2*hLen - 2] characters is accepted by [encrypt], whatever
    the OAEP seed drawn; the ciphertext has exactly [keyLenBytes] bytes and
    [decrypt] returns the message. *)
Theorem rsa_decrypt_inverts_encrypt (p q d : Z) (r : rng) (pos : nat) (message : text) :
  Z.prime p -> Z.prime q -> p <> q ->
  modInverse RSA.e_fixed ((p - 1) * (q - 1)) = Ok d ->
  is_ascii message ->
  Z.of_nat (length message) <= RSA.keyLenBytes_of (p * q) - 2 * RSA.HASH_LENGTH - 2 ->
  exists er pos',
    RSA.encrypt r pos message {| RSA.pk_n := p * q; RSA.pk_e := RSA.e_fixed |}
    = Ok (er, pos') /\
    length (RSA.ciphertext er) = Z.to_nat (RSA.keyLenBytes_of (p * q)) /\
    RSA.decrypt er {| RSA.sk_n := p * q; RSA.sk_d := d |} = Ok message.
Proof.
  intros Hp Hq Hne Hd Ha Hlen.
  destruct (rsa_roundtrip p q d r pos message Hp Hq Hne Hd Ha Hlen)
    as (er & pos' & Henc & Hdec).
  exists er, pos'. split; [exact Henc|]. split; [|exact Hdec].
  apply (rsa_ciphertext_length _ _ _ _ _ _ Henc).
Qed.

Lemma rsa_decrypt_inverts_encrypt_witness :
  exists er pos',
    RSA.encrypt (fun _ => 7) 0 [72; 105]
      {| RSA.pk_n := (99 * 2 ^ 270 + 1) * (597 * 2 ^ 270 + 1); RSA.pk_e := RSA.e_fixed |}
    = Ok (er, pos') /\
    length (RSA.ciphertext er)
    = Z.to_nat (RSA.keyLenBytes_of ((99 * 2 ^ 270 + 1) * (597 * 2 ^ 270 + 1))) /\
    RSA.decrypt er
      {| RSA.sk_n := (99 * 2 ^ 270 + 1) * (597 * 2 ^ 270 + 1);
         RSA.sk_d :=
           match modInverse RSA.e_fixed
                   ((99 * 2 ^ 270 + 1 - 1) * (597 * 2 ^ 270 + 1 - 1)) with
           | Ok d => d
           | _ => 0
           end |}
    = Ok [72; 105].
Proof.
  apply (rsa_decrypt_inverts_encrypt (99 * 2 ^ 270 + 1) (597 * 2 ^ 270 + 1) _
           (fun _ => 7) 0 [72; 105]).
  - apply (proth_prime_by_modPow 99 270 5); [lia | split; [reflexivity | vm_compute; discriminate] | lia|].
    vm_compute. reflexivity.
  - apply (proth_prime_by_modPow 597 270 7); [lia | split; [reflexivity | vm_compute; discriminate] | lia|].
    vm_compute. reflexivity.
  - vm_compute. discriminate.
  - vm_compute. reflexivity.
  - repeat constructor; lia.
  - vm_compute. discriminate.
Defined.

(** ** Hexadecimal transport *)

Lemma parseInt16_byte (b : Z) :
  is_byte b -> parseInt16 [hex_digit (b / 16); hex_digit (b mod 16)] = Some b.
Proof.
  intros Hb.
  pose proof (byte_cases
                (fun b => match parseInt16 [hex_digit (b / 16); hex_digit (b mod 16)] with
                          | Some v => v =? b
                          | None => false
                          end)
                ltac:(vm_compute; reflexivity) b Hb) as H.
  cbv beta in H.
  destruct (parseInt16 _) as [v|]; [|discriminate].
  apply Z.eqb_eq in H. subst v. reflexivity.
Qed.

Lemma bytesToHex_length (B : list Z) : length (bytesToHex B) = (2 * length B)%nat.
Proof.
  unfold bytesToHex. induction B as [|b B IH]; [reflexivity|].
  cbn [flat_map length app]. rewrite IH. lia.
Qed.

Lemma hexToBytes_length (hex : text) :
  length (hexToBytes hex) = ((length hex + 1) / 2)%nat.
Proof.
  unfold hexToBytes. rewrite length_map, length_seq.
  destruct (Nat.odd (length hex)) eqn:E.
  - cbn [length]. apply Nat.odd_spec in E. destruct E as [k Hk]. rewrite Hk.
    replace (S (2 * k + 1)) with ((k + 1) * 2)%nat by lia.
    replace (2 * k + 1 + 1)%nat with ((k + 1) * 2)%nat by lia.
    reflexivity.
  - assert (Hev : Nat.even (length hex) = true)
      by (rewrite <- Nat.negb_odd, E; reflexivity).
    apply Nat.even_spec in Hev. destruct Hev as [k Hk]. rewrite Hk.
    replace (2 * k)%nat with (k * 2)%nat by lia. rewrite Nat.div_mul by lia.
    replace (k * 2 + 1)%nat with (1 + k * 2)%nat by lia.
    rewrite Nat.div_add by lia. reflexivity.
Qed.

(** Reading a string of even length pair by pair. *)
Lemma hexToBytes_pair (c0 c1 : Z) (rest : text) :
  Nat.even (length rest) = true ->
  hexToBytes (c0 :: c1 :: rest)
  = to_u8 (match parseInt16 [c0; c1] with Some v => v | None => 0 end)
    :: hexToBytes rest.
Proof.
  intros Hev. unfold hexToBytes. cbn [length].
  assert (Hodd : Nat.odd (length rest) = false)
    by (rewrite <- Nat.negb_even, Hev; reflexivity).
  replace (Nat.odd (S (S (length rest)))) with false
    by (rewrite !Nat.odd_succ, Nat.even_succ; symmetry; exact Hodd).
  rewrite Hodd. cbn [length].
  apply Nat.even_spec in Hev. destruct Hev as [k Hk]. rewrite Hk.
  replace (S (S (2 * k))) with ((1 + k) * 2)%nat by lia.
  replace (2 * k)%nat with (k * 2)%nat by lia.
  rewrite !Nat.div_mul by lia.
  change (1 + k)%nat with (S k). cbn [seq map]. f_equal.
  rewrite <- seq_shift, map_map. apply map_ext. intros i.
  replace (2 * S i)%nat with (S (S (2 * i))) by lia. reflexivity.
Qed.

(** X20. Hexadecimal transport of byte arrays (the IV of an ECC ciphertext,
    the label hash of OAEP): [bytesToHex] writes two characters per byte
    and [hexToBytes] reads them back, so [hexToBytes(bytesToHex(B)) = B]
    for every byte array; and [hexToBytes] never fails: it returns
    [ceil(length / 2)] bytes for any string. *)
Theorem hex_transport_roundtrip :
  (forall B, is_bytes B ->
     length (bytesToHex B) = (2 * length B)%nat /\ hexToBytes (bytesToHex B) = B) /\
  (forall hex, length (hexToBytes hex) = ((length hex + 1) / 2)%nat /\
               is_bytes (hexToBytes hex)).
Proof.
  split.
  - intros B HB. split; [apply bytesToHex_length|].
    induction HB as [|b B Hb HB IH]; [reflexivity|].
    change (bytesToHex (b :: B))
      with (hex_digit (b / 16) :: hex_digit (b mod 16) :: bytesToHex B).
    rewrite hexToBytes_pair.
    + rewrite parseInt16_byte by exact Hb. rewrite to_u8_id by exact Hb.
      rewrite IH. reflexivity.
    + rewrite bytesToHex_length. apply Nat.even_spec. exists (length B). reflexivity.
  - intros hex. split; [apply hexToBytes_length|].
    unfold hexToBytes, is_bytes. apply Forall_forall. intros v Hv.
    apply in_map_iff in Hv. destruct Hv as (i & <- & _). apply to_u8_byte.
Qed.

Lemma hex_transport_roundtrip_witness :
  length (bytesToHex [0; 171; 255]) = (2 * length [0; 171; 255])%nat /\
  hexToBytes (bytesToHex [0; 171; 255]) = [0; 171; 255].
Proof.
  apply (proj1 hex_transport_roundtrip [0; 171; 255]). repeat constructor; lia.
Defined.
